(** * access-calibre-deno: the EPUB parsing core of [CalibreClient]

    A shallow embedding of the chapter catalogue ([getChapters],
    [getTOCFromEntries], [_normalizePath]), the archive accessors
    ([getEpubFile], [getChapterContent]), the in-book search
    ([searchInBook]) and the chunked reader of the
    [get_chapter_content_markdown] tool, with the properties the
    specification states about them.

    Conventions of the embedding.
    - A JavaScript string is a [string]: a sequence of code units below
      256, the Basic Latin and Latin-1 range. [length], [substring] and
      [indexOf] count code units. On this range [toLowerCase] folds the
      letters A-Z and the capital letters of Latin-1, and the white space
      of [trim] and of the pattern class [\s] is the ASCII white space and
      the no-break space. Code units from 256 on are outside the
      embedding; among them is U+0130, which [toLowerCase] turns into
      two code units, so no statement below relies on case folding
      keeping the length of a text.
    - A JavaScript number that is used as an index is a [Z].
    - In comments that quote the source, ' stands for its double quote.
    - [await] is sequencing: the program is single threaded and every
      promise is awaited at once, so an asynchronous method is a
      computation in the monad [M] below (a trace of archive events and
      an outcome that is a value or a thrown error). *)

From Stdlib Require Import ZArith Ascii String Lia Bool DecimalString.
From stdpp Require Import base option list gmap strings.

Local Open Scope Z_scope.

(** ** Host-language string primitives *)

Module JS.

(** [s.split(sep)] for a one-character separator: never the empty array. *)
Fixpoint split (sep : ascii) (s : string) : list string :=
  match s with
  | EmptyString => [""]
  | String c s' =>
      if Ascii.eqb c sep then "" :: split sep s'
      else match split sep s' with
           | [] => [String c ""]
           | seg :: segs => String c seg :: segs
           end
  end.

(** [a.join(sep)]. *)
Fixpoint join (sep : string) (l : list string) : string :=
  match l with
  | [] => ""
  | [x] => x
  | x :: l' => x +:+ sep +:+ join sep l'
  end.

(** [a.pop()] as an expression: the last element, [undefined] on []. *)
Definition pop_value (l : list string) : option string := last l.

(** [s.includes(c)] for a one-character needle. *)
Fixpoint includes (c : ascii) (s : string) : bool :=
  match s with
  | EmptyString => false
  | String d s' => Ascii.eqb d c || includes c s'
  end.

(** [s.startsWith(p)]. *)
Fixpoint startsWith (p s : string) : bool :=
  match p, s with
  | EmptyString, _ => true
  | String a p', String b s' => Ascii.eqb a b && startsWith p' s'
  | String _ _, EmptyString => false
  end.

(** The code units of [s] from index [n] on. *)
Fixpoint drop (n : nat) (s : string) : string :=
  match n, s with
  | O, _ => s
  | S n', String _ s' => drop n' s'
  | S _, EmptyString => ""
  end.

(** The first [n] code units of [s]. *)
Fixpoint take (n : nat) (s : string) : string :=
  match n, s with
  | O, _ => ""
  | S n', String c s' => String c (take n' s')
  | S _, EmptyString => ""
  end.

Definition len (s : string) : Z := Z.of_nat (String.length s).

(** Clamping of an index argument to [0 .. s.length]. *)
Definition clamp (s : string) (i : Z) : Z := Z.min (Z.max i 0) (len s).

(** [s.substring(start, end)]: both arguments are clamped to
    [0 .. s.length] and swapped when [start > end]. *)
Definition substring (s : string) (start end_ : Z) : string :=
  let a := clamp s start in
  let b := clamp s end_ in
  let lo := Z.min a b in
  let hi := Z.max a b in
  take (Z.to_nat (hi - lo)) (drop (Z.to_nat lo) s).

(** Forward search of [q] in [s], [s] being the text from index [pos] on. *)
Fixpoint indexOf_from (q s : string) (pos : Z) : Z :=
  if startsWith q s then pos
  else match s with
       | EmptyString => -1
       | String _ s' => indexOf_from q s' (pos + 1)
       end.

(** [s.indexOf(q, position)]: the position is clamped to [0 .. s.length];
    the result is the least index at or after it where [q] occurs, or -1. *)
Definition indexOf (s q : string) (position : Z) : Z :=
  let start := clamp s position in
  indexOf_from q (drop (Z.to_nat start) s) start.

(** [s.lastIndexOf(c)] for a one-character needle, -1 when absent. *)
Fixpoint lastIndexOf_from (c : ascii) (s : string) (pos : Z) (found : Z) : Z :=
  match s with
  | EmptyString => found
  | String d s' =>
      lastIndexOf_from c s' (pos + 1) (if Ascii.eqb d c then pos else found)
  end.

Definition lastIndexOf (s : string) (c : ascii) : Z :=
  lastIndexOf_from c s 0 (-1).

(** The lower case of a code unit below 256: A-Z and the capital
    letters of Latin-1 (U+00C0 to U+00DE but the multiplication sign
    U+00D7) go to the small letter 32 places on. *)
Definition lower_ascii (c : ascii) : ascii :=
  let n := nat_of_ascii c in
  if (65 <=? n)%nat && (n <=? 90)%nat
     || (192 <=? n)%nat && (n <=? 214)%nat
     || (216 <=? n)%nat && (n <=? 222)%nat
  then ascii_of_nat (n + 32) else c.

(** The canonical form that a pattern under the [i] flag compares: a-z
    and the small letters of Latin-1 whose capital is a single code unit
    below 256 (U+00E0 to U+00FE but the division sign U+00F7) go to the
    capital 32 places back; the others (among them U+00B5, U+00DF and
    U+00FF) are compared as they are. *)
Definition upper_ascii (c : ascii) : ascii :=
  let n := nat_of_ascii c in
  if (97 <=? n)%nat && (n <=? 122)%nat
     || (224 <=? n)%nat && (n <=? 246)%nat
     || (248 <=? n)%nat && (n <=? 254)%nat
  then ascii_of_nat (n - 32) else c.

(** [s.toLowerCase()]. *)
Fixpoint toLowerCase (s : string) : string :=
  match s with
  | EmptyString => ""
  | String c s' => String (lower_ascii c) (toLowerCase s')
  end.

(** White space of [trim] and of the pattern class [\s], below 256:
    tab, line feed, vertical tab, form feed, carriage return, space and
    the no-break space U+00A0. *)
Definition is_space (c : ascii) : bool :=
  Ascii.is_space c || Ascii.eqb c "160".

Fixpoint trimStart (s : string) : string :=
  match s with
  | EmptyString => ""
  | String c s' => if is_space c then trimStart s' else s
  end.

(** [s.trim()]. *)
Definition trim (s : string) : string :=
  String.rev (trimStart (String.rev (trimStart s))).

(** [s.endsWith(c)] for a one-character suffix. *)
Fixpoint endsWith (c : ascii) (s : string) : bool :=
  match s with
  | EmptyString => false
  | String d EmptyString => Ascii.eqb d c
  | String _ s' => endsWith c s'
  end.

(** Truthiness of a string: only the empty string is falsy. *)
Definition truthy (s : string) : bool := negb (String.eqb s "").

End JS.

(** ** The path normalizer *)

(** One turn of the loop of [_normalizePath] over [parts]. *)
Definition normalize_step (stack : list string) (part : string) : list string :=
  if String.eqb part "." || String.eqb part "" then stack
  else if String.eqb part ".." then
    (if (0 <? length stack)%nat then removelast stack else stack)
  else stack ++ [part].

Definition _normalizePath (filePath : string) : string :=
  let parts := JS.split "/" filePath in
  let stack := fold_left normalize_step parts [] in
  JS.join "/" stack.

(** A segment that may stand in a canonical path. *)
Definition canonical_segment (seg : string) : bool :=
  negb (String.eqb seg "") && negb (String.eqb seg ".")
  && negb (String.eqb seg "..").

(** A canonical path: every segment between slashes is a name. *)
Definition canonical (p : string) : bool :=
  forallb canonical_segment (JS.split "/" p).

(** ** Regular expressions of the host language

    A backtracking matcher for the pattern syntax the client uses:
    character sets, sequence, alternation, greedy and lazy repetition,
    capturing groups, negative lookahead and word boundaries. Priority
    among alternatives is the host's: leftmost alternative first, greedy
    repetition tries one more turn first, lazy repetition tries to stop
    first, and a turn of a repetition that consumes nothing is rejected. *)

Module RegExp.

Inductive regex : Type :=
| Eps
| Chr (p : ascii -> bool)
| Seq (r1 r2 : regex)
| Alt (r1 r2 : regex)
| Star (greedy : bool) (r : regex)
| Group (n : nat) (r : regex)
| NotAhead (r : regex)
| WordBoundary.

(** A position in the subject: index, the code unit before it, the text
    from it on, and the captures made so far (most recent first). *)
Record mstate := MState {
  pos : nat;
  prev : option ascii;
  rest : string;
  caps : list (nat * string)
}.

Definition is_word (c : ascii) : bool :=
  let n := nat_of_ascii c in
  ((48 <=? n) && (n <=? 57) || (65 <=? n) && (n <=? 90)
   || (97 <=? n) && (n <=? 122) || (n =? 95))%nat.

Definition is_word_opt (o : option ascii) : bool :=
  match o with Some c => is_word c | None => false end.

Definition next_char (s : mstate) : option ascii :=
  match rest s with EmptyString => None | String c _ => Some c end.

Definition set_cap (n : nat) (text : string) (s : mstate) : mstate :=
  MState (pos s) (prev s) (rest s) ((n, text) :: caps s).

(** The turns of a repetition whose body is matched by [body]: a greedy
    repetition tries one more turn before it stops, a lazy one stops
    before it tries one more turn; a turn that consumes nothing is
    rejected. Every accepted turn consumes a code unit, so the fuel
    [S (length (rest s))] that [m] gives is never used up (see
    [turns_fuel]). *)
Fixpoint turns (body : mstate -> (mstate -> option mstate) -> option mstate)
  (greedy : bool) (k : mstate -> option mstate) (fuel : nat) (s : mstate)
  : option mstate :=
  match fuel with
  | O => k s
  | S fuel' =>
      let again :=
        body s (fun s' =>
          if (pos s <? pos s')%nat then turns body greedy k fuel' s' else None) in
      if greedy then
        match again with Some e => Some e | None => k s end
      else
        match k s with Some e => Some e | None => again end
  end.

(** [m r s k]: match [r] at [s], then continue with [k]; [None] is
    failure, on which the caller backtracks. *)
Fixpoint m (r : regex) (s : mstate) (k : mstate -> option mstate)
  : option mstate :=
  match r with
  | Eps => k s
  | Chr p =>
      match rest s with
      | String c t =>
          if p c then k (MState (S (pos s)) (Some c) t (caps s)) else None
      | EmptyString => None
      end
  | Seq r1 r2 => m r1 s (fun s' => m r2 s' k)
  | Alt r1 r2 =>
      match m r1 s k with
      | Some e => Some e
      | None => m r2 s k
      end
  | Star greedy r1 => turns (m r1) greedy k (S (String.length (rest s))) s
  | Group n r1 =>
      m r1 s (fun s' =>
        k (set_cap n (JS.take (pos s' - pos s) (rest s)) s'))
  | NotAhead r1 =>
      match m r1 s Some with
      | Some _ => None
      | None => k s
      end
  | WordBoundary =>
      if xorb (is_word_opt (prev s)) (is_word_opt (next_char s))
      then k s else None
  end.

(** One successful match, as [exec] reports it. *)
Record rmatch := RMatch {
  index : nat;
  matched : string;
  groups : list (nat * string);
  lastIndex : nat;
  before_rest : option ascii;
  after : string
}.

(** [match[n]]: the text of group [n], [undefined] when it took no part. *)
Definition group (n : nat) (mt : rmatch) : option string :=
  snd <$> find (fun c => (fst c =? n)%nat) (groups mt).

(** Leftmost match at or after the position [(i, pv, text)]. *)
Fixpoint search_from (r : regex) (i : nat) (pv : option ascii) (text : string)
  : option rmatch :=
  match m r (MState i pv text []) Some with
  | Some e =>
      Some (RMatch i (JS.take (pos e - i) text) (caps e) (pos e) (prev e) (rest e))
  | None =>
      match text with
      | EmptyString => None
      | String c t => search_from r (S i) (Some c) t
      end
  end.

(** [s.match(r)] without the global flag: the first match in [s]. *)
Definition match_ (r : regex) (s : string) : option rmatch :=
  search_from r 0%nat None s.

(** The loop [while ((x = r.exec(s)) !== null)] of a global pattern: each
    search resumes at the [lastIndex] of the match before. *)
Fixpoint exec_loop (fuel : nat) (r : regex) (i : nat) (pv : option ascii)
  (text : string) : list rmatch :=
  match fuel with
  | O => []
  | S fuel' =>
      match search_from r i pv text with
      | None => []
      | Some mt =>
          mt :: exec_loop fuel' r (lastIndex mt) (before_rest mt) (after mt)
      end
  end.

Definition execAll (r : regex) (s : string) : list rmatch :=
  exec_loop (S (String.length s)) r 0%nat None s.

(** [s.replace(r, f)] for a global pattern: every match, left to right
    and without overlap, is replaced by [f match]; after an empty match
    the scan steps over one code unit. *)
Fixpoint replace_loop (fuel : nat) (r : regex) (f : rmatch -> string)
  (i : nat) (pv : option ascii) (text : string) : string :=
  match fuel with
  | O => text
  | S fuel' =>
      match search_from r i pv text with
      | None => text
      | Some mt =>
          let skipped := JS.take (index mt - i) text in
          let out := skipped +:+ f mt in
          if (index mt <? lastIndex mt)%nat then
            out +:+ replace_loop fuel' r f (lastIndex mt) (before_rest mt) (after mt)
          else
            match after mt with
            | EmptyString => out
            | String c t =>
                out +:+ String c (replace_loop fuel' r f (S (lastIndex mt)) (Some c) t)
            end
      end
  end.

Definition replaceAll (r : regex) (f : rmatch -> string) (s : string) : string :=
  replace_loop (S (String.length s)) r f 0%nat None s.

(** *** Pattern combinators, named after the syntax they stand for *)

Definition seqs (l : list regex) : regex := fold_right Seq Eps l.

Definition ch (c : ascii) : regex := Chr (Ascii.eqb c).

(** A literal under the [i] flag: code units are compared after
    canonicalisation to upper case. *)
Definition ch_i (c : ascii) : regex :=
  Chr (fun x => Ascii.eqb (JS.upper_ascii x) (JS.upper_ascii c)).

Fixpoint lit (s : string) : regex :=
  match s with
  | EmptyString => Eps
  | String c s' => Seq (ch c) (lit s')
  end.

Fixpoint lit_i (s : string) : regex :=
  match s with
  | EmptyString => Eps
  | String c s' => Seq (ch_i c) (lit_i s')
  end.

(** [[^c]] *)
Definition not_ch (c : ascii) : regex := Chr (fun x => negb (Ascii.eqb x c)).
(** [\s] *)
Definition space : regex := Chr JS.is_space.
(** [[\s\S]] *)
Definition any : regex := Chr (fun _ => true).
(** [.]: any code unit but a line terminator *)
Definition dot : regex :=
  Chr (fun x => negb (Ascii.eqb x "010" || Ascii.eqb x "013")).
(** [[a-b]] *)
Definition range (a b : ascii) : regex :=
  Chr (fun x => (nat_of_ascii a <=? nat_of_ascii x)%nat
                && (nat_of_ascii x <=? nat_of_ascii b)%nat).

Definition star (r : regex) : regex := Star true r.
Definition lazy_star (r : regex) : regex := Star false r.
Definition plus (r : regex) : regex := Seq r (Star true r).
Definition opt (r : regex) : regex := Alt r Eps.

(** Patterns that consume at least one code unit whenever they match. *)
Fixpoint consuming (r : regex) : bool :=
  match r with
  | Eps | Star _ _ | NotAhead _ | WordBoundary => false
  | Chr _ => true
  | Seq r1 r2 => consuming r1 || consuming r2
  | Alt r1 r2 => consuming r1 && consuming r2
  | Group _ r1 => consuming r1
  end.

End RegExp.

(** ** Errors, archive events and the monad of the client *)

Record Exn := MkExn { exn_name : string; exn_message : string }.

Definition Error (message : string) : Exn := MkExn "Error" message.
Definition TypeError (message : string) : Exn := MkExn "TypeError" message.

Inductive outcome (A : Type) : Type :=
| Return (a : A)
| Throw (e : Exn).
Arguments Return {A} a.
Arguments Throw {A} e.

(** What a call does to archive handles, in order. A handle is numbered
    by the count of handles opened before it. *)
Inductive Event : Type :=
| EvOpen (handle : nat)
| EvGetEntries (handle : nat)
| EvGetData (filename : string)
| EvClose (handle : nat).

Definition is_open (ev : Event) : bool :=
  match ev with EvOpen _ => true | _ => false end.

Definition is_close_of (h : nat) (ev : Event) : bool :=
  match ev with EvClose h' => (h' =? h)%nat | _ => false end.

Definition M (A : Type) : Type := list Event -> outcome A * list Event.

Definition ret {A} (a : A) : M A := fun tr => (Return a, tr).
Definition throw {A} (e : Exn) : M A := fun tr => (Throw e, tr).
Definition bind {A B} (c : M A) (f : A -> M B) : M B :=
  fun tr =>
    match c tr with
    | (Return a, tr') => f a tr'
    | (Throw e, tr') => (Throw e, tr')
    end.
Definition emit (ev : Event) : M unit := fun tr => (Return tt, tr ++ [ev]).
Definition lift {A} (o : outcome A) : M A := fun tr => (o, tr).

Notation "x <- c ;; k" := (bind c (fun x => k))
  (at level 100, c at next level, right associativity).
Notation "c ;;; k" := (bind c (fun _ => k))
  (at level 100, right associativity).

(** How often handle [h] was closed in a trace, and how many handles a
    trace opened. *)
Definition closes (h : nat) (tr : list Event) : nat :=
  length (List.filter (is_close_of h) tr).
Definition opens (tr : list Event) : nat :=
  length (List.filter is_open tr).

(** ** The zip archive, as the reader library presents it *)

(** An entry: [data] is [None] for an entry object without the
    [getData] member, which is what the accessors test; otherwise it is
    what [getData] resolves to or rejects with. The reader library gives
    every entry the member, a directory too, whose data is empty. *)
Record Entry := MkEntry {
  filename : string;
  data : option (outcome string)
}.

(** The downloaded bytes, by what [getEntries] makes of them. *)
Record ArrayBuffer := MkBuffer { zip_entries : outcome (list Entry) }.

Definition ZipReader_new (buffer : ArrayBuffer) : M nat :=
  fun tr => let h := opens tr in (Return h, tr ++ [EvOpen h]).

Definition reader_getEntries (buffer : ArrayBuffer) (reader : nat)
  : M (list Entry) :=
  emit (EvGetEntries reader) ;;; lift (zip_entries buffer).

Definition reader_close (reader : nat) : M unit := emit (EvClose reader).

(** [entries.find(e => e.filename === name)] *)
Definition find_entry (entries : list Entry) (name : string) : option Entry :=
  find (fun e => String.eqb (filename e) name) entries.

(** [await entry.getData(writer)] for an entry known to have the member. *)
Definition getData (e : Entry) (d : outcome string) : M string :=
  emit (EvGetData (filename e)) ;;; lift d.

(** ** Host functions the client calls with computed arguments

    [RegExp_new source] is [new RegExp(source)]: a pattern or a thrown
    SyntaxError. [decodeURIComponent] throws a URIError on a malformed
    escape. The client is parametric in both. *)
Class Host := {
  RegExp_new : string -> outcome RegExp.regex;
  decodeURIComponent : string -> outcome string
}.

(** ** The client *)

(** The upstream content server, by the archive it serves for a book:
    [getEpubBuffer] either resolves to the bytes or rejects. *)
Record CalibreClient := MkClient {
  upstream : string -> Z -> outcome ArrayBuffer
}.

Definition getEpubBuffer (this : CalibreClient) (libraryId : string)
  (bookId : Z) : M ArrayBuffer :=
  lift (upstream this libraryId bookId).

Definition getEpubContents (this : CalibreClient) (libraryId : string)
  (bookId : Z) : M (list string) :=
  buffer <- getEpubBuffer this libraryId bookId ;;
  reader <- ZipReader_new buffer ;;
  entries <- reader_getEntries buffer reader ;;
  reader_close reader ;;;
  ret (map filename entries).

(** [responseType] only selects the writer; both writers are modelled by
    the entry's data. *)
Definition getEpubFile (this : CalibreClient) (libraryId : string)
  (bookId : Z) (filePath : string) : M string :=
  buffer <- getEpubBuffer this libraryId bookId ;;
  reader <- ZipReader_new buffer ;;
  entries <- reader_getEntries buffer reader ;;
  match find_entry entries filePath with
  | Some (MkEntry _ (Some d) as file) =>
      result <- getData file d ;;
      reader_close reader ;;;
      ret result
  | _ =>
      reader_close reader ;;;
      throw (Error ("File " +:+ filePath +:+ " not found or is a directory in EPUB"))
  end.

Definition getChapterContent (this : CalibreClient) (libraryId : string)
  (bookId : Z) (chapterPath : string) : M string :=
  getEpubFile this libraryId bookId chapterPath.

(** *** Values read from the manifest object *)

(** The double quote. *)
Definition dq : ascii := "034"%char.

(** [manifest] is an object literal used as a dictionary, so reading a
    key that is not its own falls through to [Object.prototype]. A value
    read from it is a string it owns or an inherited member (a
    function). *)
Inductive jsval : Type :=
| VString (s : string)
| VInherited (key : string).

(** The member names of [Object.prototype]. The runtime deletes the
    [__proto__] accessor when it starts, so that name is a key like any
    other. *)
Definition Object_prototype_keys : list string :=
  [ "constructor"; "__defineGetter__"; "__defineSetter__"; "hasOwnProperty";
    "__lookupGetter__"; "__lookupSetter__"; "isPrototypeOf";
    "propertyIsEnumerable"; "toString"; "valueOf"; "toLocaleString" ].

Definition inherited (key : string) : bool :=
  existsb (String.eqb key) Object_prototype_keys.

(** [manifest[id] = value]: the key becomes, or overwrites, an own
    property (the inherited members are writable data properties). *)
Definition manifest_set (manifest : gmap string string) (id value : string)
  : gmap string string :=
  <[id := value]> manifest.

(** [manifest[idref]], [None] standing for [undefined]. *)
Definition manifest_get (manifest : gmap string string) (idref : string)
  : option jsval :=
  match manifest !! idref with
  | Some p => Some (VString p)
  | None => if inherited idref then Some (VInherited idref) else None
  end.

Definition truthy_val (v : option jsval) : bool :=
  match v with
  | Some (VString s) => JS.truthy s
  | Some (VInherited _) => true
  | None => false
  end.

(** [a || b] on optional strings. *)
Definition js_or (a b : option string) : option string :=
  match a with
  | Some s => if JS.truthy s then a else b
  | None => b
  end.

(** A possibly undefined string where a string is expected (template
    literal, concatenation, property key). *)
Definition to_string (o : option string) : string := default "undefined" o.

Record Chapter := MkChapter { title : string; path : string }.

(** Entries of the table of contents have the shape of chapters. *)
Abbreviation TocEntry := Chapter.

(** *** The patterns of [getChapters] and [getTOCFromEntries] *)

Module Patterns.
Import RegExp.

(** ['...'] with a captured, non-empty body: ['([^']+)'] *)
Definition quoted (n : nat) : regex :=
  seqs [ch dq; Group n (plus (not_ch dq)); ch dq].

(** [\s*=\s*] *)
Definition eq_sign : regex := seqs [star space; ch "="; star space].

(** [/full-path='([^']+)'/] *)
Definition fullPath : regex := seqs [lit "full-path="; quoted 1].

(** [/<item\s+[^>]*href\s*=\s*'([^']+)'[^>]*id\s*=\s*'([^']+)'|<item\s+[^>]*id\s*=\s*'([^']+)'[^>]*href\s*=\s*'([^']+)'/gi] *)
Definition itemRegex : regex :=
  Alt (seqs [lit_i "<item"; plus space; star (not_ch ">"); lit_i "href"; eq_sign;
             quoted 1; star (not_ch ">"); lit_i "id"; eq_sign; quoted 2])
      (seqs [lit_i "<item"; plus space; star (not_ch ">"); lit_i "id"; eq_sign;
             quoted 3; star (not_ch ">"); lit_i "href"; eq_sign; quoted 4]).

(** [/<itemref\s+[^>]*idref\s*=\s*'([^']+)'/gi] *)
Definition spineRegex : regex :=
  seqs [lit_i "<itemref"; plus space; star (not_ch ">"); lit_i "idref"; eq_sign;
        quoted 1].

(** [media-type='application\/x-dtbncx\+xml'] under the [i] flag *)
Definition ncxMediaType : regex :=
  seqs [lit_i "media-type="; ch dq; lit_i "application/x-dtbncx+xml"; ch dq].

(** [/id='([^']+)'[^>]+media-type='application\/x-dtbncx\+xml'/i] *)
Definition ncxIdFirst : regex :=
  seqs [lit_i "id="; quoted 1; plus (not_ch ">"); ncxMediaType].

(** [/media-type='application\/x-dtbncx\+xml'[^>]+id='([^']+)'/i] *)
Definition ncxIdLast : regex :=
  seqs [ncxMediaType; plus (not_ch ">"); lit_i "id="; quoted 1].

(** [/<navPoint[^>]*>[\s\S]*?<navLabel>[\s\S]*?<text>([\s\S]*?)<\/text>[\s\S]*?<\/navLabel>[\s\S]*?<content src='([^']+)'/g] *)
Definition navPointRegex : regex :=
  seqs [lit "<navPoint"; star (not_ch ">"); ch ">"; lazy_star any;
        lit "<navLabel>"; lazy_star any; lit "<text>";
        Group 1 (lazy_star any); lit "</text>"; lazy_star any;
        lit "</navLabel>"; lazy_star any; lit "<content src="; quoted 2].

(** [properties='[^']*nav[^']*'] under the [i] flag *)
Definition navProperty : regex :=
  seqs [lit_i "properties="; ch dq; star (not_ch dq); lit_i "nav";
        star (not_ch dq); ch dq].

(** [/properties='[^']*nav[^']*'[^>]+href='([^']+)'/i] *)
Definition navPropertyFirst : regex :=
  seqs [navProperty; plus (not_ch ">"); lit_i "href="; quoted 1].

(** [/href='([^']+)'[^>]+properties='[^']*nav[^']*'/i] *)
Definition navPropertyLast : regex :=
  seqs [lit_i "href="; quoted 1; plus (not_ch ">"); navProperty].

(** [/<a[^>]+href='([^']+)'[^>]*>([\s\S]*?)<\/a>/g] *)
Definition linkRegex : regex :=
  seqs [lit "<a"; plus (not_ch ">"); lit "href="; quoted 1; star (not_ch ">");
        ch ">"; Group 2 (lazy_star any); lit "</a>"].

(** [/<[^>]+>/g] *)
Definition tag : regex := seqs [ch "<"; plus (not_ch ">"); ch ">"].

End Patterns.

(** [s.replace(/<[^>]+>/g, '')] *)
Definition strip_tags (s : string) : string :=
  RegExp.replaceAll Patterns.tag (fun _ => "") s.

(** [if (href.includes('#')) href = href.split('#')[0]] *)
Definition strip_fragment (href : string) : string :=
  if JS.includes "#" href then hd "" (JS.split "#" href) else href.

(** [if (!toc.find(t => t.path === fullPath)) toc.push({title, path})] *)
Definition toc_push_new (toc : list TocEntry) (label fullPath : string)
  : list TocEntry :=
  match find (fun t => String.eqb (path t) fullPath) toc with
  | Some _ => toc
  | None => toc ++ [MkChapter label fullPath]
  end.

(** The body of the [navPoint] loop (lines 602-608). *)
Definition ncx_step (opfDir : string) (toc : list TocEntry)
  (mt : RegExp.rmatch) : list TocEntry :=
  let label := JS.trim (to_string (RegExp.group 1 mt)) in
  let href := strip_fragment (to_string (RegExp.group 2 mt)) in
  let fullPath := _normalizePath (opfDir +:+ href) in
  toc_push_new toc label fullPath.

(** The body of the link loop (lines 625-631). *)
Definition nav_step (opfDir : string) (toc : list TocEntry)
  (mt : RegExp.rmatch) : list TocEntry :=
  let href := strip_fragment (to_string (RegExp.group 1 mt)) in
  let fullPath := _normalizePath (opfDir +:+ href) in
  let label := JS.trim (strip_tags (to_string (RegExp.group 2 mt))) in
  toc_push_new toc label fullPath.

(** [a || b] where [b] is only evaluated when [a] is [null]. *)
Definition or_else {A} (a : M (option A)) (b : M (option A)) : M (option A) :=
  x <- a ;; match x with Some _ => ret x | None => b end.

Section Client.
Context {host : Host}.

(** [opfXml.match(new RegExp(source))] *)
Definition match_dynamic (source subject : string) : M (option RegExp.rmatch) :=
  re <- lift (RegExp_new source) ;;
  ret (RegExp.match_ re subject).

(** Lines 590-612: the navigation-control document named by the manifest
    item of media type [application/x-dtbncx+xml]. *)
Definition legacy_tier (entries : list Entry) (opfXml opfDir : string)
  : M (list TocEntry) :=
  match
    match RegExp.match_ Patterns.ncxIdFirst opfXml with
    | Some mt => Some mt
    | None => RegExp.match_ Patterns.ncxIdLast opfXml
    end
  with
  | Some ncxMatch =>
      let ncxId := to_string (RegExp.group 1 ncxMatch) in
      let q := String dq "" in
      ncxHrefMatch <-
        or_else
          (match_dynamic
             ("id=" +:+ q +:+ ncxId +:+ q +:+ "[^>]+href=" +:+ q +:+ "([^"
              +:+ q +:+ "]+)" +:+ q) opfXml)
          (match_dynamic
             ("href=" +:+ q +:+ "([^" +:+ q +:+ "]+)" +:+ q +:+ "[^>]+id="
              +:+ q +:+ ncxId +:+ q) opfXml) ;;
      match ncxHrefMatch with
      | Some hm =>
          let ncxPath := opfDir +:+ to_string (RegExp.group 1 hm) in
          match find_entry entries ncxPath with
          | Some (MkEntry _ (Some d) as ncxEntry) =>
              ncxXml <- getData ncxEntry d ;;
              ret (fold_left (ncx_step opfDir)
                     (RegExp.execAll Patterns.navPointRegex ncxXml) [])
          | _ => ret []
          end
      | None => ret []
      end
  | None => ret []
  end.

(** Lines 615-634: the navigation document named by the manifest item
    whose [properties] contain [nav]. *)
Definition modern_tier (entries : list Entry) (opfXml opfDir : string)
  : M (list TocEntry) :=
  match
    match RegExp.match_ Patterns.navPropertyFirst opfXml with
    | Some mt => Some mt
    | None => RegExp.match_ Patterns.navPropertyLast opfXml
    end
  with
  | Some navMatch =>
      let navPath := _normalizePath (opfDir +:+ to_string (RegExp.group 1 navMatch)) in
      match find_entry entries navPath with
      | Some (MkEntry _ (Some d) as navEntry) =>
          navXml <- getData navEntry d ;;
          ret (fold_left (nav_step opfDir)
                 (RegExp.execAll Patterns.linkRegex navXml) [])
      | _ => ret []
      end
  | None => ret []
  end.

Definition getTOCFromEntries (entries : list Entry) (opfXml opfDir : string)
  : M (list TocEntry) :=
  toc <- legacy_tier entries opfXml opfDir ;;
  if (length toc =? 0)%nat then modern_tier entries opfXml opfDir
  else ret toc.

(** Lines 551-560: the manifest object. *)
Definition manifest_step (opfDir : string) (manifest : gmap string string)
  (itemMatch : RegExp.rmatch) : gmap string string :=
  let id := js_or (RegExp.group 2 itemMatch) (RegExp.group 3 itemMatch) in
  let href := js_or (RegExp.group 1 itemMatch) (RegExp.group 4 itemMatch) in
  let decodedHref :=
    match decodeURIComponent (to_string href) with
    | Return d => d
    | Throw _ => to_string href
    end in
  manifest_set manifest (to_string id) (_normalizePath (opfDir +:+ decodedHref)).

Definition build_manifest (opfXml opfDir : string) : gmap string string :=
  fold_left (manifest_step opfDir) (RegExp.execAll Patterns.itemRegex opfXml) ∅.

(** Lines 562-570: the spine array. *)
Definition spine_step (manifest : gmap string string) (spine : list jsval)
  (spineMatch : RegExp.rmatch) : list jsval :=
  let idref := to_string (RegExp.group 1 spineMatch) in
  if truthy_val (manifest_get manifest idref) then
    match manifest_get manifest idref with
    | Some v => spine ++ [v]
    | None => spine
    end
  else spine.

Definition build_spine (manifest : gmap string string) (opfXml : string)
  : list jsval :=
  fold_left (spine_step manifest) (RegExp.execAll Patterns.spineRegex opfXml) [].

(** [path.split('/').pop()]: [split] never returns the empty array. *)
Definition last_segment (p : string) : string :=
  default "" (JS.pop_value (JS.split "/" p)).

(** The callback of [spine.map] (lines 573-579). [t.path === path] is
    false for every entry when [path] is not a string, and [path.split]
    is then not a function. *)
Definition chapter_of (toc : list TocEntry) (v : jsval) : outcome Chapter :=
  match v with
  | VString p =>
      match find (fun t => String.eqb (path t) p) toc with
      | Some tocEntry => Return (MkChapter (title tocEntry) p)
      | None => Return (MkChapter (last_segment p) p)
      end
  | VInherited _ => Throw (TypeError "path.split is not a function")
  end.

Fixpoint map_chapters (toc : list TocEntry) (spine : list jsval)
  : outcome (list Chapter) :=
  match spine with
  | [] => Return []
  | v :: spine' =>
      match chapter_of toc v with
      | Throw e => Throw e
      | Return c =>
          match map_chapters toc spine' with
          | Throw e => Throw e
          | Return cs => Return (c :: cs)
          end
      end
  end.

(** [opfPath.includes('/') ? opfPath.substring(0, opfPath.lastIndexOf('/') + 1) : ''] *)
Definition opfDir_of (opfPath : string) : string :=
  if JS.includes "/" opfPath
  then JS.substring opfPath 0 (JS.lastIndexOf opfPath "/" + 1)
  else "".

Definition getChapters (this : CalibreClient) (libraryId : string) (bookId : Z)
  : M (list Chapter) :=
  buffer <- getEpubBuffer this libraryId bookId ;;
  reader <- ZipReader_new buffer ;;
  entries <- reader_getEntries buffer reader ;;
  match find_entry entries "META-INF/container.xml" with
  | Some (MkEntry _ (Some d) as containerEntry) =>
      containerXml <- getData containerEntry d ;;
      match RegExp.match_ Patterns.fullPath containerXml with
      | None =>
          reader_close reader ;;;
          throw (Error "Could not find root file in container.xml")
      | Some fullPathMatch =>
          let opfPath := to_string (RegExp.group 1 fullPathMatch) in
          let opfDir := opfDir_of opfPath in
          match find_entry entries opfPath with
          | Some (MkEntry _ (Some d') as opfEntry) =>
              opfXml <- getData opfEntry d' ;;
              let manifest := build_manifest opfXml opfDir in
              let spine := build_spine manifest opfXml in
              toc <- getTOCFromEntries entries opfXml opfDir ;;
              chapters <- lift (map_chapters toc spine) ;;
              reader_close reader ;;;
              ret chapters
          | _ =>
              reader_close reader ;;;
              throw (Error ("Could not find OPF file at " +:+ opfPath
                            +:+ " or it is a directory"))
          end
      end
  | _ =>
      reader_close reader ;;;
      throw (Error "EPUB missing META-INF/container.xml or it is a directory")
  end.

End Client.

(** *** The markup-to-text converter *)

Module Markup.
Import RegExp.

(** [<name[^>]*>(.*?)<\/name>] under the [gi] flags *)
Definition element (name : string) : regex :=
  seqs [ch "<"; lit_i name; star (not_ch ">"); ch ">"; Group 1 (lazy_star dot);
        lit_i "</"; lit_i name; ch ">"].

(** [/<body[^>]*>([\s\S]*?)<\/body>/i] *)
Definition body : regex :=
  seqs [lit_i "<body"; star (not_ch ">"); ch ">"; Group 1 (lazy_star any);
        lit_i "</body>"].

(** The pattern of [script] and [style] blocks, under the [gi] flags:
    [<name\b[^<]*], then any number of turns of [(?!<\/name>)<[^<]*],
    then [<\/name>]. *)
Definition block (name : string) : regex :=
  seqs [ch "<"; lit_i name; WordBoundary; star (not_ch "<");
        star (seqs [NotAhead (seqs [lit_i "</"; lit_i name; ch ">"]); ch "<";
                    star (not_ch "<")]);
        lit_i "</"; lit_i name; ch ">"].

(** [/<h[1-6][^>]*>(.*?)<\/h[1-6]>/gi] *)
Definition heading : regex :=
  seqs [ch "<"; ch_i "h"; range "1" "6"; star (not_ch ">"); ch ">";
        Group 1 (lazy_star dot); lit_i "</h"; range "1" "6"; ch ">"].

(** [/<br\s*\/?>/gi] *)
Definition br : regex := seqs [lit_i "<br"; star space; opt (ch "/"); ch ">"].

End Markup.

(** The line feed. *)
Definition nl : string := String "010" "".

(** The first group of a match, as [$1] or a callback argument. *)
Definition p1 (mt : RegExp.rmatch) : string := to_string (RegExp.group 1 mt).

Definition htmlToMarkdown (html : string) : string :=
  if negb (JS.truthy html) then ""
  else
    let cleanHtml :=
      match RegExp.match_ Markup.body html with
      | Some bodyMatch => p1 bodyMatch
      | None => html
      end in
    let cleanHtml := RegExp.replaceAll (Markup.block "script") (fun _ => "") cleanHtml in
    let cleanHtml := RegExp.replaceAll (Markup.block "style") (fun _ => "") cleanHtml in
    let markdown := cleanHtml in
    let markdown := RegExp.replaceAll Markup.heading
      (fun mt => nl +:+ "## " +:+ strip_tags (p1 mt) +:+ nl) markdown in
    let markdown := RegExp.replaceAll (Markup.element "p")
      (fun mt => nl +:+ strip_tags (p1 mt) +:+ nl) markdown in
    let markdown := RegExp.replaceAll Markup.br (fun _ => nl) markdown in
    let markdown := RegExp.replaceAll (Markup.element "strong")
      (fun mt => "**" +:+ p1 mt +:+ "**") markdown in
    let markdown := RegExp.replaceAll (Markup.element "b")
      (fun mt => "**" +:+ p1 mt +:+ "**") markdown in
    let markdown := RegExp.replaceAll (Markup.element "em")
      (fun mt => "*" +:+ p1 mt +:+ "*") markdown in
    let markdown := RegExp.replaceAll (Markup.element "i")
      (fun mt => "*" +:+ p1 mt +:+ "*") markdown in
    let markdown := RegExp.replaceAll (Markup.element "li")
      (fun mt => "* " +:+ p1 mt +:+ nl) markdown in
    let markdown := RegExp.replaceAll (Markup.element "blockquote")
      (fun mt => "> " +:+ p1 mt +:+ nl) markdown in
    let markdown := strip_tags markdown in
    let markdown := RegExp.replaceAll (RegExp.lit "&nbsp;") (fun _ => " ") markdown in
    let markdown := RegExp.replaceAll (RegExp.lit "&amp;") (fun _ => "&") markdown in
    let markdown := RegExp.replaceAll (RegExp.lit "&lt;") (fun _ => "<") markdown in
    let markdown := RegExp.replaceAll (RegExp.lit "&gt;") (fun _ => ">") markdown in
    let markdown := RegExp.replaceAll (RegExp.lit "&quot;") (fun _ => String dq "") markdown in
    JS.trim markdown.

Definition getChapterContentMarkdown (this : CalibreClient) (libraryId : string)
  (bookId : Z) (chapterPath : string) : M string :=
  html <- getChapterContent this libraryId bookId chapterPath ;;
  ret (htmlToMarkdown html).

(** *** Search in a book *)

Record SearchHit := MkHit {
  chapterTitle : string;
  chapterPath : string;
  markdownOffset : Z;
  snippet : string
}.

(** The body of the [while] loop of [searchInBook] (lines 694-703). *)
Definition hit_at (chapter : Chapter) (markdownContent query : string)
  (index : Z) : SearchHit :=
  let snippetWindow := 200 in
  let start := Z.max 0 (index - snippetWindow) in
  let end_ := Z.min (JS.len markdownContent) (index + JS.len query + snippetWindow) in
  MkHit (title chapter) (path chapter) index (JS.substring markdownContent start end_).

(** The [while] loop over one chapter (lines 692-706). Every turn pushes
    one hit and the loop is left at 50 hits, so 50 turns of fuel are
    never used up (see [scan_fuel]). *)
Fixpoint scan (fuel : nat) (chapter : Chapter)
  (markdownContent lowerMarkdown query lowerQuery : string)
  (index : Z) (results : list SearchHit) : list SearchHit :=
  match fuel with
  | O => results
  | S fuel' =>
      let index' := JS.indexOf lowerMarkdown lowerQuery (index + 1) in
      if index' =? -1 then results
      else
        let results' := results ++ [hit_at chapter markdownContent query index'] in
        if (50 <=? length results')%nat then results'
        else scan fuel' chapter markdownContent lowerMarkdown query lowerQuery
               index' results'
  end.

(** The hits of one chapter added to [results]. *)
Definition scan_chapter (chapter : Chapter) (content query : string)
  (results : list SearchHit) : list SearchHit :=
  let lowerQuery := JS.toLowerCase query in
  let markdownContent := htmlToMarkdown content in
  let lowerMarkdown := JS.toLowerCase markdownContent in
  scan 50 chapter markdownContent lowerMarkdown query lowerQuery (-1) results.

(** The [for] loop over the chapters (lines 687-708). *)
Fixpoint search_chapters (this : CalibreClient) (libraryId : string)
  (bookId : Z) (query : string) (chapters : list Chapter)
  (results : list SearchHit) : M (list SearchHit) :=
  match chapters with
  | [] => ret results
  | chapter :: more =>
      content <- getChapterContent this libraryId bookId (path chapter) ;;
      let results' := scan_chapter chapter content query results in
      if (50 <=? length results')%nat then ret results'
      else search_chapters this libraryId bookId query more results'
  end.

Definition searchInBook {host : Host} (this : CalibreClient)
  (libraryId : string) (bookId : Z) (query : string) : M (list SearchHit) :=
  chapters <- getChapters this libraryId bookId ;;
  search_chapters this libraryId bookId query chapters [].

(** *** The chunked reader of the [get_chapter_content_markdown] tool *)

(** A number in a template literal: the decimal digits of an integer,
    as the code prints every integer below 10^21 that a double holds
    exactly. *)
Definition number_to_string (n : Z) : string :=
  NilZero.string_of_int (Z.to_int n).

Definition truncation_marker (next : Z) : string :=
  nl +:+ nl +:+ "... (truncated, use offset " +:+ number_to_string next
  +:+ " to read more)".

(** Lines 282-286, on the converted text of the chapter. *)
Definition read_chunk (content : string) (offset length : Z) : string :=
  let totalLength := JS.len content in
  let content' := JS.substring content offset (offset + length) in
  if offset + length <? totalLength
  then content' +:+ truncation_marker (offset + length)
  else content'.

(** The tool handler; [offset] and [length] default to 0 and 30000. *)
Definition get_chapter_content_markdown (this : CalibreClient)
  (libraryId : string) (bookId : Z) (path : string)
  (offset length : option Z) : M string :=
  let offset := default 0 offset in
  let length := default 30000 length in
  content <- getChapterContentMarkdown this libraryId bookId path ;;
  ret (read_chunk content offset length).

(** ** Vocabulary of the statements *)

(** What the stack of [_normalizePath] holds: names without a slash. *)
Definition name_segment (seg : string) : Prop :=
  canonical_segment seg = true ∧ JS.includes "/" seg = false.

(** The stack [_normalizePath] ends with. *)
Definition final_stack (filePath : string) : list string :=
  fold_left normalize_step (JS.split "/" filePath) [].

(** [seg] is what follows the last slash of [p] (all of [p] without one). *)
Definition final_segment_of (p seg : string) : Prop :=
  JS.includes "/" seg = false ∧ (p = seg ∨ ∃ pre, p = pre +:+ "/" +:+ seg).

(** The title of [c] is that of the first entry of [toc] with its path,
    or its final path segment when no entry has its path. *)
Definition titled_by (toc : list TocEntry) (c : Chapter) : Prop :=
  (∃ i t, toc !! i = Some t ∧ path t = path c ∧ title c = title t ∧
          ∀ j t', (j < i)%nat → toc !! j = Some t' → path t' ≠ path c)
  ∨ ((∀ t, t ∈ toc → path t ≠ path c) ∧ final_segment_of (path c) (title c)).

(** The path a navigation href stands for. *)
Definition resolve_href (opfDir href : string) : string :=
  _normalizePath (opfDir +:+ strip_fragment href).

(** [toc] holds the (label, href) pairs [cands] of a navigation
    document, resolved, the first pair of each path only. *)
Definition tier_entries (opfDir : string) (cands : list (string * string))
  (toc : list TocEntry) : Prop :=
  NoDup (path <$> toc) ∧
  ∀ t, t ∈ toc ↔
    ∃ i label href, cands !! i = Some (label, href) ∧
      t = MkChapter label (resolve_href opfDir href) ∧
      ∀ j label' href', (j < i)%nat → cands !! j = Some (label', href') →
        resolve_href opfDir href' ≠ path t.

(** The (label, href) pairs of a navigation-control document. *)
Definition ncx_pairs (ncxXml : string) : list (string * string) :=
  map (fun mt => (JS.trim (to_string (RegExp.group 1 mt)),
                  to_string (RegExp.group 2 mt)))
      (RegExp.execAll Patterns.navPointRegex ncxXml).

(** The (label, href) pairs of a navigation document. *)
Definition nav_pairs (navXml : string) : list (string * string) :=
  map (fun mt => (JS.trim (strip_tags (to_string (RegExp.group 2 mt))),
                  to_string (RegExp.group 1 mt)))
      (RegExp.execAll Patterns.linkRegex navXml).

(** The identifiers the spine refers to, in document order. *)
Definition spine_idrefs (opfXml : string) : list string :=
  map (fun mt => to_string (RegExp.group 1 mt))
      (RegExp.execAll Patterns.spineRegex opfXml).

(** What a spine reference contributes: the value read from the
    manifest when it is truthy. *)
Definition resolved (manifest : gmap string string) (idref : string)
  : option jsval :=
  let v := manifest_get manifest idref in
  if truthy_val v then v else None.

(** Every index at or after [pos] where [q] occurs, [s] being the text
    from [pos] on; in ascending order. *)
Fixpoint occurrences_from (q s : string) (pos : Z) : list Z :=
  (if JS.startsWith q s then [pos] else [])
  ++ match s with
     | EmptyString => []
     | String _ s' => occurrences_from q s' (pos + 1)
     end.

(** Every index of [text] where [q] occurs. *)
Definition occurrences (text q : string) : list Z := occurrences_from q text 0.

(** The archive served for the book has a readable entry at [p]. *)
Definition resolves (this : CalibreClient) (libraryId : string) (bookId : Z)
  (p : string) : Prop :=
  ∃ buffer entries name text,
    upstream this libraryId bookId = Return buffer ∧
    zip_entries buffer = Return entries ∧
    find_entry entries p = Some (MkEntry name (Some (Return text))).

(** [s'] is a position of the subject of [s], at or after it. *)
Definition advance (s s' : RegExp.mstate) : Prop :=
  (RegExp.pos s ≤ RegExp.pos s')%nat ∧
  (String.length (RegExp.rest s') + RegExp.pos s'
   = String.length (RegExp.rest s) + RegExp.pos s)%nat.

(** [entries], [opfXml] and [opfDir] are the entries of the archive
    served for the book, the text of the package document its
    container pointer names, and the directory of that document. *)
Definition package_of (this : CalibreClient) (libraryId : string) (bookId : Z)
  (entries : list Entry) (opfXml opfDir : string) : Prop :=
  ∃ buffer cname containerXml fullPathMatch oname,
    upstream this libraryId bookId = Return buffer ∧
    zip_entries buffer = Return entries ∧
    find_entry entries "META-INF/container.xml"
      = Some (MkEntry cname (Some (Return containerXml))) ∧
    RegExp.match_ Patterns.fullPath containerXml = Some fullPathMatch ∧
    find_entry entries (to_string (RegExp.group 1 fullPathMatch))
      = Some (MkEntry oname (Some (Return opfXml))) ∧
    opfDir = opfDir_of (to_string (RegExp.group 1 fullPathMatch)).

(** Each offset of [offs] is where the forward search that starts one
    code unit after the offset before it ([index] for the first) finds
    [lq] in [lmd]. *)
Fixpoint chained (lmd lq : string) (index : Z) (offs : list Z) : Prop :=
  match offs with
  | [] => True
  | i :: offs' =>
      i = JS.indexOf lmd lq (index + 1) ∧ i ≠ -1 ∧ chained lmd lq i offs'
  end.

(** ** A host for running the client on sample archives

    [RegExp_basic] reads the pattern syntax that the sources built by
    [legacy_tier] use when the spliced identifier is plain: literals,
    escaped characters, [.], character sets with ranges, groups,
    alternation and the repetitions [*], [+], [?] with their lazy forms.
    Anything else is refused: an unterminated group or a dangling
    repetition, which the constructor of the language refuses as well,
    and also braces, which it accepts, so the host is for identifiers
    without braces. [decodeURIComponent_basic] decodes percent escapes
    and refuses escapes that are not UTF-8; a sequence for a code point
    below 256 gives that code unit, and one for a code point beyond,
    which the strings here do not hold, is kept as its octets. *)

Module BasicHost.
Import RegExp.

Definition parsed : Type := option (regex * string * nat).

(** A repetition suffix after the atom [a]. *)
Definition quantify (a : regex) (s : string) : regex * string :=
  match s with
  | String "*" (String "?" s') => (Star false a, s')
  | String "*" s' => (Star true a, s')
  | String "+" (String "?" s') => (Seq a (Star false a), s')
  | String "+" s' => (Seq a (Star true a), s')
  | String "?" (String "?" s') => (Alt Eps a, s')
  | String "?" s' => (Alt a Eps, s')
  | _ => (a, s)
  end.

Definition escape_set (c : ascii) : ascii -> bool :=
  if Ascii.eqb c "s" then JS.is_space
  else if Ascii.eqb c "S" then (fun x => negb (JS.is_space x))
  else if Ascii.eqb c "w" then is_word
  else if Ascii.eqb c "W" then (fun x => negb (is_word x))
  else if Ascii.eqb c "n" then Ascii.eqb "010"
  else if Ascii.eqb c "r" then Ascii.eqb "013"
  else if Ascii.eqb c "t" then Ascii.eqb "009"
  else Ascii.eqb c.

Definition in_range (a b x : ascii) : bool :=
  ((nat_of_ascii a <=? nat_of_ascii x) && (nat_of_ascii x <=? nat_of_ascii b))%nat.

(** The items of a character set up to its closing bracket. *)
Fixpoint p_class (s : string) (acc : ascii -> bool)
  : option ((ascii -> bool) * string) :=
  match s with
  | EmptyString => None
  | String "]" s' => Some (acc, s')
  | String "\" (String c s') =>
      p_class s' (fun x => acc x || escape_set c x)
  | String a (String "-" (String b s')) =>
      if Ascii.eqb b "]" then
        Some ((fun x => acc x || Ascii.eqb a x || Ascii.eqb "-" x), s')
      else p_class s' (fun x => acc x || in_range a b x)
  | String a s' => p_class s' (fun x => acc x || Ascii.eqb a x)
  end.

Definition is_syntax (c : ascii) : bool :=
  existsb (Ascii.eqb c)
    ["^"; "$"; "\"; "."; "*"; "+"; "?"; "("; ")"; "["; "]"; "{"; "}"; "|"]%char.

(** Disjunction, sequence and atom; [n] counts the groups opened so far. *)
Fixpoint p_disj (fuel : nat) (s : string) (n : nat) : parsed :=
  match fuel with
  | O => None
  | S f =>
      match p_seq f s n with
      | Some (r1, String "|" s', n') =>
          match p_disj f s' n' with
          | Some (r2, s'', n'') => Some (Alt r1 r2, s'', n'')
          | None => None
          end
      | other => other
      end
  end
with p_seq (fuel : nat) (s : string) (n : nat) : parsed :=
  match fuel with
  | O => None
  | S f =>
      match s with
      | EmptyString | String "|" _ | String ")" _ => Some (Eps, s, n)
      | _ =>
          match p_atom f s n with
          | Some (a, s', n') =>
              let '(t, s'') := quantify a s' in
              match p_seq f s'' n' with
              | Some (r, s3, n3) => Some (Seq t r, s3, n3)
              | None => None
              end
          | None => None
          end
      end
  end
with p_atom (fuel : nat) (s : string) (n : nat) : parsed :=
  match fuel with
  | O => None
  | S f =>
      match s with
      | EmptyString => None
      | String "(" (String "?" _) => None
      | String "(" s' =>
          match p_disj f s' (S n) with
          | Some (r, String ")" s'', n') => Some (Group (S n) r, s'', n')
          | _ => None
          end
      | String "[" (String "^" s') =>
          match p_class s' (fun _ => false) with
          | Some (p, s'') => Some (Chr (fun x => negb (p x)), s'', n)
          | None => None
          end
      | String "[" s' =>
          match p_class s' (fun _ => false) with
          | Some (p, s'') => Some (Chr p, s'', n)
          | None => None
          end
      | String "." s' => Some (dot, s', n)
      | String "\" (String c s') =>
          if Ascii.eqb c "b" then Some (WordBoundary, s', n)
          else if is_word c && negb (existsb (Ascii.eqb c) ["s"; "S"; "w"; "W"; "n"; "r"; "t"]%char)
          then None
          else Some (Chr (escape_set c), s', n)
      | String c s' => if is_syntax c then None else Some (ch c, s', n)
      end
  end.

Definition RegExp_basic (source : string) : outcome regex :=
  match p_disj (3 * String.length source + 3) source 0 with
  | Some (r, EmptyString, _) => Return r
  | _ => Throw (MkExn "SyntaxError" ("Invalid regular expression: /" +:+ source +:+ "/"))
  end.

Definition hex_digit (c : ascii) : option nat :=
  let n := nat_of_ascii c in
  if ((48 <=? n) && (n <=? 57))%nat then Some (n - 48)%nat
  else if ((65 <=? n) && (n <=? 70))%nat then Some (n - 55)%nat
  else if ((97 <=? n) && (n <=? 102))%nat then Some (n - 87)%nat
  else None.

(** One escape [%XY] at the head of [s]: its octet and the text after. *)
Definition escape_octet (s : string) : option (nat * string) :=
  match s with
  | String "%" (String x (String y s')) =>
      match hex_digit x, hex_digit y with
      | Some a, Some b => Some ((16 * a + b)%nat, s')
      | _, _ => None
      end
  | _ => None
  end.

(** [k] continuation escapes: their payload bits added to [cp]. *)
Fixpoint continuation (k : nat) (cp : N) (s : string) (acc : string)
  : option (N * string * string) :=
  match k with
  | O => Some (cp, acc, s)
  | S k' =>
      match escape_octet s with
      | Some (b, s') =>
          if ((128 <=? b) && (b <? 192))%nat then
            continuation k' (64 * cp + N.of_nat (b - 128))%N s'
              (acc +:+ String (ascii_of_nat b) "")
          else None
      | None => None
      end
  end.

(** The scalar value of a [k+1]-octet sequence is in range for its
    length and is not a surrogate. *)
Definition scalar_ok (k : nat) (cp : N) : bool :=
  (match k with
   | 1%nat => 128 <=? cp
   | 2%nat => (2048 <=? cp) && negb ((55296 <=? cp) && (cp <=? 57343))
   | _ => (65536 <=? cp) && (cp <=? 1114111)
   end)%N.

Fixpoint decode_loop (fuel : nat) (s : string) : option string :=
  match fuel with
  | O => None
  | S f =>
      match s with
      | EmptyString => Some ""
      | String "%" _ =>
          match escape_octet s with
          | None => None
          | Some (b, s') =>
              if (b <? 128)%nat then String (ascii_of_nat b) <$> decode_loop f s'
              else
                let k := if (b <? 192)%nat then 0%nat
                         else if (b <? 224)%nat then 1%nat
                         else if (b <? 240)%nat then 2%nat
                         else if (b <? 248)%nat then 3%nat else 0%nat in
                let payload := N.of_nat (b mod (2 ^ (6 - k)))%nat in
                match k with
                | O => None
                | _ =>
                    match continuation k payload s' (String (ascii_of_nat b) "") with
                    | Some (cp, octets, s'') =>
                        if scalar_ok k cp
                        then (fun t => (if (cp <? 256)%N
                                        then String (ascii_of_N cp) ""
                                        else octets) +:+ t)
                               <$> decode_loop f s''
                        else None
                    | None => None
                    end
                end
          end
      | String c s' => String c <$> decode_loop f s'
      end
  end.

Definition decodeURIComponent_basic (s : string) : outcome string :=
  match decode_loop (S (String.length s)) s with
  | Some d => Return d
  | None => Throw (MkExn "URIError" "URI malformed")
  end.

#[export] Instance basic : Host := {
  RegExp_new := RegExp_basic;
  decodeURIComponent := decodeURIComponent_basic
}.

End BasicHost.

(** ** Sample archives *)

Module Samples.

(** Sample documents are written with apostrophes around attribute
    values; [xml] turns them into double quotes. *)
Fixpoint xml (s : string) : string :=
  match s with
  | EmptyString => ""
  | String c s' => String (if Ascii.eqb c "'" then dq else c) (xml s')
  end.

Definition file (name text : string) : Entry :=
  MkEntry name (Some (Return text)).
(** A directory, as the reader library presents it. *)
Definition directory (name : string) : Entry := MkEntry name (Some (Return "")).
(** An entry object without the [getData] member. *)
Definition bare (name : string) : Entry := MkEntry name None.
Definition unreadable (name : string) : Entry :=
  MkEntry name (Some (Throw (Error "File format is not recognized"))).

Definition serving (entries : list Entry) : CalibreClient :=
  MkClient (fun _ _ => Return (MkBuffer (Return entries))).

Definition container_xml : string :=
  xml "<container><rootfiles><rootfile full-path='OEBPS/content.opf' media-type='application/oebps-package+xml'/></rootfiles></container>".

(** The scenario of the specification: one manifest item, one spine
    reference, no table of contents. *)
Definition opf_one : string :=
  xml "<package><manifest><item id='ch1' href='text/ch01.html' media-type='application/xhtml+xml'/></manifest><spine><itemref idref='ch1'/></spine></package>".

Definition book_one : list Entry :=
  [ file "mimetype" "application/epub+zip";
    directory "META-INF/";
    file "META-INF/container.xml" container_xml;
    file "OEBPS/content.opf" opf_one;
    file "OEBPS/text/ch01.html" "<html><body><h1>One</h1><p>aaa</p></body></html>" ].

(** A book with a navigation-control document and a navigation document. *)
Definition opf_two : string :=
  xml "<package><manifest><item id='ncx' href='toc.ncx' media-type='application/x-dtbncx+xml'/><item id='nav' href='nav.xhtml' properties='nav' media-type='application/xhtml+xml'/><item id='ch1' href='text/ch01.html' media-type='application/xhtml+xml'/><item href='text/../text/ch%302.html' id='ch2'/></manifest><spine toc='ncx'><itemref idref='ch1'/><itemref idref='missing'/><itemref idref='ch2'/><itemref idref='ch1'/></spine></package>".

Definition toc_ncx : string :=
  xml "<ncx><navMap><navPoint id='n1'><navLabel><text> Chapter One </text></navLabel><content src='text/ch01.html#top'/><navPoint id='n2'><navLabel><text>Section</text></navLabel><content src='text/ch01.html#s1'/></navPoint></navPoint></navMap></ncx>".

Definition nav_xhtml : string :=
  xml "<html><body><nav><ol><li><a class='x' href='text/ch02.html#a'><b>Two</b> (nav)</a></li></ol></nav></body></html>".

Definition ch01 : string := "<html><head><title>t</title></head><body><h1>One</h1><p>aaa</p></body></html>".
Definition ch02 : string := "<html><body><p>The <em>Dragon</em> &amp; the dragonfly</p></body></html>".

Definition book_two : list Entry :=
  [ file "META-INF/container.xml" container_xml;
    file "OEBPS/content.opf" opf_two;
    file "OEBPS/toc.ncx" toc_ncx;
    file "OEBPS/nav.xhtml" nav_xhtml;
    file "OEBPS/text/ch01.html" ch01;
    file "OEBPS/text/ch02.html" ch02 ].

(** The same book without the navigation-control document. *)
Definition book_nav_only : list Entry :=
  [ file "META-INF/container.xml" container_xml;
    file "OEBPS/content.opf" opf_two;
    file "OEBPS/nav.xhtml" nav_xhtml;
    file "OEBPS/text/ch01.html" ch01;
    file "OEBPS/text/ch02.html" ch02 ].

(** A spine that names [constructor], which the manifest does not
    declare. *)
Definition opf_inherited : string :=
  xml "<package><manifest><item id='ch1' href='text/ch01.html' media-type='application/xhtml+xml'/></manifest><spine><itemref idref='ch1'/><itemref idref='constructor'/></spine></package>".

Definition book_inherited : list Entry :=
  [ file "META-INF/container.xml" container_xml;
    file "OEBPS/content.opf" opf_inherited;
    file "OEBPS/text/ch01.html" ch01 ].

(** An archive whose container pointer cannot be decompressed. *)
Definition book_unreadable : list Entry :=
  [ unreadable "META-INF/container.xml";
    file "OEBPS/content.opf" opf_one;
    file "OEBPS/text/ch01.html" ch01 ].

(** An archive whose only chapter cannot be decompressed. *)
Definition book_unreadable_chapter : list Entry :=
  [ file "META-INF/container.xml" container_xml;
    file "OEBPS/content.opf" opf_one;
    unreadable "OEBPS/text/ch01.html" ].

(** A spine whose first document is declared but not in the archive. *)
Definition opf_ghost : string :=
  xml "<package><manifest><item id='ghost' href='text/ghost.html'/><item id='ch1' href='text/ch01.html'/></manifest><spine><itemref idref='ghost'/><itemref idref='ch1'/></spine></package>".

Definition book_ghost : list Entry :=
  [ file "META-INF/container.xml" container_xml;
    file "OEBPS/content.opf" opf_ghost;
    file "OEBPS/text/ch01.html" ch01 ].

(** The spine names the missing file after a chapter that can be
    read. *)
Definition opf_ghost_later : string :=
  xml "<package><manifest><item id='ch1' href='text/ch01.html'/><item id='ghost' href='text/ghost.html'/></manifest><spine><itemref idref='ch1'/><itemref idref='ghost'/></spine></package>".

Definition book_ghost_later : list Entry :=
  [ file "META-INF/container.xml" container_xml;
    file "OEBPS/content.opf" opf_ghost_later;
    file "OEBPS/text/ch01.html" ch01 ].

(** One chapter whose text is [aaa]. *)
Definition book_aaa : list Entry :=
  [ file "META-INF/container.xml" container_xml;
    file "OEBPS/content.opf" opf_one;
    file "OEBPS/text/ch01.html" "aaa" ].

(** The item of the navigation-control document has an identifier
    with an opening parenthesis. *)
Definition opf_parenthesis : string :=
  xml "<package><manifest><item id='n(cx' href='toc.ncx' media-type='application/x-dtbncx+xml'/><item id='ch1' href='text/ch01.html' media-type='application/xhtml+xml'/></manifest><spine toc='n(cx'><itemref idref='ch1'/></spine></package>".

(** The same package with the identifier ncx in its place. *)
Definition opf_plain : string :=
  xml "<package><manifest><item id='ncx' href='toc.ncx' media-type='application/x-dtbncx+xml'/><item id='ch1' href='text/ch01.html' media-type='application/xhtml+xml'/></manifest><spine toc='ncx'><itemref idref='ch1'/></spine></package>".

Definition book_parenthesis : list Entry :=
  [ file "META-INF/container.xml" container_xml;
    file "OEBPS/content.opf" opf_parenthesis;
    file "OEBPS/toc.ncx" toc_ncx;
    file "OEBPS/text/ch01.html" ch01 ].

(** Archives without one of the required documents. *)
Definition book_no_container : list Entry :=
  [ file "mimetype" "application/epub+zip";
    file "OEBPS/content.opf" opf_one ].

Definition book_no_rootfile : list Entry :=
  [ file "META-INF/container.xml" "<container><rootfiles/></container>";
    file "OEBPS/content.opf" opf_one ].

Definition book_no_package : list Entry :=
  [ file "META-INF/container.xml" container_xml;
    file "OEBPS/text/ch01.html" ch01 ].

End Samples.

(** ** The rest of the client and its adapter *)

(** [s.slice(0, -1)]: [s] without its last code unit. *)
Fixpoint slice_init (s : string) : string :=
  match s with
  | EmptyString => ""
  | String c s' =>
      match s' with
      | EmptyString => ""
      | String _ _ => String c (slice_init s')
      end
  end.

(** The first statement of the constructor of [CalibreClient] (line
    359): the base URL the client keeps. *)
Definition constructor_baseUrl (baseUrl : string) : string :=
  if JS.endsWith "/" baseUrl then slice_init baseUrl else baseUrl.

(** [this.baseUrl + url] of [fetch] (line 368), for a client built from
    [baseUrl]. *)
Definition fullUrl (baseUrl url : string) : string :=
  constructor_baseUrl baseUrl +:+ url.

(** *** The tool handler of main.ts *)

Module Tool.
Import RegExp.

(** [/\.(jpg|jpeg|png|gif|webp)$/i]. Without the [m] flag [$] is the end
    of the subject: a lookahead that refuses any code unit. *)
Definition imageExtension : regex :=
  seqs [ch "."; Group 1 (Alt (lit_i "jpg") (Alt (lit_i "jpeg") (Alt (lit_i "png")
                           (Alt (lit_i "gif") (lit_i "webp")))));
        NotAhead any].

(** [regex.test(path)] *)
Definition isImage (path : string) : bool :=
  match match_ imageExtension path with Some _ => true | None => false end.

(** [path.split('.').pop()?.toLowerCase()] *)
Definition extension (path : string) : string :=
  JS.toLowerCase (default "" (JS.pop_value (JS.split "." path))).

(** [ext === 'jpg' ? 'image/jpeg' : `image/${ext}`] *)
Definition mimeType_of (path : string) : string :=
  let ext := extension path in
  if String.eqb ext "jpg" then "image/jpeg" else "image/" +:+ ext.

Inductive Content : Type :=
| TextContent (text : string)
| ImageContent (data mimeType : string).

(** A tool result; [isError] is [false] where the source leaves it out. *)
Record ToolResult := MkResult { content : list Content; isError : bool }.

Definition text_result (text : string) : ToolResult :=
  MkResult [TextContent text] false.

(** The arguments of a call, with the members the tool schemas require
    present. *)
Record ToolArgs := MkArgs {
  arg_libraryId : string;
  arg_bookId : Z;
  arg_path : string;
  arg_query : string;
  arg_offset : option Z;
  arg_length : option Z
}.

(** The request of a tools/call as the handler uses it: [params] with
    the name and the arguments of the call, or no [params]. *)
Record CallToolRequest := MkRequest { params : option (string * ToolArgs) }.

End Tool.

(** [btoa] on a binary string: base64 with padding. The code units of
    a binary string are bytes, so the call never throws. *)
Module Base64.

Definition alphabet : string :=
  "ABCDEFGHIJKLMNOPQRSTUVWXYZabcdefghijklmnopqrstuvwxyz0123456789+/".

Definition digit (n : N) : ascii :=
  default "="%char (String.get (N.to_nat n) alphabet).

Fixpoint btoa (s : string) : string :=
  match s with
  | EmptyString => ""
  | String a EmptyString =>
      let x := N_of_ascii a in
      String (digit (x / 4)) (String (digit (x mod 4 * 16)) "==")
  | String a (String b EmptyString) =>
      let x := N_of_ascii a in
      let y := N_of_ascii b in
      String (digit (x / 4)) (String (digit (x mod 4 * 16 + y / 16))
        (String (digit (y mod 16 * 4)) "="))
  | String a (String b (String c rest)) =>
      let x := N_of_ascii a in
      let y := N_of_ascii b in
      let z := N_of_ascii c in
      String (digit (x / 4)) (String (digit (x mod 4 * 16 + y / 16))
        (String (digit (y mod 16 * 4 + z / 64)) (String (digit (z mod 64))
          (btoa rest))))
  end.

End Base64.

(** What the adapter takes from the host and from the part of the
    client that only relays the content server: the message of the
    TypeError that the runtime throws for destructuring [undefined],
    [JSON.stringify(x, null, 2)] at the three types it is used with
    here, and the bodies of the cases list_libraries, search_books,
    list_books, get_book_cover and get_book_metadata. *)
Class Adapter := {
  undefined_params : string;
  stringify_chapters : list Chapter -> string;
  stringify_hits : list SearchHit -> string;
  stringify_names : list string -> string;
  relayed_tool : string -> Tool.ToolArgs -> M Tool.ToolResult
}.

Section ToolHandler.
Context {host : Host} {adapter : Adapter}.
Import Tool.

(** [toBase64]: the loop copies the bytes into a binary string, which
    in the embedding is the buffer itself, and encodes it with [btoa]. *)
Definition toBase64 (buffer : string) : string := Base64.btoa buffer.

(** The case get_epub_file (lines 309-330). The data of an entry is
    one string, a code unit per byte, whether it is asked for as text or
    as a buffer. *)
Definition tool_get_epub_file (this : CalibreClient) (args : ToolArgs)
  : M ToolResult :=
  let path := arg_path args in
  if isImage path then
    buffer <- getEpubFile this (arg_libraryId args) (arg_bookId args) path ;;
    ret (MkResult [ImageContent (toBase64 buffer) (mimeType_of path)] false)
  else
    content <- getEpubFile this (arg_libraryId args) (arg_bookId args) path ;;
    ret (text_result content).

Definition relayed_names : list string :=
  [ "list_libraries"; "search_books"; "list_books"; "get_book_cover";
    "get_book_metadata" ].

(** The [switch] of the handler (lines 231-338). *)
Definition tool_body (this : CalibreClient) (name : string) (args : ToolArgs)
  : M ToolResult :=
  let libraryId := arg_libraryId args in
  let bookId := arg_bookId args in
  if existsb (String.eqb name) relayed_names then relayed_tool name args
  else if String.eqb name "list_chapters" then
    chapters <- getChapters this libraryId bookId ;;
    ret (text_result (stringify_chapters chapters))
  else if String.eqb name "get_chapter_content" then
    content <- getChapterContent this libraryId bookId (arg_path args) ;;
    ret (text_result content)
  else if String.eqb name "get_chapter_content_markdown" then
    content <- get_chapter_content_markdown this libraryId bookId (arg_path args)
                 (arg_offset args) (arg_length args) ;;
    ret (text_result content)
  else if String.eqb name "search_in_book" then
    results <- searchInBook this libraryId bookId (arg_query args) ;;
    ret (text_result (stringify_hits results))
  else if String.eqb name "get_epub_file" then tool_get_epub_file this args
  else if String.eqb name "list_epub_files" then
    files <- getEpubContents this libraryId bookId ;;
    ret (text_result (stringify_names files))
  else throw (MkExn "McpError" ("Unknown tool: " +:+ name)).

(** The result of the [catch] clause (lines 339-345). *)
Definition error_result (e : Exn) : ToolResult :=
  MkResult [TextContent ("Error: " +:+ exn_message e)] true.

(** The [try] statement of the handler (lines 230-345): the [switch]
    with its [catch] clause. *)
Definition call_tool (this : CalibreClient) (name : string) (args : ToolArgs)
  : M ToolResult :=
  fun tr =>
    match tool_body this name args tr with
    | (Return r, tr') => (Return r, tr')
    | (Throw e, tr') => (Return (error_result e), tr')
    end.

(** The handler of tools/call (lines 226-346). Its first statement
    destructures [request.params] outside the [try], which throws when
    the request has no params; the call of [log] after it writes to
    the standard error stream when the server is verbose and changes
    nothing else. *)
Definition tool_handler (this : CalibreClient) (request : CallToolRequest)
  : M ToolResult :=
  match params request with
  | None => throw (TypeError undefined_params)
  | Some (name, args) => call_tool this name args
  end.

End ToolHandler.

(** *** The transport of mcp-native.ts *)

Module Mcp.
Section Transport.
(** Identifiers and handler results are JSON values the transport only
    passes on. *)
Context {Id Result : Type}.

(** A parsed message: [method] is [None] when the member is missing or
    falsy, [id] is [None] when the member is [undefined]. The method of
    a message is a string, as the protocol has it. An awaited handler is
    represented by what awaiting it gives for the message. *)
Record Message := MkMessage {
  msg_method : option string;
  msg_id : option Id
}.

(** What awaiting a handler gives: its result, a thrown [McpError], or
    any other thrown error. *)
Inductive HandlerOutcome : Type :=
| Resolved (result : Result)
| ThrownMcp (code : Z) (message : string)
| Thrown (message : string).

Inductive Payload : Type :=
| InitializeResult (protocolVersion name version : string)
| HandlerResult (result : Result).

(** A line written to the standard output. *)
Inductive Sent : Type :=
| Response (id : Id) (result : Payload)
| ErrorResponse (id : Id) (code : Z) (message : string).

(** The [id] member of a line written. *)
Definition sent_id (sent : Sent) : Id :=
  match sent with
  | Response id _ => id
  | ErrorResponse id _ _ => id
  end.

Record McpServer := MkServer {
  server_name : string;
  server_version : string;
  handlers : gmap string (Message -> HandlerOutcome)
}.

(** [setRequestHandler]: [Map.set]. *)
Definition setRequestHandler (server : McpServer) (method : string)
  (handler : Message -> HandlerOutcome) : McpServer :=
  MkServer (server_name server) (server_version server)
    (<[method := handler]> (handlers server)).

Definition InvalidRequest : Z := -32600.
Definition MethodNotFound : Z := -32601.
Definition InvalidParams : Z := -32602.
Definition InternalError : Z := -32603.

(** The body of the loop of [start] for a parsed message (lines 50-89). *)
Definition handle_message (server : McpServer) (message : Message) : list Sent :=
  match msg_method message, msg_id message with
  | Some method, Some id =>
      if String.eqb method "initialize" then
        [Response id (InitializeResult "2024-11-05" (server_name server)
                        (server_version server))]
      else
        match handlers server !! method with
        | Some handler =>
            match handler message with
            | Resolved result => [Response id (HandlerResult result)]
            | ThrownMcp code msg => [ErrorResponse id code msg]
            | Thrown msg => [ErrorResponse id InternalError msg]
            end
        | None => [ErrorResponse id MethodNotFound ("Method not found: " +:+ method)]
        end
  | _, _ => []
  end.

(** The body of the loop for a line (lines 46-92); [parse] is
    [JSON.parse] followed by the reading of the two members, [None] when
    either throws. *)
Definition handle_line (parse : string -> option Message) (server : McpServer)
  (line : string) : list Sent :=
  if negb (JS.truthy (JS.trim line)) then []
  else
    match parse line with
    | Some message => handle_message server message
    | None => []
    end.

End Transport.
Arguments Message : clear implicits.
Arguments HandlerOutcome : clear implicits.
Arguments Payload : clear implicits.
Arguments Sent : clear implicits.
Arguments McpServer : clear implicits.
End Mcp.

(** ** More vocabulary of the statements *)

(** The set of code units a match of the pattern must start with, where
    the shape of the pattern shows one. *)
Fixpoint head_set (r : RegExp.regex) : option (ascii -> bool) :=
  match r with
  | RegExp.Chr p => Some p
  | RegExp.Seq r1 _ => head_set r1
  | RegExp.Group _ r1 => head_set r1
  | _ => None
  end.

(** No code unit of [s] is in the set [p]. *)
Fixpoint avoids (p : ascii -> bool) (s : string) : bool :=
  match s with
  | EmptyString => true
  | String c s' => negb (p c) && avoids p s'
  end.

(** [h] is a hit for [query] in the chapter [chapter], whose file holds
    [content]: it carries the title and the path of the chapter; its
    offset is an index of the folded converted text at which the folded
    query occurs; and its snippet is the window of the converted text,
    not folded, from 200 code units before the offset to 200 code units
    after the offset plus the length of the query, clipped at the ends
    of the text. *)
Definition hit_in (chapter : Chapter) (content query : string) (h : SearchHit)
  : Prop :=
  let md := htmlToMarkdown content in
  let lmd := JS.toLowerCase md in
  let lq := JS.toLowerCase query in
  let i := markdownOffset h in
  chapterTitle h = title chapter ∧ chapterPath h = path chapter ∧
  0 ≤ i ∧ i + JS.len lq ≤ JS.len lmd ∧
  JS.substring lmd i (i + JS.len lq) = lq ∧
  snippet h = JS.substring md (i - 200) (i + JS.len query + 200) ∧
  (String.length (snippet h) ≤ String.length query + 400)%nat.

(** What identifies a hit: the path of its chapter and its offset. *)
Definition hit_key (h : SearchHit) : string * Z :=
  (chapterPath h, markdownOffset h).

(** The keys of all occurrences of the folded [query] in the folded
    converted text of a chapter whose file holds [content], in ascending
    order of offset. *)
Definition chapter_matches (query : string) (chapter : Chapter)
  (content : string) : list (string * Z) :=
  map (pair (path chapter))
    (occurrences (JS.toLowerCase (htmlToMarkdown content))
       (JS.toLowerCase query)).

(** The archive served for the book stores [text] at [p]: the first
    entry named [p] is a file whose data reads as [text]. *)
Definition stored_text (this : CalibreClient) (libraryId : string) (bookId : Z)
  (p text : string) : Prop :=
  ∃ buffer entries name,
    upstream this libraryId bookId = Return buffer ∧
    zip_entries buffer = Return entries ∧
    find_entry entries p = Some (MkEntry name (Some (Return text))).

(** The events of reading the files [paths] one after the other, each
    through a handle of its own that is closed before the next is
    opened, the first handle being [h]. *)
Fixpoint reads (h : nat) (paths : list string) : list Event :=
  match paths with
  | [] => []
  | p :: more =>
      [EvOpen h; EvGetEntries h; EvGetData p; EvClose h] ++ reads (S h) more
  end.

Section PackageVocabulary.
Context {host : Host}.

(** The (id, href) pairs of the manifest items of a package document,
    in document order. *)
Definition manifest_items (opfXml : string) : list (string * string) :=
  map (fun mt =>
         (to_string (js_or (RegExp.group 2 mt) (RegExp.group 3 mt)),
          to_string (js_or (RegExp.group 1 mt) (RegExp.group 4 mt))))
      (RegExp.execAll Patterns.itemRegex opfXml).

(** The path a manifest href stands for: percent-decoded where it can
    be, then normalized under the package directory. *)
Definition item_path (opfDir href : string) : string :=
  _normalizePath
    (opfDir +:+ match decodeURIComponent href with
                | Return d => d
                | Throw _ => href
                end).

(** The path the manifest declares for an identifier: that of the last
    item with the identifier. *)
Definition declared_path (opfXml opfDir id : string) : option string :=
  (fun it => item_path opfDir it.2)
    <$> last (filter (fun it : string * string => it.1 = id) (manifest_items opfXml)).

(** What a spine reference to [id] adds to the chapter list: the
    declared path, unless it is empty. *)
Definition spine_target (opfXml opfDir id : string) : option string :=
  match declared_path opfXml opfDir id with
  | Some p => if JS.truthy p then Some p else None
  | None => None
  end.

End PackageVocabulary.

(** ** A sample adapter *)

Module SampleAdapter.

(** The renderings are stand-ins for [JSON.stringify]; no content
    server is reachable. *)
#[export] Instance offline : Adapter := {
  undefined_params :=
    "Cannot destructure property 'name' of 'request.params' as it is undefined.";
  stringify_chapters := fun chapters => JS.join "," (map path chapters);
  stringify_hits := fun hits => JS.join "," (map snippet hits);
  stringify_names := fun names => JS.join "," names;
  relayed_tool := fun _ _ => throw (TypeError "error sending request")
}.

End SampleAdapter.

(** * Properties *)

(** ** The matcher *)

Section Matcher.
Import RegExp.

Lemma advance_refl (s : mstate) : advance s s.
Proof. by split. Qed.

Lemma advance_trans (s1 s2 s3 : mstate) :
  advance s1 s2 → advance s2 s3 → advance s1 s3.
Proof. unfold advance. lia. Qed.

Lemma advance_set_cap (s s' : mstate) (n : nat) (text : string) :
  advance s s' → advance s (set_cap n text s').
Proof. done. Qed.

(** A successful repetition ran its continuation at a later position. *)
Lemma turns_reaches body greedy k :
  (∀ s k e, body s k = Some e → ∃ s', advance s s' ∧ k s' = Some e) →
  ∀ fuel s e, turns body greedy k fuel s = Some e →
              ∃ s', advance s s' ∧ k s' = Some e.
Proof.
  intros Hbody. induction fuel as [|fuel IH]; intros s e H; cbn [turns] in H.
  - exists s. split; [apply advance_refl|done].
  - assert (Hagain : ∀ e,
      body s (fun s' => if (pos s <? pos s')%nat
                        then turns body greedy k fuel s' else None) = Some e →
      ∃ s', advance s s' ∧ k s' = Some e).
    { intros e' H'. apply Hbody in H' as (s1 & Ha & H').
      destruct (pos s <? pos s1)%nat; [|done].
      apply IH in H' as (s2 & Ha' & H'). exists s2.
      split; [by eapply advance_trans|done]. }
    destruct greedy.
    + destruct (body s _) as [e'|] eqn:E.
      * injection H as <-. by apply Hagain.
      * exists s. split; [apply advance_refl|done].
    + destruct (k s) as [e'|] eqn:E.
      * injection H as <-. exists s. split; [apply advance_refl|done].
      * by apply Hagain.
Qed.

(** A successful match ran its continuation at a later position, and at
    a strictly later one when the pattern is consuming. *)
Lemma m_reaches (r : regex) :
  ∀ s k e, m r s k = Some e →
    ∃ s', advance s s' ∧ k s' = Some e ∧
          (consuming r = true → (pos s < pos s')%nat).
Proof.
  induction r as [|p|r1 IH1 r2 IH2|r1 IH1 r2 IH2|greedy r1 IH1|n r1 IH1|r1 IH1|];
    intros s k e H; cbn [m] in H.
  - exists s. split_and!; [apply advance_refl|done|done].
  - destruct s as [i pv [|c t] cs]; cbn in H; [done|].
    destruct (p c); [|done]. eexists. split_and!; [|exact H|cbn; lia].
    split; cbn; lia.
  - apply IH1 in H as (s1 & Ha1 & H & Hc1).
    apply IH2 in H as (s2 & Ha2 & H & Hc2). exists s2.
    split_and!; [by eapply advance_trans|done|]. cbn.
    intros [Hc|Hc]%orb_true_iff.
    + specialize (Hc1 Hc). destruct Ha2. lia.
    + specialize (Hc2 Hc). destruct Ha1. lia.
  - destruct (m r1 s k) as [e'|] eqn:E.
    + injection H as <-. apply IH1 in E as (s1 & Ha & E & Hc). exists s1.
      split_and!; [done..|]. cbn. intros [Hc1 _]%andb_true_iff. auto.
    + apply IH2 in H as (s1 & Ha & H & Hc). exists s1.
      split_and!; [done..|]. cbn. intros [_ Hc2]%andb_true_iff. auto.
  - apply turns_reaches in H as (s1 & Ha & H).
    + exists s1. split_and!; done.
    + intros s0 k0 e0 H0. apply IH1 in H0 as (s1 & ? & ? & _). eauto.
  - apply IH1 in H as (s1 & Ha & H & Hc). eexists.
    split_and!; [|exact H|done]. by apply advance_set_cap.
  - destruct (m r1 s Some); [done|]. exists s.
    split_and!; [apply advance_refl|done|done].
  - destruct (xorb _ _); [|done]. exists s.
    split_and!; [apply advance_refl|done|done].
Qed.

(** A repetition looks at its continuation at later positions only. *)
Lemma turns_local body greedy k1 k2 :
  (∀ s k k', (∀ s', advance s s' → k s' = k' s') → body s k = body s k') →
  ∀ fuel s, (∀ s', advance s s' → k1 s' = k2 s') →
            turns body greedy k1 fuel s = turns body greedy k2 fuel s.
Proof.
  intros Hbody. induction fuel as [|fuel IH]; intros s Hk; cbn [turns].
  - apply Hk, advance_refl.
  - rewrite (Hk s (advance_refl s)).
    rewrite (Hbody s _ (fun s' => if (pos s <? pos s')%nat
                                  then turns body greedy k2 fuel s' else None)).
    + done.
    + intros s' Ha. destruct (pos s <? pos s')%nat; [|done].
      apply IH. intros s'' Ha'. apply Hk. by eapply advance_trans.
Qed.

Lemma m_local (r : regex) :
  ∀ s k k', (∀ s', advance s s' → k s' = k' s') → m r s k = m r s k'.
Proof.
  induction r as [|p|r1 IH1 r2 IH2|r1 IH1 r2 IH2|greedy r1 IH1|n r1 IH1|r1 IH1|];
    intros s k k' Hk; cbn [m].
  - apply Hk, advance_refl.
  - destruct s as [i pv [|c t] cs]; cbn; [done|].
    destruct (p c); [|done]. apply Hk. split; cbn; lia.
  - apply IH1. intros s1 Ha1. apply IH2. intros s2 Ha2. apply Hk.
    by eapply advance_trans.
  - by rewrite (IH1 s k k' Hk), (IH2 s k k' Hk).
  - by apply turns_local.
  - apply IH1. intros s1 Ha. apply Hk. by apply advance_set_cap.
  - by rewrite (Hk s (advance_refl s)).
  - by rewrite (Hk s (advance_refl s)).
Qed.

(** The fuel of a repetition is never used up: any fuel above the
    length of the text left gives the same result. *)
Lemma turns_fuel (r : regex) greedy k :
  ∀ fuel1 fuel2 s,
    (String.length (rest s) < fuel1)%nat → (String.length (rest s) < fuel2)%nat →
    turns (m r) greedy k fuel1 s = turns (m r) greedy k fuel2 s.
Proof.
  induction fuel1 as [|fuel1 IH]; intros fuel2 s H1 H2; [lia|].
  destruct fuel2 as [|fuel2]; [lia|]. cbn [turns].
  rewrite (m_local r s _ (fun s' => if (pos s <? pos s')%nat
                                    then turns (m r) greedy k fuel2 s' else None)).
  - done.
  - intros s' [Ha1 Ha2]. destruct (pos s <? pos s')%nat eqn:E; [|done].
    apply Nat.ltb_lt in E. apply IH; lia.
Qed.

(** Where a match found by [search_from] lies. *)
Lemma search_from_bounds (r : regex) (text : string) :
  ∀ i pv mt, search_from r i pv text = Some mt →
    (i ≤ index mt)%nat ∧ (index mt ≤ lastIndex mt)%nat ∧
    (String.length (after mt) + lastIndex mt = String.length text + i)%nat ∧
    (consuming r = true → (index mt < lastIndex mt)%nat).
Proof.
  induction text as [|c t IH]; intros i pv mt H; cbn [search_from] in H.
  - destruct (m r _ Some) as [e|] eqn:E; [|done]. injection H as <-.
    apply m_reaches in E as (s' & [Ha1 Ha2] & [= ->] & Hc). cbn in *.
    split_and!; [lia..|done].
  - destruct (m r _ Some) as [e|] eqn:E.
    + injection H as <-.
      apply m_reaches in E as (s' & [Ha1 Ha2] & [= ->] & Hc). cbn in *.
      split_and!; [lia..|done].
    + apply IH in H as (H1 & H2 & H3 & H4). cbn.
      split_and!; [lia..|done].
Qed.

(** The loop over the matches of a consuming pattern never uses up the
    fuel [execAll] gives it. *)
Lemma exec_loop_fuel (r : regex) :
  consuming r = true →
  ∀ fuel1 fuel2 i pv text,
    (String.length text < fuel1)%nat → (String.length text < fuel2)%nat →
    exec_loop fuel1 r i pv text = exec_loop fuel2 r i pv text.
Proof.
  intros Hr. induction fuel1 as [|fuel1 IH]; intros fuel2 i pv text H1 H2; [lia|].
  destruct fuel2 as [|fuel2]; [lia|]. cbn [exec_loop].
  destruct (search_from r i pv text) as [mt|] eqn:E; [|done].
  apply search_from_bounds in E as (Hi & _ & Hl & Hc). specialize (Hc Hr).
  f_equal. apply IH; lia.
Qed.

(** Nor does the loop of a global replacement, whatever the pattern. *)
Lemma replace_loop_fuel (r : regex) (f : rmatch → string) :
  ∀ fuel1 fuel2 i pv text,
    (String.length text < fuel1)%nat → (String.length text < fuel2)%nat →
    replace_loop fuel1 r f i pv text = replace_loop fuel2 r f i pv text.
Proof.
  induction fuel1 as [|fuel1 IH]; intros fuel2 i pv text H1 H2; [lia|].
  destruct fuel2 as [|fuel2]; [lia|]. cbn [replace_loop].
  destruct (search_from r i pv text) as [mt|] eqn:E; [|done].
  apply search_from_bounds in E as (Hi & Hle & Hl & _). cbv zeta.
  destruct (index mt <? lastIndex mt)%nat eqn:E1.
  - apply Nat.ltb_lt in E1. f_equal. apply IH; lia.
  - destruct (after mt) as [|c t] eqn:Ea; [done|]. cbn in Hl.
    f_equal. f_equal. apply IH; lia.
Qed.

(** The patterns the client loops over are consuming. *)
Lemma patterns_consuming :
  consuming Patterns.itemRegex = true ∧ consuming Patterns.spineRegex = true ∧
  consuming Patterns.navPointRegex = true ∧ consuming Patterns.linkRegex = true.
Proof. done. Qed.

End Matcher.

(** ** Strings *)

Section StringFacts.

Lemma append_nil_l (s : string) : "" +:+ s = s.
Proof. reflexivity. Qed.

Lemma append_cons (c : ascii) (a b : string) :
  String c a +:+ b = String c (a +:+ b).
Proof. reflexivity. Qed.

Lemma append_nil_r (s : string) : s +:+ "" = s.
Proof.
  induction s as [|c s IH]; [reflexivity|]. by rewrite append_cons, IH.
Qed.

Lemma append_assoc (a b c : string) : (a +:+ b) +:+ c = a +:+ (b +:+ c).
Proof.
  induction a as [|x a IH]; [reflexivity|]. by rewrite !append_cons, IH.
Qed.

Lemma length_append (a b : string) :
  String.length (a +:+ b) = (String.length a + String.length b)%nat.
Proof.
  induction a as [|x a IH]; [reflexivity|]. rewrite append_cons. cbn.
  by rewrite IH.
Qed.

Lemma split_not_nil (sep : ascii) (s : string) : JS.split sep s ≠ [].
Proof.
  destruct s as [|c s]; cbn; [done|].
  destruct (Ascii.eqb c sep); [done|]. by destruct (JS.split sep s).
Qed.

(** No segment of a split contains the separator. *)
Lemma split_segments (sep : ascii) (s : string) :
  Forall (fun seg => JS.includes sep seg = false) (JS.split sep s).
Proof.
  induction s as [|c s IH]; cbn.
  - by constructor.
  - destruct (Ascii.eqb c sep) eqn:E; [by constructor|].
    destruct (JS.split sep s) as [|seg segs]; [by constructor; [cbn; rewrite E|]|].
    inversion IH; subst. constructor; [|done]. cbn. by rewrite E.
Qed.

Lemma split_snoc (sep : ascii) (s : string) :
  ∃ front lst, JS.split sep s = front ++ [lst].
Proof.
  destruct (JS.split sep s) as [|x l] eqn:E using rev_ind.
  - by destruct (split_not_nil sep s).
  - eauto.
Qed.

(** Splitting a concatenation: the last segment of the left part and
    the first segment of the right part merge. *)
Lemma split_app (sep : ascii) (s1 s2 : string) (front : list string)
  (lst h : string) (t : list string) :
  JS.split sep s1 = front ++ [lst] →
  JS.split sep s2 = h :: t →
  JS.split sep (s1 +:+ s2) = front ++ (lst +:+ h) :: t.
Proof.
  revert front lst. induction s1 as [|c s1 IH]; intros front lst H1 H2.
  - cbn in H1. destruct front as [|x [|y front]]; simplify_eq/=. done.
  - cbn in H1. rewrite append_cons. cbn.
    destruct (Ascii.eqb c sep) eqn:E.
    + destruct front as [|x front]; simplify_eq/=.
      * exfalso. by eapply split_not_nil.
      * by rewrite (IH front lst).
    + destruct (split_snoc sep s1) as (f' & l' & Es).
      rewrite (IH f' l' Es H2). rewrite Es in H1.
      destruct f' as [|x f']; cbn in H1 |- *.
      * destruct front as [|y front]; simplify_eq/=; [done|].
        by destruct front.
      * change (String c x :: f' ++ [l']) with ((String c x :: f') ++ [l']) in H1.
        apply app_inj_tail in H1 as [<- <-]. done.
Qed.

(** Joining slash-free segments and splitting again gives them back. *)
Lemma split_join (sep : ascii) (l : list string) :
  l ≠ [] →
  Forall (fun seg => JS.includes sep seg = false) l →
  JS.split sep (JS.join (String sep "") l) = l.
Proof.
  induction l as [|x l IH]; [done|]. intros _ Hall.
  inversion Hall as [|? ? Hx Hl]; subst.
  assert (Hsingle : ∀ y, JS.includes sep y = false → JS.split sep y = [y]).
  { clear. induction y as [|c y IHy]; [done|]. cbn. intros H.
    apply orb_false_iff in H as [-> H]. by rewrite IHy. }
  destruct l as [|y l].
  - cbn. by apply Hsingle.
  - change (JS.join (String sep "") (x :: y :: l))
      with (x +:+ String sep "" +:+ JS.join (String sep "") (y :: l)).
    rewrite <- append_assoc.
    assert (Hx' : JS.split sep (x +:+ String sep "") = [x] ++ [""]).
    { rewrite (split_app sep x (String sep "") [] x "" [""]).
      - by rewrite append_nil_r.
      - by apply Hsingle.
      - cbn. by rewrite Ascii.eqb_refl. }
    rewrite (split_app sep _ _ [x] "" y l Hx'); [done|].
    by apply IH.
Qed.

End StringFacts.

(** ** The path normalizer *)

Section Normalizer.

Lemma normalize_step_skip (stack : list string) :
  normalize_step stack "" = stack ∧ normalize_step stack "." = stack.
Proof. done. Qed.

Lemma normalize_step_pop (stack : list string) (seg : string) :
  normalize_step (stack ++ [seg]) ".." = stack.
Proof.
  unfold normalize_step. cbn. rewrite length_app, Nat.add_1_r.
  apply removelast_last.
Qed.

Lemma normalize_step_pop_empty : normalize_step [] ".." = [].
Proof. done. Qed.

Lemma normalize_step_push (stack : list string) (part : string) :
  canonical_segment part = true → normalize_step stack part = stack ++ [part].
Proof.
  unfold canonical_segment, normalize_step. intros H.
  apply andb_true_iff in H as [H H3]. apply andb_true_iff in H as [H1 H2].
  apply negb_true_iff in H1, H2, H3. by rewrite H1, H2, H3.
Qed.

Lemma Forall_removelast {A} (P : A → Prop) (l : list A) :
  Forall P l → Forall P (removelast l).
Proof.
  destruct l as [|x l] using rev_ind; [done|].
  rewrite removelast_last. intros H. by apply Forall_app in H as [H _].
Qed.

Lemma normalize_step_names (stack : list string) (part : string) :
  JS.includes "/" part = false →
  Forall name_segment stack → Forall name_segment (normalize_step stack part).
Proof.
  intros Hp Hs. unfold normalize_step.
  destruct (String.eqb part ".") eqn:E1; [done|].
  destruct (String.eqb part "") eqn:E2; [done|]. cbn.
  destruct (String.eqb part "..") eqn:E3.
  - destruct (length stack); [done|by apply Forall_removelast].
  - apply Forall_app. split; [done|]. constructor; [|done].
    split; [|done]. unfold canonical_segment. by rewrite E1, E2, E3.
Qed.

Lemma stack_names (parts stack : list string) :
  Forall (fun seg => JS.includes "/" seg = false) parts →
  Forall name_segment stack →
  Forall name_segment (fold_left normalize_step parts stack).
Proof.
  revert stack. induction parts as [|p parts IH]; intros stack Hp Hs; [done|].
  inversion Hp; subst. cbn. apply IH; [done|]. by apply normalize_step_names.
Qed.

(** Names are pushed as they are. *)
Lemma fold_names (names acc : list string) :
  Forall name_segment names →
  fold_left normalize_step names acc = acc ++ names.
Proof.
  revert acc. induction names as [|x names IH]; intros acc H; cbn.
  - by rewrite app_nil_r.
  - inversion H as [|? ? [Hx _] Hn]; subst.
    rewrite normalize_step_push by done. rewrite IH by done.
    by rewrite <- app_assoc.
Qed.

Lemma final_stack_names (filePath : string) :
  Forall name_segment (final_stack filePath).
Proof. apply stack_names; [apply split_segments|done]. Qed.

Lemma join_nil_iff (l : list string) :
  Forall name_segment l → JS.join "/" l = "" → l = [].
Proof.
  destruct l as [|x l]; [done|]. intros H. inversion H as [|? ? [Hx _] _]; subst.
  destruct x; [done|]. by destruct l.
Qed.

Lemma split_normalized (filePath : string) :
  _normalizePath filePath ≠ "" →
  JS.split "/" (_normalizePath filePath) = final_stack filePath.
Proof.
  intros Hne. unfold _normalizePath. fold (final_stack filePath).
  apply (split_join "/").
  - intros E. apply Hne. unfold _normalizePath. fold (final_stack filePath).
    by rewrite E.
  - eapply Forall_impl; [apply final_stack_names|]. by intros ? [_ ?].
Qed.

Lemma normalize_idempotent (filePath : string) :
  _normalizePath (_normalizePath filePath) = _normalizePath filePath.
Proof.
  destruct (String.eqb (_normalizePath filePath) "") eqn:E.
  - apply String.eqb_eq in E. by rewrite E.
  - apply String.eqb_neq in E.
    unfold _normalizePath at 1. rewrite split_normalized by done.
    rewrite fold_names by apply final_stack_names. done.
Qed.

Lemma normalized_canonical (filePath : string) :
  _normalizePath filePath ≠ "" → canonical (_normalizePath filePath) = true.
Proof.
  intros Hne. unfold canonical. rewrite split_normalized by done.
  apply forallb_forall. intros seg Hin.
  pose proof (final_stack_names filePath) as H.
  rewrite List.Forall_forall in H. by destruct (H seg Hin).
Qed.

Lemma startsWith_split (c : ascii) (s : string) :
  JS.startsWith (String c "") s = true → ∃ t, JS.split c s = "" :: t.
Proof.
  destruct s as [|d s]; [done|]. cbn. destruct (Ascii.eqb c d) eqn:E; [|done].
  apply Ascii.eqb_eq in E as ->. rewrite Ascii.eqb_refl. eauto.
Qed.

Lemma endsWith_inv (c : ascii) (s : string) :
  JS.endsWith c s = true → ∃ s', s = s' +:+ String c "".
Proof.
  induction s as [|d s IH]; [done|]. destruct s as [|e s].
  - cbn. intros ->%Ascii.eqb_eq. by exists "".
  - intros H. destruct IH as [s' Hs']; [done|]. exists (String d s').
    by rewrite append_cons, <- Hs'.
Qed.

Lemma endsWith_split (c : ascii) (s : string) :
  JS.endsWith c s = true → ∃ front, JS.split c s = front ++ [""].
Proof.
  intros [s' ->]%endsWith_inv.
  destruct (split_snoc c s') as (front & lst & E).
  exists (front ++ [lst]).
  rewrite (split_app c s' (String c "") front lst "" [""] E).
  - rewrite append_nil_r. by rewrite <- app_assoc.
  - cbn. by rewrite Ascii.eqb_refl.
Qed.

(** A canonical path neither starts nor ends with a slash. *)
Lemma canonical_no_outer_slash (p : string) :
  canonical p = true →
  JS.startsWith "/" p = false ∧ JS.endsWith "/" p = false.
Proof.
  unfold canonical. intros H. split.
  - destruct (JS.startsWith "/" p) eqn:E; [|done].
    apply startsWith_split in E as [t E]. by rewrite E in H.
  - destruct (JS.endsWith "/" p) eqn:E; [|done].
    apply endsWith_split in E as [front E]. rewrite E in H.
    rewrite forallb_app in H. by apply andb_true_iff in H as [_ H].
Qed.

(** Dropping a leading [..] that has nothing to pop. *)
Lemma normalize_excess_dotdot (p : string) :
  _normalizePath ("../" +:+ p) = _normalizePath p.
Proof.
  unfold _normalizePath.
  destruct (JS.split "/" p) as [|h t] eqn:E; [by destruct (split_not_nil "/" p)|].
  rewrite (split_app "/" "../" p [".."] "" h t); [|done|done].
  by rewrite append_nil_l.
Qed.

(** The last segment of [base +:+ 'a'] is a name, whatever [base] is. *)
Lemma name_ends_in_letter (lst : string) :
  canonical_segment (lst +:+ "a") = true.
Proof.
  destruct lst as [|x [|y [|z lst]]]; try done.
  - rewrite !append_cons, append_nil_l. unfold canonical_segment. cbn.
    destruct (Ascii.eqb x "."); done.
  - rewrite !append_cons, append_nil_l. unfold canonical_segment. cbn.
    destruct (Ascii.eqb x "."), (Ascii.eqb y "."); done.
  - rewrite !append_cons. unfold canonical_segment. cbn.
    destruct (Ascii.eqb x "."), (Ascii.eqb y "."); done.
Qed.

Lemma normalize_roundtrip (base : string) :
  _normalizePath (base +:+ "a/b/../c") = _normalizePath (base +:+ "a/c").
Proof.
  unfold _normalizePath.
  destruct (split_snoc "/" base) as (front & lst & E).
  rewrite (split_app "/" base "a/b/../c" front lst "a" ["b"; ".."; "c"] E) by done.
  rewrite (split_app "/" base "a/c" front lst "a" ["c"] E) by done.
  rewrite !fold_left_app. f_equal. cbn [fold_left].
  rewrite !(normalize_step_push _ (lst +:+ "a")) by apply name_ends_in_letter.
  rewrite (normalize_step_push _ "b") by done.
  by rewrite normalize_step_pop.
Qed.

End Normalizer.

(** ** The monad *)

Section MonadFacts.

Lemma bind_Return {A B} (c : M A) (f : A → M B) tr b tr' :
  bind c f tr = (Return b, tr') →
  ∃ a tr1, c tr = (Return a, tr1) ∧ f a tr1 = (Return b, tr').
Proof.
  unfold bind. destruct (c tr) as [[a|e] tr1]; [eauto|done].
Qed.

Lemma bind_eq {A B} (c : M A) (f : A → M B) tr a tr1 :
  c tr = (Return a, tr1) → bind c f tr = f a tr1.
Proof. unfold bind. by intros ->. Qed.

Lemma bind_Throw {A B} (c : M A) (f : A → M B) tr e tr1 :
  c tr = (Throw e, tr1) → bind c f tr = (Throw e, tr1).
Proof. unfold bind. by intros ->. Qed.

Lemma lift_inv {A} (o : outcome A) tr r tr' :
  lift o tr = (r, tr') → o = r ∧ tr' = tr.
Proof. unfold lift. by intros [= -> ->]. Qed.

Lemma getData_inv (e : Entry) (d : outcome string) tr r tr' :
  getData e d tr = (r, tr') → d = r ∧ tr' = tr ++ [EvGetData (filename e)].
Proof. unfold getData, bind, emit, lift. by intros [= -> ->]. Qed.

End MonadFacts.

(** ** The chapter catalogue *)

Section Catalogue.
Context {host : Host}.

(** What a successful [getChapters] went through. *)
Lemma getChapters_Return this libraryId bookId tr chapters tr' :
  getChapters this libraryId bookId tr = (Return chapters, tr') →
  ∃ buffer entries cname cdata containerXml fullPathMatch oname odata opfXml toc tr1 tr2,
    upstream this libraryId bookId = Return buffer ∧
    zip_entries buffer = Return entries ∧
    find_entry entries "META-INF/container.xml" = Some (MkEntry cname (Some cdata)) ∧
    cdata = Return containerXml ∧
    RegExp.match_ Patterns.fullPath containerXml = Some fullPathMatch ∧
    let opfPath := to_string (RegExp.group 1 fullPathMatch) in
    let opfDir := opfDir_of opfPath in
    find_entry entries opfPath = Some (MkEntry oname (Some odata)) ∧
    odata = Return opfXml ∧
    tr1 = tr ++ [EvOpen (opens tr); EvGetEntries (opens tr);
                 EvGetData cname; EvGetData oname] ∧
    getTOCFromEntries entries opfXml opfDir tr1 = (Return toc, tr2) ∧
    map_chapters toc (build_spine (build_manifest opfXml opfDir) opfXml)
      = Return chapters ∧
    tr' = tr2 ++ [EvClose (opens tr)].
Proof.
  unfold getChapters. intros H.
  apply bind_Return in H as (buffer & t1 & Hb & H).
  apply lift_inv in Hb as [Hb ->].
  apply bind_Return in H as (reader & t2 & Hr & H).
  unfold ZipReader_new in Hr. injection Hr as <- <-.
  apply bind_Return in H as (entries & t3 & He & H).
  unfold reader_getEntries, bind, emit, lift in He.
  destruct (zip_entries buffer) as [es|] eqn:Hz; [|done]. injection He as -> <-.
  destruct (find_entry entries "META-INF/container.xml")
    as [[cname [cdata|]]|] eqn:Hc; [|done..].
  apply bind_Return in H as (containerXml & t4 & Hd & H).
  apply getData_inv in Hd as [Hd ->].
  destruct (RegExp.match_ Patterns.fullPath containerXml) as [fpm|] eqn:Hm; [|done].
  cbv zeta in H.
  destruct (find_entry entries (to_string (RegExp.group 1 fpm)))
    as [[oname [odata|]]|] eqn:Ho; [|done..].
  apply bind_Return in H as (opfXml & t5 & Hd' & H).
  apply getData_inv in Hd' as [Hd' ->].
  apply bind_Return in H as (toc & t6 & Ht & H).
  apply bind_Return in H as (chs & t7 & Hm' & H).
  apply lift_inv in Hm' as [Hm' ->].
  unfold reader_close, bind, emit, ret in H. injection H as -> <-.
  exists buffer, entries, cname, cdata, containerXml, fpm, oname, odata, opfXml,
    toc, (tr ++ [EvOpen (opens tr); EvGetEntries (opens tr);
                 EvGetData cname; EvGetData oname]), t6.
  cbn in Ht. rewrite <- !app_assoc in Ht. cbn in Ht.
  repeat split; done.
Qed.

Lemma find_entry_name (entries : list Entry) (name : string) (e : Entry) :
  find_entry entries name = Some e → filename e = name.
Proof.
  unfold find_entry. intros H. apply find_some in H as [_ H].
  by apply String.eqb_eq in H.
Qed.

(** [find] returns the first element that passes the test. *)
Lemma find_first {A} (f : A → bool) (l : list A) (x : A) :
  find f l = Some x →
  ∃ i, l !! i = Some x ∧ f x = true ∧
       ∀ j y, (j < i)%nat → l !! j = Some y → f y = false.
Proof.
  induction l as [|a l IH]; [done|]. cbn. destruct (f a) eqn:E.
  - intros [= ->]. exists 0%nat. split; [done|]. split; [done|]. lia.
  - intros H. destruct (IH H) as (i & Hi & Hx & Hlt). exists (S i).
    split; [done|]. split; [done|]. intros [|j] y Hj Hy.
    + by injection Hy as <-.
    + apply (Hlt j); [lia|done].
Qed.

Lemma find_none_elem {A} (f : A → bool) (l : list A) (x : A) :
  find f l = None → x ∈ l → f x = false.
Proof.
  intros H Hin. apply list_elem_of_In in Hin. by apply (find_none f l H).
Qed.

(** The map over the spine returns only if every element is a string,
    and then each chapter is the one its path gives. *)
Lemma map_chapters_Return (toc : list TocEntry) (spine : list jsval)
  (chapters : list Chapter) :
  map_chapters toc spine = Return chapters →
  spine = map (fun c => VString (path c)) chapters ∧
  Forall (fun c => chapter_of toc (VString (path c)) = Return c) chapters.
Proof.
  revert chapters. induction spine as [|v spine IH]; intros chapters; cbn.
  - by intros [= <-].
  - destruct (chapter_of toc v) as [c|] eqn:Ec; [|done].
    destruct (map_chapters toc spine) as [cs|]; [|done]. intros [= <-].
    destruct (IH cs eq_refl) as [-> Hall].
    assert (v = VString (path c)) as ->.
    { destruct v as [p|]; [|done]. cbn in Ec.
      destruct (find _ toc); by injection Ec as <-. }
    split; [done|]. by constructor.
Qed.

Lemma map_chapters_strings (toc : list TocEntry) (paths : list string) :
  ∃ chapters, map_chapters toc (map VString paths) = Return chapters ∧
              map path chapters = paths.
Proof.
  induction paths as [|p paths (cs & E & Hp)]; [by exists []|].
  cbn. rewrite E. destruct (find _ toc).
  - eexists. split; [done|]. cbn. by rewrite Hp.
  - eexists. split; [done|]. cbn. by rewrite Hp.
Qed.

(** Every value of the manifest comes out of the normalizer. *)
Lemma build_manifest_values (opfXml opfDir id p : string) :
  build_manifest opfXml opfDir !! id = Some p → ∃ x, p = _normalizePath x.
Proof.
  unfold build_manifest.
  assert (Hgen : ∀ (ms : list RegExp.rmatch) (m0 : gmap string string),
    (∀ id p, m0 !! id = Some p → ∃ x, p = _normalizePath x) →
    ∀ id p, fold_left (manifest_step opfDir) ms m0 !! id = Some p →
            ∃ x, p = _normalizePath x).
  { induction ms as [|mt ms IH]; intros m0 H0; [done|]. cbn. apply IH.
    intros id' p'. unfold manifest_step, manifest_set.
    rewrite lookup_insert. case_decide; [|apply H0]. intros [= <-]. eauto. }
  apply Hgen. intros ? ?. by rewrite lookup_empty.
Qed.

(** The strings of the spine are non-empty values of the manifest, and
    its other elements are inherited members the manifest does not own. *)
Lemma build_spine_elements (manifest : gmap string string) (opfXml : string)
  (v : jsval) :
  v ∈ build_spine manifest opfXml →
  match v with
  | VString p => p ≠ "" ∧ ∃ idref, manifest !! idref = Some p
  | VInherited key => manifest !! key = None ∧ inherited key = true
  end.
Proof.
  unfold build_spine.
  assert (Hgen : ∀ (ms : list RegExp.rmatch) (sp : list jsval) (P : jsval → Prop),
    (∀ idref v, manifest_get manifest idref = Some v →
                truthy_val (Some v) = true → P v) →
    Forall P sp → Forall P (fold_left (spine_step manifest) ms sp)).
  { induction ms as [|mt ms IH]; intros sp P HP Hsp; [done|]. cbn.
    apply IH; [done|]. unfold spine_step.
    destruct (manifest_get manifest _) as [w|] eqn:E; [|done].
    destruct (truthy_val (Some w)) eqn:Et; [|done].
    apply Forall_app. split; [done|]. constructor; [|done]. by eapply HP. }
  intros Hin.
  pose (P := fun v : jsval =>
    match v with
    | VString p => p ≠ "" ∧ ∃ idref, manifest !! idref = Some p
    | VInherited key => manifest !! key = None ∧ inherited key = true
    end).
  cut (Forall P (fold_left (spine_step manifest)
                   (RegExp.execAll Patterns.spineRegex opfXml) [])).
  { intros HF. rewrite Forall_forall in HF. by apply (HF v). }
  apply Hgen; [|done]. clear. intros idref v Hget Ht. unfold P.
  unfold manifest_get in Hget.
  destruct (manifest !! idref) as [p|] eqn:E.
  - injection Hget as <-. cbn in Ht. split; [|eauto].
    intros ->. done.
  - destruct (inherited idref) eqn:Ei; [|done]. by injection Hget as <-.
Qed.

End Catalogue.

Section Titles.
Context {host : Host}.

Lemma join_cons_char (sep : string) (c : ascii) (seg : string)
  (segs : list string) :
  JS.join sep (String c seg :: segs) = String c (JS.join sep (seg :: segs)).
Proof. by destruct segs. Qed.

Lemma join_split (sep : ascii) (s : string) :
  JS.join (String sep "") (JS.split sep s) = s.
Proof.
  induction s as [|c s IH]; [done|]. cbn [JS.split].
  destruct (Ascii.eqb c sep) eqn:E.
  - apply Ascii.eqb_eq in E as ->.
    destruct (JS.split sep s) as [|x l] eqn:Es; [by destruct (split_not_nil sep s)|].
    change (JS.join (String sep "") ("" :: x :: l))
      with ("" +:+ String sep "" +:+ JS.join (String sep "") (x :: l)).
    by rewrite IH.
  - destruct (JS.split sep s) as [|x l] eqn:Es; [by destruct (split_not_nil sep s)|].
    by rewrite join_cons_char, IH.
Qed.

Lemma join_snoc (sep : string) (front : list string) (lst : string) :
  front ≠ [] →
  JS.join sep (front ++ [lst]) = JS.join sep front +:+ sep +:+ lst.
Proof.
  induction front as [|x front IH]; [done|]. intros _.
  destruct front as [|y front]; [done|].
  change (JS.join sep ((x :: y :: front) ++ [lst]))
    with (x +:+ sep +:+ JS.join sep ((y :: front) ++ [lst])).
  rewrite IH by done.
  change (JS.join sep (x :: y :: front))
    with (x +:+ sep +:+ JS.join sep (y :: front)).
  by rewrite !append_assoc.
Qed.

(** [last_segment] is the text after the last slash. *)
Lemma last_segment_final (p : string) : final_segment_of p (last_segment p).
Proof.
  destruct (split_snoc "/" p) as (front & lst & E).
  assert (last_segment p = lst) as ->.
  { unfold last_segment, JS.pop_value. by rewrite E, last_snoc. }
  split.
  - pose proof (split_segments "/" p) as H. rewrite E in H.
    by apply Forall_app in H as [_ H%Forall_inv].
  - pose proof (join_split "/" p) as H. rewrite E in H.
    destruct front as [|x front]; [by left|]. right.
    rewrite join_snoc in H by done. eauto.
Qed.

Lemma chapter_of_titled (toc : list TocEntry) (p : string) (c : Chapter) :
  chapter_of toc (VString p) = Return c → path c = p ∧ titled_by toc c.
Proof.
  cbn. destruct (find _ toc) as [t|] eqn:E; intros [= <-]; (split; [done|]).
  - left. apply find_first in E as (i & Hi & Hp & Hlt).
    exists i, t. cbn. apply String.eqb_eq in Hp.
    repeat split; [done..|]. intros j t' Hj Ht'.
    apply String.eqb_neq. by apply (Hlt j).
  - right. cbn. split; [|apply last_segment_final].
    intros t Ht. apply String.eqb_neq.
    by apply (find_none_elem (fun t => String.eqb (path t) p) toc).
Qed.

End Titles.

(** ** The table of contents *)

Section Toc.
Context {host : Host}.

Lemma includes_app (c : ascii) (a b : string) :
  JS.includes c (a +:+ b) = JS.includes c a || JS.includes c b.
Proof.
  induction a as [|x a IH]; [done|]. rewrite append_cons. cbn.
  by rewrite IH, orb_assoc.
Qed.

Lemma split_single (sep : ascii) (s : string) :
  JS.includes sep s = false → JS.split sep s = [s].
Proof.
  induction s as [|c s IH]; [done|]. cbn. intros H.
  apply orb_false_iff in H as [-> H]. by rewrite IH.
Qed.

(** The fragment is cut at the first [#]. *)
Lemma strip_fragment_cut (a b : string) :
  JS.includes "#" a = false → strip_fragment (a +:+ "#" +:+ b) = a.
Proof.
  intros Ha. unfold strip_fragment.
  rewrite includes_app, Ha. cbn.
  destruct (split_snoc "#" b) as (front & lst & Eb).
  destruct (JS.split "#" b) as [|h t] eqn:Ehb; [by destruct (split_not_nil "#" b)|].
  rewrite (split_app "#" a ("#" +:+ b) [] a "" (h :: t)).
  - cbn. apply append_nil_r.
  - by apply split_single.
  - rewrite append_cons, append_nil_l. cbn. by rewrite Ehb.
Qed.

Lemma strip_fragment_none (href : string) :
  JS.includes "#" href = false → strip_fragment href = href.
Proof. unfold strip_fragment. by intros ->. Qed.

Lemma toc_push_new_cases (toc : list TocEntry) (label fullPath : string) :
  ((∃ t, t ∈ toc ∧ path t = fullPath) ∧ toc_push_new toc label fullPath = toc)
  ∨ ((∀ t, t ∈ toc → path t ≠ fullPath) ∧
     toc_push_new toc label fullPath = toc ++ [MkChapter label fullPath]).
Proof.
  unfold toc_push_new.
  destruct (find (fun t => String.eqb (path t) fullPath) toc) as [t|] eqn:E.
  - left. split; [|done]. apply find_some in E as [Hin Ht].
    exists t. split; [by apply list_elem_of_In|by apply String.eqb_eq].
  - right. split; [|done]. intros t Ht. apply String.eqb_neq.
    by apply (find_none_elem (fun t => String.eqb (path t) fullPath) toc).
Qed.

(** The table built from (label, href) pairs. *)
Lemma toc_fold_entries (opfDir : string) (cands : list (string * string))
  (acc : list TocEntry) :
  NoDup (path <$> acc) →
  let toc := fold_left (fun toc c => toc_push_new toc c.1 (resolve_href opfDir c.2))
               cands acc in
  NoDup (path <$> toc) ∧
  ∀ t, t ∈ toc ↔
    t ∈ acc ∨
    ∃ i label href, cands !! i = Some (label, href) ∧
      t = MkChapter label (resolve_href opfDir href) ∧
      (∀ t0, t0 ∈ acc → path t0 ≠ path t) ∧
      ∀ j label' href', (j < i)%nat → cands !! j = Some (label', href') →
        resolve_href opfDir href' ≠ path t.
Proof.
  revert acc. induction cands as [|[label href] cands IH]; intros acc Hnd; cbn.
  - split; [done|]. intros t. split; [by left|].
    intros [H|(i & ? & ? & H & _)]; [done|]. by rewrite lookup_nil in H.
  - destruct (toc_push_new_cases acc label (resolve_href opfDir href))
      as [[(t0 & Ht0 & Hp0) ->]|[Hfresh ->]].
    + destruct (IH acc Hnd) as [IH1 IH2]. split; [done|].
      intros t. rewrite IH2. split.
      * intros [H|(i & l & h & Hi & -> & Hacc & Hlt)]; [by left|]. right.
        exists (S i), l, h. split_and!; [done..|].
        intros [|j] l' h' Hj Hl'; cbn in Hl'.
        -- injection Hl' as <- <-. rewrite <- Hp0. by apply Hacc.
        -- apply (Hlt j l' h'); [lia|done].
      * intros [H|(i & l & h & Hi & -> & Hacc & Hlt)]; [by left|].
        destruct i as [|i]; cbn in Hi.
        -- injection Hi as <- <-. by destruct (Hacc t0 Ht0).
        -- right. exists i, l, h. split_and!; [done..|].
           intros j l' h' Hj Hl'. apply (Hlt (S j) l' h'); [lia|done].
    + assert (Hnd' : NoDup (path <$> acc ++ [MkChapter label (resolve_href opfDir href)])).
      { rewrite fmap_app. apply NoDup_app. split; [done|]. split.
        - intros p Hp Hp'. cbn in Hp'. apply list_elem_of_singleton in Hp' as ->.
          apply list_elem_of_fmap in Hp as (t0 & E & Ht0). by destruct (Hfresh t0 Ht0).
        - cbn. apply NoDup_singleton. }
      destruct (IH _ Hnd') as [IH1 IH2]. split; [done|].
      intros t. rewrite IH2. split.
      * intros [H|(i & l & h & Hi & -> & Hacc & Hlt)].
        -- apply elem_of_app in H as [H|H]; [by left|].
           apply list_elem_of_singleton in H as ->. right.
           exists 0%nat, label, href. split_and!; [done|done|..].
           ++ intros t0 Ht0. cbn. by apply Hfresh.
           ++ intros; lia.
        -- right. exists (S i), l, h. split_and!; [done|done|..].
           ++ intros t0 Ht0. apply Hacc. apply elem_of_app. by left.
           ++ intros [|j] l' h' Hj Hl'; cbn in Hl'.
              ** injection Hl' as <- <-.
                 apply (Hacc (MkChapter label (resolve_href opfDir href))).
                 apply elem_of_app. right. by apply list_elem_of_singleton.
              ** apply (Hlt j l' h'); [lia|done].
      * intros [H|(i & l & h & Hi & -> & Hacc & Hlt)].
        -- left. apply elem_of_app. by left.
        -- destruct i as [|i]; cbn in Hi.
           ++ injection Hi as <- <-. left. apply elem_of_app. right.
              by apply list_elem_of_singleton.
           ++ right. exists i, l, h. split_and!; [done|done|..].
              ** intros t0 Ht0. apply elem_of_app in Ht0 as [Ht0|Ht0].
                 --- by apply Hacc.
                 --- apply list_elem_of_singleton in Ht0 as ->. cbn.
                     apply (Hlt 0%nat label href); [lia|done].
              ** intros j l' h' Hj Hl'. apply (Hlt (S j) l' h'); [lia|done].
Qed.

Lemma toc_of_pairs (opfDir : string) (cands : list (string * string)) :
  tier_entries opfDir cands
    (fold_left (fun toc c => toc_push_new toc c.1 (resolve_href opfDir c.2))
       cands []).
Proof.
  destruct (toc_fold_entries opfDir cands []) as [H1 H2]; [constructor|].
  split; [done|]. intros t. rewrite H2. split.
  - intros [H|(i & l & h & Hi & -> & _ & Hlt)]; [by apply not_elem_of_nil in H|].
    eauto 10.
  - intros (i & l & h & Hi & -> & Hlt). right. exists i, l, h.
    split_and!; [done|done| |done]. intros t0 Ht0. by apply not_elem_of_nil in Ht0.
Qed.

Lemma fold_left_fmap {A B C} (f : A → B) (g : C → B → C) (l : list A) (c : C) :
  fold_left g (f <$> l) c = fold_left (fun c a => g c (f a)) l c.
Proof. revert c. induction l as [|a l IH]; intros c; [done|]. cbn. apply IH. Qed.

Lemma ncx_fold (opfDir ncxXml : string) :
  tier_entries opfDir (ncx_pairs ncxXml)
    (fold_left (ncx_step opfDir) (RegExp.execAll Patterns.navPointRegex ncxXml) []).
Proof.
  pose proof (toc_of_pairs opfDir (ncx_pairs ncxXml)) as H.
  unfold ncx_pairs in H at 2. change (map ?f ?l) with (f <$> l) in H.
  by rewrite fold_left_fmap in H.
Qed.

Lemma nav_fold (opfDir navXml : string) :
  tier_entries opfDir (nav_pairs navXml)
    (fold_left (nav_step opfDir) (RegExp.execAll Patterns.linkRegex navXml) []).
Proof.
  pose proof (toc_of_pairs opfDir (nav_pairs navXml)) as H.
  unfold nav_pairs in H at 2. change (map ?f ?l) with (f <$> l) in H.
  by rewrite fold_left_fmap in H.
Qed.

Lemma tier_entries_nil (opfDir : string) : tier_entries opfDir [] [].
Proof. apply (toc_of_pairs opfDir []). Qed.

End Toc.

Section Tiers.
Context {host : Host}.

Lemma match_dynamic_trace (source subject : string) tr r tr' :
  match_dynamic source subject tr = (r, tr') → tr' = tr.
Proof.
  unfold match_dynamic, bind, lift, ret.
  destruct (RegExp_new source); by intros [= _ <-].
Qed.

Lemma or_else_trace {A} (a b : M (option A)) tr r tr' :
  (∀ r t, a tr = (r, t) → t = tr) → (∀ r t, b tr = (r, t) → t = tr) →
  or_else a b tr = (r, tr') → tr' = tr.
Proof.
  intros Ha Hb. unfold or_else, bind, ret.
  destruct (a tr) as [[[x|]|e] t]; pose proof (Ha _ _ eq_refl) as ->.
  - by intros [= _ <-].
  - intros H. by apply Hb in H.
  - by intros [= _ <-].
Qed.

Lemma find_entry_elem (entries : list Entry) (name : string) (e : Entry) :
  find_entry entries name = Some e → e ∈ entries.
Proof.
  unfold find_entry. intros H. apply find_some in H as [H _].
  by apply list_elem_of_In.
Qed.

(** The legacy tier returns nothing without touching the archive, or
    the entries of one navigation-control document it read. *)
Lemma legacy_tier_Return entries opfXml opfDir tr toc tr' :
  legacy_tier entries opfXml opfDir tr = (Return toc, tr') →
  (toc = [] ∧ tr' = tr) ∨
  ∃ ncxEntry ncxXml,
    ncxEntry ∈ entries ∧ data ncxEntry = Some (Return ncxXml) ∧
    toc = fold_left (ncx_step opfDir)
            (RegExp.execAll Patterns.navPointRegex ncxXml) [] ∧
    tr' = tr ++ [EvGetData (filename ncxEntry)].
Proof.
  unfold legacy_tier. intros H.
  match type of H with
  | (match ?x with _ => _ end) _ = _ => destruct x as [ncxMatch|]
  end; [|left; by injection H as <- <-].
  cbv zeta in H. apply bind_Return in H as (hm & t1 & Hor & H).
  apply or_else_trace in Hor as ->;
    [|intros ? ?; apply match_dynamic_trace..].
  destruct hm as [hm|]; [|left; by injection H as <- <-].
  destruct (find_entry entries _) as [[name [d|]]|] eqn:Hf;
    [|left; by injection H as <- <-..].
  apply bind_Return in H as (ncxXml & t2 & Hd & H).
  apply getData_inv in Hd as [-> ->]. injection H as <- <-.
  right. exists (MkEntry name (Some (Return ncxXml))), ncxXml.
  split_and!; [|done..]. by eapply find_entry_elem.
Qed.

Lemma modern_tier_Return entries opfXml opfDir tr toc tr' :
  modern_tier entries opfXml opfDir tr = (Return toc, tr') →
  (toc = [] ∧ tr' = tr) ∨
  ∃ navEntry navXml,
    navEntry ∈ entries ∧ data navEntry = Some (Return navXml) ∧
    toc = fold_left (nav_step opfDir)
            (RegExp.execAll Patterns.linkRegex navXml) [] ∧
    tr' = tr ++ [EvGetData (filename navEntry)].
Proof.
  unfold modern_tier. intros H.
  match type of H with
  | (match ?x with _ => _ end) _ = _ => destruct x as [navMatch|]
  end; [|left; by injection H as <- <-].
  cbv zeta in H.
  destruct (find_entry entries _) as [[name [d|]]|] eqn:Hf;
    [|left; by injection H as <- <-..].
  apply bind_Return in H as (navXml & t2 & Hd & H).
  apply getData_inv in Hd as [-> ->]. injection H as <- <-.
  right. exists (MkEntry name (Some (Return navXml))), navXml.
  split_and!; [|done..]. by eapply find_entry_elem.
Qed.

Lemma getTOC_legacy_wins entries opfXml opfDir tr toc tr1 :
  legacy_tier entries opfXml opfDir tr = (Return toc, tr1) → toc ≠ [] →
  getTOCFromEntries entries opfXml opfDir tr = (Return toc, tr1).
Proof.
  intros H Hne. unfold getTOCFromEntries. rewrite (bind_eq _ _ _ _ _ H).
  by destruct toc.
Qed.

Lemma getTOC_fallback entries opfXml opfDir tr tr1 :
  legacy_tier entries opfXml opfDir tr = (Return [], tr1) →
  getTOCFromEntries entries opfXml opfDir tr
  = modern_tier entries opfXml opfDir tr1.
Proof.
  intros H. unfold getTOCFromEntries. by rewrite (bind_eq _ _ _ _ _ H).
Qed.

(** Whatever [getTOCFromEntries] returns was returned by a tier. *)
Lemma getTOC_Return entries opfXml opfDir tr toc tr' :
  getTOCFromEntries entries opfXml opfDir tr = (Return toc, tr') →
  (legacy_tier entries opfXml opfDir tr = (Return toc, tr') ∧ toc ≠ [])
  ∨ ∃ tr1, legacy_tier entries opfXml opfDir tr = (Return [], tr1) ∧
           modern_tier entries opfXml opfDir tr1 = (Return toc, tr').
Proof.
  unfold getTOCFromEntries. intros H.
  apply bind_Return in H as (t & tr1 & Hl & H).
  destruct t as [|x t]; cbn in H.
  - right. eauto.
  - left. by injection H as <- <-.
Qed.

End Tiers.

(** C4. On a package whose navigation-control item has the identifier
    n(cx, the legacy tier splices the identifier into the source of a
    pattern as it is. The pattern cannot be built, and
    [getTOCFromEntries] throws a SyntaxError before it reads anything:
    neither tier yields an entry, and the result is an error and not
    the empty table of contents. [getChapters] fails with the same
    error and leaves its handle open. With the identifier ncx in its
    place, the same archive gives the one entry of its
    navigation-control document. *)
Theorem toc_pattern_from_item_id :
  (∃ message,
     @getTOCFromEntries BasicHost.basic Samples.book_parenthesis
       Samples.opf_parenthesis "OEBPS/" []
     = (Throw (MkExn "SyntaxError" message), []))
  ∧ (∃ message,
       @getChapters BasicHost.basic (Samples.serving Samples.book_parenthesis)
         "lib" 1 []
       = (Throw (MkExn "SyntaxError" message),
          [EvOpen 0; EvGetEntries 0; EvGetData "META-INF/container.xml";
           EvGetData "OEBPS/content.opf"]))
  ∧ @getTOCFromEntries BasicHost.basic Samples.book_parenthesis
      Samples.opf_plain "OEBPS/" []
    = (Return [MkChapter "Chapter One" "OEBPS/text/ch01.html"],
       [EvGetData "OEBPS/toc.ncx"]).
Proof. split_and!; [eexists; by vm_compute..|by vm_compute]. Qed.

Section Spine.
Context {host : Host}.

(** The spine array holds, in document order and with repetitions, what
    each reference resolves to; references that resolve to nothing
    truthy leave no trace. *)
Lemma build_spine_order (manifest : gmap string string) (opfXml : string) :
  build_spine manifest opfXml
  = omap (resolved manifest) (spine_idrefs opfXml).
Proof.
  unfold build_spine, spine_idrefs.
  assert (Hgen : ∀ (ms : list RegExp.rmatch) (acc : list jsval),
    fold_left (spine_step manifest) ms acc
    = acc ++ omap (resolved manifest)
               (map (fun mt => to_string (RegExp.group 1 mt)) ms)).
  { induction ms as [|mt ms IH]; intros acc; cbn; [by rewrite app_nil_r|].
    rewrite IH. unfold spine_step, resolved.
    destruct (manifest_get manifest _) as [v|]; [|done].
    destruct (truthy_val (Some v)); [|done]. by rewrite <- app_assoc. }
  apply (Hgen _ []).
Qed.

(** A successful [getChapters] lists the paths of the spine in order. *)
Lemma chapters_in_spine_order this libraryId bookId tr chapters tr' :
  getChapters this libraryId bookId tr = (Return chapters, tr') →
  ∃ opfXml opfDir,
    map (fun c => VString (path c)) chapters
    = omap (resolved (build_manifest opfXml opfDir)) (spine_idrefs opfXml).
Proof.
  intros H. apply getChapters_Return in H
    as (? & ? & ? & ? & ? & fpm & ? & ? & opfXml & toc & ? & ? & H).
  destruct H as (_ & _ & _ & _ & _ & _ & _ & _ & _ & Hm & _).
  apply map_chapters_Return in Hm as [Hs _].
  eexists opfXml, _. rewrite <- Hs. apply build_spine_order.
Qed.

(** The table of contents only reads entries. *)
Lemma getTOC_trace entries opfXml opfDir tr toc tr' :
  getTOCFromEntries entries opfXml opfDir tr = (Return toc, tr') →
  ∃ names, tr' = tr ++ map EvGetData names.
Proof.
  intros H. apply getTOC_Return in H as [[H _]|(tr1 & Hl & Hm)].
  - apply legacy_tier_Return in H as [[_ ->]|(e & ? & _ & _ & _ & ->)].
    + exists []. by rewrite app_nil_r.
    + by exists [filename e].
  - apply legacy_tier_Return in Hl as [[_ ->]|(e & ? & _ & _ & _ & ->)];
      apply modern_tier_Return in Hm as [[_ ->]|(e' & ? & _ & _ & _ & ->)].
    + exists []. by rewrite app_nil_r.
    + by exists [filename e'].
    + by exists [filename e].
    + exists [filename e; filename e']. by rewrite <- app_assoc.
Qed.

Lemma closes_app (h : nat) (tr1 tr2 : list Event) :
  closes h (tr1 ++ tr2) = (closes h tr1 + closes h tr2)%nat.
Proof. unfold closes. by rewrite List.filter_app, length_app. Qed.

Lemma closes_getData (h : nat) (names : list string) :
  closes h (map EvGetData names) = 0%nat.
Proof. induction names as [|n names IH]; [done|]. apply IH. Qed.

(** When [getChapters] returns, it has closed its handle once. *)
Lemma getChapters_Return_closes this libraryId bookId tr chapters tr' :
  getChapters this libraryId bookId tr = (Return chapters, tr') →
  closes (opens tr) tr' = S (closes (opens tr) tr).
Proof.
  intros H. apply getChapters_Return in H
    as (? & ? & ? & ? & ? & fpm & ? & ? & opfXml & toc & tr1 & tr2 & H).
  destruct H as (_ & _ & _ & _ & _ & _ & _ & -> & Ht & _ & ->).
  apply getTOC_trace in Ht as [names ->].
  rewrite !closes_app, closes_getData.
  unfold closes. cbn [List.filter is_close_of]. rewrite Nat.eqb_refl.
  cbn [length]. lia.
Qed.

(** [getEpubFile] closes its handle once when it returns, and once
    before the error it throws itself for a missing entry. *)
Lemma getEpubFile_Return_closes this libraryId bookId filePath tr result tr' :
  getEpubFile this libraryId bookId filePath tr = (Return result, tr') →
  tr' = tr ++ [EvOpen (opens tr); EvGetEntries (opens tr); EvGetData filePath;
               EvClose (opens tr)].
Proof.
  unfold getEpubFile. intros H.
  apply bind_Return in H as (buffer & t1 & Hb & H).
  apply lift_inv in Hb as [Hb ->].
  apply bind_Return in H as (reader & t2 & Hr & H).
  unfold ZipReader_new in Hr. injection Hr as <- <-.
  apply bind_Return in H as (entries & t3 & He & H).
  unfold reader_getEntries, bind, emit, lift in He.
  destruct (zip_entries buffer) as [es|]; [|done]. injection He as -> <-.
  destruct (find_entry entries filePath) as [[name [d|]]|] eqn:Hf; [|done..].
  apply find_entry_name in Hf. cbn in Hf. subst name.
  apply bind_Return in H as (text & t4 & Hd & H).
  apply getData_inv in Hd as [_ ->].
  unfold reader_close, bind, emit, ret in H. injection H as _ <-.
  by rewrite <- !app_assoc.
Qed.

Lemma getEpubFile_missing_closes this libraryId bookId filePath tr buffer entries :
  upstream this libraryId bookId = Return buffer →
  zip_entries buffer = Return entries →
  find_entry entries filePath = None →
  getEpubFile this libraryId bookId filePath tr
  = (Throw (Error ("File " +:+ filePath +:+ " not found or is a directory in EPUB")),
     tr ++ [EvOpen (opens tr); EvGetEntries (opens tr); EvClose (opens tr)]).
Proof.
  intros Hb Hz Hf.
  unfold getEpubFile, getEpubBuffer, ZipReader_new, reader_getEntries,
    reader_close, bind, lift, emit, throw.
  rewrite Hb, Hz, Hf. by rewrite <- !app_assoc.
Qed.

End Spine.

(** C3. When [getChapters] returns, its chapters are the paths of the
    spine, each with the title of the first entry of the table of
    contents whose path is equal to the chapter's path, and with the
    final slash-delimited segment of its path when the table has no
    entry with that path. For the archive whose container pointer
    declares OEBPS/content.opf, whose manifest maps ch1 to
    text/ch01.html, whose spine refers to ch1 and which has no table of
    contents, the result is the single chapter titled ch01.html at
    OEBPS/text/ch01.html. *)
Theorem chapter_titles_from_toc :
  (∀ (host : Host) this libraryId bookId tr chapters tr',
     getChapters this libraryId bookId tr = (Return chapters, tr') →
     ∃ entries opfXml opfDir toc tr1 tr2,
       package_of this libraryId bookId entries opfXml opfDir ∧
       getTOCFromEntries entries opfXml opfDir tr1 = (Return toc, tr2) ∧
       map (fun c => VString (path c)) chapters
       = build_spine (build_manifest opfXml opfDir) opfXml ∧
       Forall (titled_by toc) chapters)
  ∧ @getChapters BasicHost.basic (Samples.serving Samples.book_one) "lib" 1 []
    = (Return [MkChapter "ch01.html" "OEBPS/text/ch01.html"],
       [EvOpen 0; EvGetEntries 0; EvGetData "META-INF/container.xml";
        EvGetData "OEBPS/content.opf"; EvClose 0]).
Proof.
  split; [|by vm_compute].
  intros host this libraryId bookId tr chapters tr' H.
  apply getChapters_Return in H
    as (buffer & entries & cname & ? & containerXml & fpm & oname & ? & opfXml
        & toc & tr1 & tr2 & H).
  destruct H as (Hb & Hz & Hc & -> & Hm & Ho & -> & _ & Ht & Hmap & _).
  exists entries, opfXml, (opfDir_of (to_string (RegExp.group 1 fpm))), toc, tr1, tr2.
  apply map_chapters_Return in Hmap as [Hs Hall].
  split_and!; [|done|done|].
  - by exists buffer, cname, containerXml, fpm, oname.
  - eapply Forall_impl; [exact Hall|]. intros c Hc'.
    by apply chapter_of_titled in Hc' as [_ ?].
Qed.

(** C9. Every path that [getChapters] returns is canonical: it has no
    empty segment, no [.] segment and no [..] segment, it neither starts
    nor ends with a slash, and the normalizer leaves it unchanged. *)
Theorem chapter_paths_canonical :
  ∀ (host : Host) this libraryId bookId tr chapters tr',
    getChapters this libraryId bookId tr = (Return chapters, tr') →
    Forall (fun c =>
      canonical (path c) = true ∧
      JS.startsWith "/" (path c) = false ∧
      JS.endsWith "/" (path c) = false ∧
      _normalizePath (path c) = path c) chapters.
Proof.
  intros host this libraryId bookId tr chapters tr' H.
  apply getChapters_Return in H
    as (? & entries & ? & ? & ? & fpm & ? & ? & opfXml & toc & tr1 & tr2 & H).
  destruct H as (_ & _ & _ & _ & _ & _ & _ & _ & _ & Hm & _).
  apply map_chapters_Return in Hm as [Hs _].
  apply Forall_forall. intros c Hc.
  assert (Hin : VString (path c)
                ∈ build_spine (build_manifest opfXml
                     (opfDir_of (to_string (RegExp.group 1 fpm)))) opfXml).
  { rewrite Hs. apply list_elem_of_In, in_map_iff. exists c.
    split; [done|]. by apply list_elem_of_In. }
  apply build_spine_elements in Hin as [Hne (idref & Hid)].
  apply build_manifest_values in Hid as [src Hx]. rewrite Hx in Hne |- *.
  pose proof (normalized_canonical src Hne) as Hcan.
  destruct (canonical_no_outer_slash _ Hcan) as [Hs1 Hs2].
  split_and!; [done..|]. apply normalize_idempotent.
Qed.


(** C1. On an archive whose spine names [constructor], an identifier
    the manifest does not declare, [getChapters] does not skip the
    reference: the manifest object answers with an inherited member, the
    reference is kept, and the call fails with a TypeError after the
    table of contents was read, leaving its handle open. *)
Theorem getChapters_inherited_idref :
  @getChapters BasicHost.basic (Samples.serving Samples.book_inherited) "lib" 1 []
  = (Throw (TypeError "path.split is not a function"),
     [EvOpen 0; EvGetEntries 0; EvGetData "META-INF/container.xml";
      EvGetData "OEBPS/content.opf"]).
Proof. by vm_compute. Qed.

(** C2. On an archive whose container pointer cannot be read,
    [getChapters] fails with the handle it opened never closed; so does
    [getEpubFile] on an archive whose requested entry cannot be read. *)
Theorem handle_left_open_on_failed_read :
  (∃ tr, @getChapters BasicHost.basic
           (Samples.serving Samples.book_unreadable) "lib" 1 []
         = (Throw (Error "File format is not recognized"), tr)
         ∧ opens tr = 1%nat ∧ closes 0 tr = 0%nat)
  ∧ (∃ tr, getEpubFile (Samples.serving Samples.book_unreadable_chapter)
             "lib" 1 "OEBPS/text/ch01.html" []
           = (Throw (Error "File format is not recognized"), tr)
           ∧ opens tr = 1%nat ∧ closes 0 tr = 0%nat).
Proof. split; eexists; (split; [by vm_compute|by vm_compute]). Qed.

(** ** Search in a book *)

Section SearchFacts.

(** Case analysis on the test of the cap in the goal. *)
Ltac case_cap E :=
  match goal with
  | |- context [(50 <=? ?n)%nat] => destruct (50 <=? n)%nat eqn:E
  end.

Lemma startsWith_empty (s : string) : JS.startsWith "" s = true.
Proof. by destruct s. Qed.

Lemma startsWith_length (q s : string) :
  JS.startsWith q s = true → (String.length q ≤ String.length s)%nat.
Proof.
  revert s. induction q as [|a q IH]; intros [|b s]; cbn; try done; try lia.
  intros [_ H]%andb_true_iff. apply IH in H. lia.
Qed.

Lemma length_drop (n : nat) (s : string) :
  String.length (JS.drop n s) = (String.length s - n)%nat.
Proof.
  revert s. induction n as [|n IH]; intros [|c s]; cbn; try done; apply IH.
Qed.

Lemma length_take (n : nat) (s : string) :
  String.length (JS.take n s) = Nat.min n (String.length s).
Proof.
  revert s. induction n as [|n IH]; intros [|c s]; cbn; try done;
    by rewrite IH.
Qed.

Lemma drop_all (n : nat) (s : string) :
  (String.length s ≤ n)%nat → JS.drop n s = "".
Proof.
  revert s. induction n as [|n IH]; intros [|c s]; cbn; try done; try lia.
  intros H. apply IH. lia.
Qed.

Lemma take_all (n : nat) (s : string) :
  (String.length s ≤ n)%nat → JS.take n s = s.
Proof.
  revert s. induction n as [|n IH]; intros [|c s]; cbn; try done; try lia.
  intros H. rewrite IH; [done|lia].
Qed.

Lemma drop_succ (n : nat) (s : string) (c : ascii) (s' : string) :
  JS.drop n s = String c s' → JS.drop (S n) s = s'.
Proof.
  revert s. induction n as [|n IH]; intros [|d s]; cbn; try done.
  - by intros [= _ ->].
  - apply IH.
Qed.

Lemma clamp_range (s : string) (i : Z) : 0 ≤ JS.clamp s i ≤ JS.len s.
Proof. unfold JS.clamp, JS.len. lia. Qed.

Lemma clamp_id (s : string) (i : Z) : 0 ≤ i ≤ JS.len s → JS.clamp s i = i.
Proof. unfold JS.clamp. lia. Qed.


(** The empty query is found wherever the search starts. *)
Lemma indexOf_from_empty (s : string) (pos : Z) : JS.indexOf_from "" s pos = pos.
Proof. destruct s; cbn; done. Qed.

Lemma indexOf_empty (text : string) (position : Z) :
  JS.indexOf text "" position = JS.clamp text position.
Proof. unfold JS.indexOf. apply indexOf_from_empty. Qed.

(** A query longer than the text from the cursor on is not found. *)
Lemma indexOf_from_long (q s : string) (pos : Z) :
  (String.length s < String.length q)%nat → JS.indexOf_from q s pos = -1.
Proof.
  revert pos. induction s as [|c s IH]; intros pos H.
  - cbn. destruct (JS.startsWith q "") eqn:E; [|done].
    apply startsWith_length in E. cbn in E. lia.
  - cbn [JS.indexOf_from]. destruct (JS.startsWith q (String c s)) eqn:E.
    + apply startsWith_length in E. lia.
    + apply IH. cbn in H. lia.
Qed.

Lemma indexOf_long (text q : string) (position : Z) :
  (String.length text < String.length q)%nat → JS.indexOf text q position = -1.
Proof.
  intros H. unfold JS.indexOf. apply indexOf_from_long.
  rewrite length_drop. lia.
Qed.

(** [results] stay at the front of what the scan returns. *)
Lemma scan_prefix fuel chapter md lmd q lq index results :
  ∃ found, scan fuel chapter md lmd q lq index results = results ++ found.
Proof.
  revert index results. induction fuel as [|fuel IH]; intros index results; cbn [scan].
  - exists []. by rewrite app_nil_r.
  - destruct (_ =? -1); [exists []; by rewrite app_nil_r|].
    case_cap E; [by eexists|].
    destruct (IH (JS.indexOf lmd lq (index + 1))
                (results ++ [hit_at chapter md q (JS.indexOf lmd lq (index + 1))]))
      as [found ->].
    rewrite <- app_assoc. by eexists.
Qed.

(** The scan never returns more than 50 hits. *)
Lemma scan_length fuel chapter md lmd q lq index results :
  (length results < 50)%nat →
  (length (scan fuel chapter md lmd q lq index results) ≤ 50)%nat.
Proof.
  revert index results. induction fuel as [|fuel IH]; intros index results H; cbn [scan].
  - lia.
  - destruct (_ =? -1); [lia|].
    case_cap E.
    + rewrite length_app. cbn. lia.
    + apply IH. by apply Nat.leb_gt in E.
Qed.

(** Fifty turns of fuel are enough: the result does not depend on the
    fuel once it covers the room left under the cap. *)
Lemma scan_fuel fuel1 fuel2 chapter md lmd q lq index results :
  (length results < 50)%nat →
  (50 - length results ≤ fuel1)%nat → (50 - length results ≤ fuel2)%nat →
  scan fuel1 chapter md lmd q lq index results
  = scan fuel2 chapter md lmd q lq index results.
Proof.
  revert fuel2 index results.
  induction fuel1 as [|fuel1 IH]; intros fuel2 index results H H1 H2; [lia|].
  destruct fuel2 as [|fuel2]; [lia|]. cbn [scan].
  destruct (_ =? -1); [done|].
  case_cap E; [done|].
  apply Nat.leb_gt in E. rewrite length_app in E. cbn in E.
  apply IH; rewrite ?length_app; cbn; lia.
Qed.

(** With the empty query every turn finds a match, so only the cap ends
    the scan. *)
Lemma scan_empty_query fuel chapter md lmd q index results :
  (length results < 50)%nat → (50 - length results ≤ fuel)%nat →
  length (scan fuel chapter md lmd q "" index results) = 50%nat.
Proof.
  revert index results. induction fuel as [|fuel IH]; intros index results H Hf;
    [lia|]. cbn [scan].
  rewrite indexOf_empty.
  pose proof (clamp_range lmd (index + 1)) as Hc.
  destruct (JS.clamp lmd (index + 1) =? -1) eqn:E; [lia|].
  case_cap E2.
  - apply Nat.leb_le in E2. rewrite length_app in E2 |- *. cbn in *. lia.
  - apply Nat.leb_gt in E2. rewrite length_app in E2. cbn in E2.
    apply IH; rewrite ?length_app; cbn; lia.
Qed.

(** A query longer than the text finds nothing. *)
Lemma scan_long_query fuel chapter md lmd q lq index results :
  (String.length lmd < String.length lq)%nat →
  scan fuel chapter md lmd q lq index results = results.
Proof.
  intros H. destruct fuel as [|fuel]; [done|]. cbn [scan].
  by rewrite indexOf_long.
Qed.

End SearchFacts.

Section Occurrences.

Lemma indexOf_at (text q : string) (pos : Z) :
  0 ≤ pos ≤ JS.len text →
  JS.indexOf text q pos = JS.indexOf_from q (JS.drop (Z.to_nat pos) text) pos.
Proof. intros H. unfold JS.indexOf. by rewrite clamp_id. Qed.

(** The scan depends on its cursor only through the next search. *)
Lemma scan_same_next fuel chapter md lmd q lq i1 i2 results :
  JS.indexOf lmd lq (i1 + 1) = JS.indexOf lmd lq (i2 + 1) →
  scan fuel chapter md lmd q lq i1 results
  = scan fuel chapter md lmd q lq i2 results.
Proof. intros H. destruct fuel; [done|]. cbn [scan]. by rewrite H. Qed.

Lemma drop_nonempty_lt (n : nat) (s : string) (c : ascii) (s' : string) :
  JS.drop n s = String c s' → (n < String.length s)%nat.
Proof.
  intros H. pose proof (length_drop n s) as Hl. rewrite H in Hl. cbn in Hl. lia.
Qed.

(** What [occurrences_from] lists. *)
Lemma elem_of_occurrences_from (q s : string) (pos i : Z) :
  i ∈ occurrences_from q s pos ↔
  ∃ k : nat, i = pos + Z.of_nat k ∧ (k ≤ String.length s)%nat ∧
             JS.startsWith q (JS.drop k s) = true.
Proof.
  revert pos. induction s as [|c s IH]; intros pos; cbn [occurrences_from].
  - rewrite app_nil_r. split.
    + destruct (JS.startsWith q "") eqn:E; [|by intros ?%not_elem_of_nil].
      intros ->%list_elem_of_singleton. exists 0%nat. cbn. split_and!; [lia|lia|done].
    + intros (k & -> & Hk & Hs). cbn in Hk. assert (k = 0%nat) as -> by lia.
      cbn in Hs. rewrite Hs. apply list_elem_of_singleton. lia.
  - rewrite elem_of_app, IH. split.
    + intros [H|(k & -> & Hk & Hs)].
      * destruct (JS.startsWith q (String c s)) eqn:E; [|by apply not_elem_of_nil in H].
        apply list_elem_of_singleton in H as ->. exists 0%nat.
        cbn. split_and!; [lia|lia|done].
      * exists (S k). cbn. split_and!; [lia|lia|done].
    + intros ([|k] & -> & Hk & Hs).
      * left. cbn in Hs. rewrite Hs. apply list_elem_of_singleton. lia.
      * right. exists k. cbn in Hk, Hs. split_and!; [lia|lia|done].
Qed.

(** The scan of a non-empty query finds the occurrences in order, as
    many as there is room for under the cap. *)
Lemma scan_occurrences chapter md lmd q lq :
  lq ≠ "" →
  ∀ s pos fuel results,
    0 ≤ pos → JS.drop (Z.to_nat pos) lmd = s → pos ≤ JS.len lmd →
    (length results < 50)%nat → (50 - length results ≤ fuel)%nat →
    map markdownOffset (scan fuel chapter md lmd q lq (pos - 1) results)
    = map markdownOffset results
      ++ take (50 - length results) (occurrences_from lq s pos).
Proof.
  intros Hq. induction s as [|c s IH]; intros pos fuel results Hp Hd Hl Hr Hf.
  - destruct fuel as [|fuel]; [lia|]. cbn [scan].
    replace (pos - 1 + 1) with pos by lia.
    rewrite indexOf_at by lia. rewrite Hd.
    assert (JS.startsWith lq "" = false) as E by by destruct lq.
    cbn. rewrite E. cbn. by rewrite take_nil, app_nil_r.
  - pose proof (drop_nonempty_lt _ _ _ _ Hd) as Hlt.
    assert (Hd' : JS.drop (Z.to_nat (pos + 1)) lmd = s).
    { replace (Z.to_nat (pos + 1)) with (S (Z.to_nat pos)) by lia.
      by eapply drop_succ. }
    assert (Hl' : pos + 1 ≤ JS.len lmd) by (unfold JS.len; lia).
    cbn [occurrences_from].
    destruct (JS.startsWith lq (String c s)) eqn:E.
    + destruct fuel as [|fuel]; [lia|]. cbn [scan].
      replace (pos - 1 + 1) with pos by lia.
      rewrite indexOf_at by lia. rewrite Hd. cbn [JS.indexOf_from]. rewrite E.
      destruct (pos =? -1) eqn:E1; [lia|].
      rewrite length_app. cbn [length].
      destruct (50 <=? length results + 1)%nat eqn:E2.
      * apply Nat.leb_le in E2.
        replace (50 - length results)%nat with 1%nat by lia.
        by rewrite map_app.
      * apply Nat.leb_gt in E2.
        replace pos with (pos + 1 - 1) at 1 by lia.
        rewrite IH; [|lia|done|lia|rewrite length_app; cbn; lia..].
        rewrite map_app, length_app. cbn [map length markdownOffset hit_at].
        replace (50 - length results)%nat with (S (50 - (length results + 1))) by lia.
        cbn [app take]. by rewrite <- app_assoc.
    + cbn [app].
      rewrite (scan_same_next _ _ _ _ _ _ (pos - 1) (pos + 1 - 1)).
      * apply IH; [lia|done|lia|done|done].
      * replace (pos - 1 + 1) with pos by lia.
        replace (pos + 1 - 1 + 1) with (pos + 1) by lia.
        rewrite !indexOf_at by lia. rewrite Hd, Hd'.
        cbn [JS.indexOf_from]. by rewrite E.
Qed.

Lemma toLowerCase_nonempty (s : string) : s ≠ "" → JS.toLowerCase s ≠ "".
Proof. by destruct s. Qed.

(** Every hit of a scan lies in the chapter scanned. *)
Lemma scan_in_chapter fuel chapter md lmd q lq index results :
  Forall (fun h => chapterPath h = path chapter ∧ chapterTitle h = title chapter)
    results →
  Forall (fun h => chapterPath h = path chapter ∧ chapterTitle h = title chapter)
    (scan fuel chapter md lmd q lq index results).
Proof.
  revert index results. induction fuel as [|fuel IH]; intros index results H;
    [done|]. cbn [scan].
  destruct (_ =? -1); [done|].
  assert (Forall (fun h => chapterPath h = path chapter ∧ chapterTitle h = title chapter)
            (results ++ [hit_at chapter md q (JS.indexOf lmd lq (index + 1))])).
  { apply Forall_app. split; [done|]. by constructor. }
  destruct (50 <=? _)%nat; [done|]. by apply IH.
Qed.

(** The offsets of the empty query: the cursor walks to the end of the
    text and stays there. *)
Lemma scan_empty_offsets chapter md lmd q :
  ∀ fuel index results,
    -1 ≤ index → (length results < 50)%nat → (50 - length results ≤ fuel)%nat →
    map markdownOffset (scan fuel chapter md lmd q "" index results)
    = map markdownOffset results
      ++ map (fun k : nat => Z.min (index + 1 + Z.of_nat k) (JS.len lmd))
           (seq 0 (50 - length results)).
Proof.
  induction fuel as [|fuel IH]; intros index results Hi Hr Hf; [lia|].
  cbn [scan]. rewrite indexOf_empty.
  pose proof (clamp_range lmd (index + 1)) as Hc.
  destruct (JS.clamp lmd (index + 1) =? -1) eqn:E; [lia|].
  rewrite length_app. cbn [length].
  replace (50 - length results)%nat with (S (50 - (length results + 1))) by lia.
  cbn [seq map].
  assert (Hcl : JS.clamp lmd (index + 1) = Z.min (index + 1 + Z.of_nat 0) (JS.len lmd)).
  { unfold JS.clamp. lia. }
  destruct (50 <=? length results + 1)%nat eqn:E2.
  - apply Nat.leb_le in E2.
    replace (50 - (length results + 1))%nat with 0%nat by lia.
    rewrite map_app. cbn. by rewrite Hcl.
  - apply Nat.leb_gt in E2.
    rewrite IH; [|lia|rewrite length_app; cbn; lia..].
    rewrite map_app, length_app, <- app_assoc. cbn [map length app markdownOffset hit_at].
    f_equal. f_equal; [done|].
    rewrite <- seq_shift, map_map. apply map_ext. intros k.
    unfold JS.clamp. lia.
Qed.

(** The hits a scan adds are found one after the other, each search
    starting one code unit after the start of the match before. *)
Lemma scan_chained fuel chapter md lmd q lq :
  ∀ index results,
    ∃ found,
      scan fuel chapter md lmd q lq index results = results ++ found ∧
      chained lmd lq index (map markdownOffset found).
Proof.
  induction fuel as [|fuel IH]; intros index results; cbn [scan].
  - exists []. by rewrite app_nil_r.
  - destruct (JS.indexOf lmd lq (index + 1) =? -1) eqn:E.
    { exists []. by rewrite app_nil_r. }
    apply Z.eqb_neq in E.
    destruct (50 <=? _)%nat.
    + eexists [_]. split; [done|]. cbn. done.
    + destruct (IH (JS.indexOf lmd lq (index + 1))
                  (results ++ [hit_at chapter md q (JS.indexOf lmd lq (index + 1))]))
        as (found & -> & Hch).
      eexists (_ :: found). rewrite <- app_assoc. split; [done|]. cbn. done.
Qed.

End Occurrences.

Section BookSearch.

Lemma scan_chapter_length chapter content query results :
  (length results < 50)%nat →
  (length (scan_chapter chapter content query results) ≤ 50)%nat.
Proof. apply scan_length. Qed.

Lemma search_chapters_length this libraryId bookId query chapters :
  ∀ results tr hits tr',
    (length results < 50)%nat →
    search_chapters this libraryId bookId query chapters results tr
    = (Return hits, tr') →
    (length hits ≤ 50)%nat.
Proof.
  induction chapters as [|chapter more IH]; intros results tr hits tr' Hr H.
  - injection H as <- <-. lia.
  - cbn [search_chapters] in H.
    apply bind_Return in H as (content & tr1 & Hc & H). cbv zeta in H.
    pose proof (scan_chapter_length chapter content query results Hr) as Hlen.
    destruct (50 <=? length (scan_chapter chapter content query results))%nat eqn:E.
    + by injection H as <- <-.
    + apply Nat.leb_gt in E. by eapply IH.
Qed.

(** Once a chapter brings the hits to 50, the chapters after it are not
    opened. *)
Lemma search_chapters_stop this libraryId bookId query chapter more results
  tr content tr1 :
  getChapterContent this libraryId bookId (path chapter) tr = (Return content, tr1) →
  (50 ≤ length (scan_chapter chapter content query results))%nat →
  search_chapters this libraryId bookId query (chapter :: more) results tr
  = (Return (scan_chapter chapter content query results), tr1).
Proof.
  intros Hc Hlen. cbn [search_chapters]. rewrite (bind_eq _ _ _ _ _ Hc).
  cbv zeta. apply Nat.leb_le in Hlen. by rewrite Hlen.
Qed.

Lemma scan_chapter_occurrences chapter content query results :
  query ≠ "" → (length results < 50)%nat →
  map markdownOffset (scan_chapter chapter content query results)
  = map markdownOffset results
    ++ take (50 - length results)
         (occurrences (JS.toLowerCase (htmlToMarkdown content))
            (JS.toLowerCase query)).
Proof.
  intros Hq Hr. unfold scan_chapter, occurrences.
  change (-1) with (0 - 1).
  apply scan_occurrences; [by apply toLowerCase_nonempty|lia|done| |done|lia].
  unfold JS.len. lia.
Qed.

End BookSearch.

(** C10, as amended. When the first chapter of the book can be read,
    [searchInBook] with the empty query returns exactly 50 hits, all of
    them in that chapter and without opening another: the empty query
    is found wherever the search starts (never -1), the cursor walks to
    the end of the folded text and stays there, and only the cap of 50
    ends the scan. *)
Theorem empty_query_fills_cap :
  ∀ (host : Host) this libraryId bookId tr chapter more tr1 content tr2,
    getChapters this libraryId bookId tr = (Return (chapter :: more), tr1) →
    getChapterContent this libraryId bookId (path chapter) tr1
    = (Return content, tr2) →
    ∃ hits,
      searchInBook this libraryId bookId "" tr = (Return hits, tr2) ∧
      length hits = 50%nat ∧
      Forall (fun h => chapterPath h = path chapter) hits ∧
      map markdownOffset hits
      = map (fun k : nat =>
               Z.min (Z.of_nat k)
                 (JS.len (JS.toLowerCase (htmlToMarkdown content))))
          (seq 0 50) ∧
      ∀ text position, JS.indexOf text "" position ≠ -1.
Proof.
  intros host this libraryId bookId tr chapter more tr1 content tr2 Hg Hc.
  exists (scan_chapter chapter content "" []).
  assert (Hlen : length (scan_chapter chapter content "" []) = 50%nat).
  { unfold scan_chapter. apply scan_empty_query; cbn; lia. }
  split_and!.
  - unfold searchInBook. rewrite (bind_eq _ _ _ _ _ Hg).
    apply search_chapters_stop; [done|lia].
  - done.
  - eapply Forall_impl; [apply scan_in_chapter; constructor|]. by intros h [? _].
  - unfold scan_chapter.
    rewrite scan_empty_offsets; [|lia|cbn; lia..].
    cbn [map length app]. apply map_ext. intros k. lia.
  - intros text position. rewrite indexOf_empty.
    pose proof (clamp_range text position). lia.
Qed.

(** ** The chunked reader *)

Section Reader.

Lemma drop_zero (s : string) : JS.drop 0 s = s.
Proof. by destruct s. Qed.

Lemma substring_clamped (text : string) (a b : Z) :
  JS.substring text a b
  = JS.substring text (JS.clamp text a) (JS.clamp text b).
Proof.
  unfold JS.substring.
  by rewrite !(clamp_id text (JS.clamp text _)) by apply clamp_range.
Qed.

Lemma substring_in_range (text : string) (a b : Z) :
  0 ≤ a → a ≤ b → b ≤ JS.len text →
  JS.substring text a b
  = JS.take (Z.to_nat (b - a)) (JS.drop (Z.to_nat a) text).
Proof.
  intros Ha Hab Hb. unfold JS.substring.
  rewrite !clamp_id by lia. by rewrite Z.min_l, Z.max_r by lia.
Qed.

Lemma substring_length (text : string) (a b : Z) :
  Z.of_nat (String.length (JS.substring text a b))
  = Z.abs (JS.clamp text b - JS.clamp text a).
Proof.
  unfold JS.substring. cbv zeta. rewrite length_take, length_drop.
  pose proof (clamp_range text a). pose proof (clamp_range text b).
  unfold JS.len in *. lia.
Qed.

Lemma read_chunk_whole (text : string) (length : Z) :
  JS.len text ≤ length → read_chunk text 0 length = text.
Proof.
  intros H. unfold read_chunk. rewrite Z.add_0_l.
  replace (length <? JS.len text) with false by (symmetry; apply Z.ltb_ge; lia).
  assert (0 ≤ JS.len text) as Hlen by (unfold JS.len; lia).
  rewrite substring_clamped.
  replace (JS.clamp text 0) with 0 by (unfold JS.clamp; lia).
  replace (JS.clamp text length) with (JS.len text) by (unfold JS.clamp; lia).
  rewrite substring_in_range by lia.
  rewrite drop_zero. apply take_all. unfold JS.len. lia.
Qed.

Lemma read_chunk_past_end (text : string) (offset length : Z) :
  JS.len text ≤ offset → 0 ≤ length → read_chunk text offset length = "".
Proof.
  intros Ho Hl. unfold read_chunk.
  replace (offset + length <? JS.len text) with false
    by (symmetry; apply Z.ltb_ge; lia).
  assert (0 ≤ JS.len text) as Hlen by (unfold JS.len; lia).
  rewrite substring_clamped.
  replace (JS.clamp text offset) with (JS.len text) by (unfold JS.clamp; lia).
  replace (JS.clamp text (offset + length)) with (JS.len text)
    by (unfold JS.clamp; lia).
  rewrite substring_in_range by lia.
  rewrite Z.sub_diag. by destruct (JS.drop _ text).
Qed.

End Reader.

(** C5, as amended. The reader returns [text.substring(offset,
    offset + length)], followed by a marker that states [offset + length]
    exactly when [offset + length < text.length]. [substring] clamps
    both bounds to the text and never fails. With [length >=
    text.length] and offset 0 the result is the whole text without a
    marker; with [offset >= text.length] and a length that is not
    negative the result is the empty string. *)
Theorem read_chunk_window :
  (∀ text offset length, offset + length < JS.len text →
     read_chunk text offset length
     = JS.substring text offset (offset + length)
       +:+ truncation_marker (offset + length))
  ∧ (∀ text offset length, JS.len text ≤ offset + length →
       read_chunk text offset length = JS.substring text offset (offset + length))
  ∧ (∀ next, ∃ before after_,
       truncation_marker next = before +:+ number_to_string next +:+ after_)
  ∧ (∀ text length, JS.len text ≤ length → read_chunk text 0 length = text)
  ∧ (∀ text offset length, JS.len text ≤ offset → 0 ≤ length →
       read_chunk text offset length = "")
  ∧ (∀ text a b, JS.substring text a b
                 = JS.substring text (JS.clamp text a) (JS.clamp text b))
  ∧ (∀ text a b, 0 ≤ a → a ≤ b → b ≤ JS.len text →
       JS.substring text a b
       = JS.take (Z.to_nat (b - a)) (JS.drop (Z.to_nat a) text)).
Proof.
  split_and!.
  - intros text offset length H. unfold read_chunk.
    by replace (offset + length <? JS.len text) with true
      by (symmetry; apply Z.ltb_lt; lia).
  - intros text offset length H. unfold read_chunk.
    by replace (offset + length <? JS.len text) with false
      by (symmetry; apply Z.ltb_ge; lia).
  - intros next. unfold truncation_marker.
    exists (nl +:+ nl +:+ "... (truncated, use offset "), " to read more)".
    by rewrite !append_assoc.
  - apply read_chunk_whole.
  - apply read_chunk_past_end.
  - apply substring_clamped.
  - apply substring_in_range.
Qed.

(** ** Instances of the statements on the sample archives *)

Lemma read_chunk_window_witness : read_chunk "hello" 0 10 = "hello".
Proof.
  apply (proj1 (proj2 (proj2 (proj2 read_chunk_window))) "hello" 10).
  by vm_compute.
Defined.

(** With a negative length the reader returns text although the offset
    is at the end of the text. *)
Lemma read_chunk_negative_length :
  ¬ (∀ text offset length,
       JS.len text ≤ offset → read_chunk text offset length = "").
Proof.
  intros H. specialize (H "hello" 5 (-3)).
  assert (JS.len "hello" ≤ 5) as Hle by by vm_compute.
  apply H in Hle. by vm_compute in Hle.
Qed.

Lemma chapter_titles_from_toc_witness :
  ∃ entries opfXml opfDir toc tr1 tr2,
    package_of (Samples.serving Samples.book_two) "lib" 1 entries opfXml opfDir ∧
    @getTOCFromEntries BasicHost.basic entries opfXml opfDir tr1
    = (Return toc, tr2) ∧
    map (fun c => VString (path c))
      [ MkChapter "Chapter One" "OEBPS/text/ch01.html";
        MkChapter "ch02.html" "OEBPS/text/ch02.html";
        MkChapter "Chapter One" "OEBPS/text/ch01.html" ]
    = @build_spine (@build_manifest BasicHost.basic opfXml opfDir) opfXml ∧
    Forall (titled_by toc)
      [ MkChapter "Chapter One" "OEBPS/text/ch01.html";
        MkChapter "ch02.html" "OEBPS/text/ch02.html";
        MkChapter "Chapter One" "OEBPS/text/ch01.html" ].
Proof.
  apply (proj1 chapter_titles_from_toc BasicHost.basic
           (Samples.serving Samples.book_two) "lib" 1 []
           _ [EvOpen 0; EvGetEntries 0; EvGetData "META-INF/container.xml";
              EvGetData "OEBPS/content.opf"; EvGetData "OEBPS/toc.ncx";
              EvClose 0]).
  by vm_compute.
Defined.


Lemma chapter_paths_canonical_witness :
  Forall (fun c =>
    canonical (path c) = true ∧
    JS.startsWith "/" (path c) = false ∧
    JS.endsWith "/" (path c) = false ∧
    _normalizePath (path c) = path c)
    [ MkChapter "Chapter One" "OEBPS/text/ch01.html";
      MkChapter "ch02.html" "OEBPS/text/ch02.html";
      MkChapter "Chapter One" "OEBPS/text/ch01.html" ].
Proof.
  apply (chapter_paths_canonical BasicHost.basic
           (Samples.serving Samples.book_two) "lib" 1 []
           _ [EvOpen 0; EvGetEntries 0; EvGetData "META-INF/container.xml";
              EvGetData "OEBPS/content.opf"; EvGetData "OEBPS/toc.ncx";
              EvClose 0]).
  by vm_compute.
Defined.

Lemma empty_query_fills_cap_witness :
  ∃ hits,
    @searchInBook BasicHost.basic (Samples.serving Samples.book_one) "lib" 1 "" []
    = (Return hits,
       [EvOpen 0; EvGetEntries 0; EvGetData "META-INF/container.xml";
        EvGetData "OEBPS/content.opf"; EvClose 0;
        EvOpen 1; EvGetEntries 1; EvGetData "OEBPS/text/ch01.html";
        EvClose 1]) ∧
    length hits = 50%nat ∧
    Forall (fun h => chapterPath h = "OEBPS/text/ch01.html") hits ∧
    map markdownOffset hits
    = map (fun k : nat =>
             Z.min (Z.of_nat k)
               (JS.len (JS.toLowerCase
                  (htmlToMarkdown "<html><body><h1>One</h1><p>aaa</p></body></html>"))))
        (seq 0 50) ∧
    ∀ text position, JS.indexOf text "" position ≠ -1.
Proof.
  apply (empty_query_fills_cap BasicHost.basic
           (Samples.serving Samples.book_one) "lib" 1 []
           (MkChapter "ch01.html" "OEBPS/text/ch01.html") []
           [EvOpen 0; EvGetEntries 0; EvGetData "META-INF/container.xml";
            EvGetData "OEBPS/content.opf"; EvClose 0]).
  - by vm_compute.
  - by vm_compute.
Defined.

(** The chapter list of the sample holds a chapter that resolves, yet
    the search with the empty query fails on the chapter before it. *)
Lemma empty_query_unreadable_first_chapter :
  ¬ (∀ (host : Host) this libraryId bookId tr chapters tr1,
       getChapters this libraryId bookId tr = (Return chapters, tr1) →
       (∃ c, c ∈ chapters ∧ resolves this libraryId bookId (path c)) →
       ∃ hits tr2,
         searchInBook this libraryId bookId "" tr = (Return hits, tr2) ∧
         length hits = 50%nat).
Proof.
  intros H.
  destruct (H BasicHost.basic (Samples.serving Samples.book_ghost) "lib" 1 []
              [ MkChapter "ghost.html" "OEBPS/text/ghost.html";
                MkChapter "ch01.html" "OEBPS/text/ch01.html" ]
              [EvOpen 0; EvGetEntries 0; EvGetData "META-INF/container.xml";
               EvGetData "OEBPS/content.opf"; EvClose 0])
    as (hits & tr2 & Hs & _).
  - by vm_compute.
  - exists (MkChapter "ch01.html" "OEBPS/text/ch01.html"). split.
    + apply list_elem_of_In. right. by left.
    + exists (MkBuffer (Return Samples.book_ghost)), Samples.book_ghost,
        "OEBPS/text/ch01.html", Samples.ch01. by vm_compute.
  - by vm_compute in Hs.
Qed.

(** * Further properties *)

(** ** Reading the archive *)

Section ArchiveReads.

(** What a successful read of a file went through. *)
Lemma getEpubFile_Return this libraryId bookId filePath tr text tr' :
  getEpubFile this libraryId bookId filePath tr = (Return text, tr') ↔
  stored_text this libraryId bookId filePath text ∧
  tr' = tr ++ [EvOpen (opens tr); EvGetEntries (opens tr);
               EvGetData filePath; EvClose (opens tr)].
Proof.
  split.
  - intros H. split; [|by eapply getEpubFile_Return_closes].
    unfold getEpubFile in H.
    apply bind_Return in H as (buffer & t1 & Hb & H).
    apply lift_inv in Hb as [Hb ->].
    apply bind_Return in H as (reader & t2 & Hr & H).
    unfold ZipReader_new in Hr. injection Hr as <- <-.
    apply bind_Return in H as (entries & t3 & He & H).
    unfold reader_getEntries, bind, emit, lift in He.
    destruct (zip_entries buffer) as [es|] eqn:Hz; [|done]. injection He as -> <-.
    destruct (find_entry entries filePath) as [[name [d|]]|] eqn:Hf; [|done..].
    apply bind_Return in H as (text' & t4 & Hd & H).
    apply getData_inv in Hd as [-> ->].
    unfold reader_close, bind, emit, ret in H. injection H as <- <-.
    by exists buffer, entries, name.
  - intros [(buffer & entries & name & Hb & Hz & Hf) ->].
    pose proof (find_entry_name _ _ _ Hf) as Hn. cbn in Hn. subst name.
    unfold getEpubFile, getEpubBuffer, ZipReader_new, reader_getEntries,
      reader_close, getData, bind, lift, emit, ret.
    rewrite Hb, Hz, Hf. cbn. by rewrite <- !app_assoc.
Qed.

Lemma getEpubFile_refused this libraryId bookId filePath tr buffer entries :
  upstream this libraryId bookId = Return buffer →
  zip_entries buffer = Return entries →
  (find_entry entries filePath = None
   ∨ ∃ name, find_entry entries filePath = Some (MkEntry name None)) →
  getEpubFile this libraryId bookId filePath tr
  = (Throw (Error ("File " +:+ filePath +:+ " not found or is a directory in EPUB")),
     tr ++ [EvOpen (opens tr); EvGetEntries (opens tr); EvClose (opens tr)]).
Proof.
  intros Hb Hz Hf.
  unfold getEpubFile, getEpubBuffer, ZipReader_new, reader_getEntries,
    reader_close, bind, lift, emit, throw.
  rewrite Hb, Hz. destruct Hf as [->|[name ->]]; by rewrite <- !app_assoc.
Qed.

(** X1. [getChapterContent] returns a text exactly when the archive
    served for the book has a readable entry of that name as the first
    entry of the name, and the text is the stored text of that entry,
    unchanged; the call opens one handle, reads that one entry and
    closes the handle. *)
Theorem chapter_content_is_stored_text :
  ∀ this libraryId bookId chapterPath tr text tr',
    getChapterContent this libraryId bookId chapterPath tr = (Return text, tr') ↔
    stored_text this libraryId bookId chapterPath text ∧
    tr' = tr ++ [EvOpen (opens tr); EvGetEntries (opens tr);
                 EvGetData chapterPath; EvClose (opens tr)].
Proof. intros. unfold getChapterContent. apply getEpubFile_Return. Qed.

(** What [getEpubFile] does with an entry that has the [getData]
    member: it reads it, and closes the handle only if the read
    succeeds. *)
Lemma getEpubFile_reads this libraryId bookId filePath tr buffer entries name d :
  upstream this libraryId bookId = Return buffer →
  zip_entries buffer = Return entries →
  find_entry entries filePath = Some (MkEntry name (Some d)) →
  getEpubFile this libraryId bookId filePath tr
  = (d, tr ++ [EvOpen (opens tr); EvGetEntries (opens tr); EvGetData filePath]
           ++ match d with Return _ => [EvClose (opens tr)] | Throw _ => [] end).
Proof.
  intros Hb Hz Hf.
  pose proof (find_entry_name _ _ _ Hf) as Hn. cbn in Hn. subst name.
  unfold getEpubFile, getEpubBuffer, ZipReader_new, reader_getEntries,
    reader_close, getData, bind, lift, emit, ret.
  rewrite Hb, Hz, Hf. cbn. destruct d; by rewrite <- !app_assoc.
Qed.

(** X2. When the archive can be listed, [getEpubFile] refuses a path
    exactly when the archive has no entry of that name, or the first
    entry of that name is an object without the [getData] member: it
    then throws its own error, naming the path, after closing the handle
    it opened, and no entry is read. An entry that has the member is
    always read, a directory as the reader library presents it
    included; the outcome is that of the read, and the handle is closed
    only if the read succeeds. *)
Theorem getEpubFile_refuses_missing_entry :
  ∀ this libraryId bookId filePath tr buffer entries,
    upstream this libraryId bookId = Return buffer →
    zip_entries buffer = Return entries →
    ((find_entry entries filePath = None
      ∨ ∃ name, find_entry entries filePath = Some (MkEntry name None)) →
     getEpubFile this libraryId bookId filePath tr
     = (Throw (Error ("File " +:+ filePath +:+ " not found or is a directory in EPUB")),
        tr ++ [EvOpen (opens tr); EvGetEntries (opens tr); EvClose (opens tr)]))
    ∧ (∀ name d,
         find_entry entries filePath = Some (MkEntry name (Some d)) →
         getEpubFile this libraryId bookId filePath tr
         = (d, tr ++ [EvOpen (opens tr); EvGetEntries (opens tr);
                      EvGetData filePath]
                  ++ match d with
                     | Return _ => [EvClose (opens tr)]
                     | Throw _ => []
                     end)).
Proof.
  intros this libraryId bookId filePath tr buffer entries Hb Hz. split.
  - intros Hf. by eapply getEpubFile_refused.
  - intros name d Hf. by eapply getEpubFile_reads.
Qed.

(** What a successful listing went through. *)
Lemma getEpubContents_Return this libraryId bookId tr names tr' :
  getEpubContents this libraryId bookId tr = (Return names, tr') ↔
  (∃ buffer entries,
     upstream this libraryId bookId = Return buffer ∧
     zip_entries buffer = Return entries ∧ names = map filename entries) ∧
  tr' = tr ++ [EvOpen (opens tr); EvGetEntries (opens tr); EvClose (opens tr)].
Proof.
  unfold getEpubContents, getEpubBuffer, ZipReader_new, reader_getEntries,
    reader_close, bind, lift, emit, ret.
  split.
  - destruct (upstream this libraryId bookId) as [buffer|]; [|done].
    destruct (zip_entries buffer) as [entries|] eqn:Hz; [|done].
    intros [= <- <-]. split; [by exists buffer, entries|].
    by rewrite <- !app_assoc.
  - intros [(buffer & entries & -> & -> & ->) ->]. by rewrite <- !app_assoc.
Qed.

(** X3. [getEpubContents] lists the names of all entries of the archive,
    directories included, in archive order, and closes the handle it
    opened. [getEpubFile] returns a text only for a name of that list,
    and throws for every name that is not in it. *)
Theorem listed_files_are_the_readable_ones :
  ∀ this libraryId bookId tr names tr',
    getEpubContents this libraryId bookId tr = (Return names, tr') →
    (∃ buffer entries,
       upstream this libraryId bookId = Return buffer ∧
       zip_entries buffer = Return entries ∧ names = map filename entries) ∧
    tr' = tr ++ [EvOpen (opens tr); EvGetEntries (opens tr); EvClose (opens tr)] ∧
    (∀ filePath tr1 text tr1',
       getEpubFile this libraryId bookId filePath tr1 = (Return text, tr1') →
       filePath ∈ names) ∧
    (∀ filePath tr1, filePath ∉ names →
       ∃ e tr1', getEpubFile this libraryId bookId filePath tr1 = (Throw e, tr1')).
Proof.
  intros this libraryId bookId tr names tr' H.
  apply getEpubContents_Return in H as [(buffer & entries & Hb & Hz & ->) ->].
  split; [by exists buffer, entries|]. split; [done|]. split.
  - intros filePath tr1 text tr1' Hf.
    apply getEpubFile_Return in Hf as [(b & es & name & Hb' & Hz' & Hf) _].
    rewrite Hb in Hb'. injection Hb' as <-. rewrite Hz in Hz'. injection Hz' as <-.
    pose proof (find_entry_name _ _ _ Hf) as Hn. cbn in Hn. subst name.
    apply find_entry_elem in Hf.
    apply list_elem_of_fmap. by eexists (MkEntry filePath _).
  - intros filePath tr1 Hnot.
    assert (find_entry entries filePath = None) as Hf.
    { destruct (find_entry entries filePath) as [e|] eqn:E; [|done].
      exfalso. apply Hnot. apply list_elem_of_fmap. exists e.
      split; [by rewrite (find_entry_name _ _ _ E)|by eapply find_entry_elem]. }
    eexists _, _.
    apply (getEpubFile_refused _ _ _ _ _ buffer entries); [done..|by left].
Qed.

End ArchiveReads.

Lemma chapter_content_is_stored_text_witness :
  getChapterContent (Samples.serving Samples.book_one) "lib" 1
    "OEBPS/text/ch01.html" []
  = (Return "<html><body><h1>One</h1><p>aaa</p></body></html>",
     [] ++ [EvOpen (opens []); EvGetEntries (opens []);
            EvGetData "OEBPS/text/ch01.html"; EvClose (opens [])]).
Proof.
  apply (proj2 (chapter_content_is_stored_text
                  (Samples.serving Samples.book_one) "lib" 1
                  "OEBPS/text/ch01.html" [] _ _)).
  split; [|reflexivity].
  exists (MkBuffer (Return Samples.book_one)), Samples.book_one,
    "OEBPS/text/ch01.html". by vm_compute.
Defined.

Lemma getEpubFile_refuses_missing_entry_witness :
  getEpubFile (Samples.serving Samples.book_one) "lib" 1 "OEBPS/text/ch09.html" []
  = (Throw (Error ("File " +:+ "OEBPS/text/ch09.html"
                   +:+ " not found or is a directory in EPUB")),
     [] ++ [EvOpen (opens []); EvGetEntries (opens []); EvClose (opens [])])
  ∧ getEpubFile (Samples.serving Samples.book_one) "lib" 1 "META-INF/" []
    = (Return "",
       [] ++ [EvOpen (opens []); EvGetEntries (opens []); EvGetData "META-INF/"]
          ++ [EvClose (opens [])]).
Proof.
  split.
  - apply (proj1 (getEpubFile_refuses_missing_entry
                    (Samples.serving Samples.book_one) "lib" 1
                    "OEBPS/text/ch09.html" []
                    (MkBuffer (Return Samples.book_one)) Samples.book_one
                    eq_refl eq_refl)).
    left. by vm_compute.
  - apply (proj2 (getEpubFile_refuses_missing_entry
                    (Samples.serving Samples.book_one) "lib" 1
                    "META-INF/" []
                    (MkBuffer (Return Samples.book_one)) Samples.book_one
                    eq_refl eq_refl) "META-INF/" (Return "")).
    by vm_compute.
Defined.

Lemma listed_files_are_the_readable_ones_witness :
  "OEBPS/text/ch01.html"
  ∈ [ "mimetype"; "META-INF/"; "META-INF/container.xml"; "OEBPS/content.opf";
      "OEBPS/text/ch01.html" ].
Proof.
  refine (proj1 (proj2 (proj2 (listed_files_are_the_readable_ones
            (Samples.serving Samples.book_one) "lib" 1 []
            _ [EvOpen 0; EvGetEntries 0; EvClose 0] _)))
            "OEBPS/text/ch01.html" []
            "<html><body><h1>One</h1><p>aaa</p></body></html>"
            [EvOpen 0; EvGetEntries 0; EvGetData "OEBPS/text/ch01.html"; EvClose 0] _).
  - by vm_compute.
  - by vm_compute.
Defined.

(** ** Handles of the chapter catalogue *)

Section CatalogueHandles.
Context {host : Host}.

Lemma or_else_trace_any {A} (a b : M (option A)) tr r tr' :
  (∀ r t, a tr = (r, t) → t = tr) → (∀ r t, b tr = (r, t) → t = tr) →
  or_else a b tr = (r, tr') → tr' = tr.
Proof. apply or_else_trace. Qed.

(** Whatever its outcome, a tier reads at most one entry and does
    nothing else to the archive. *)
Lemma legacy_tier_trace entries opfXml opfDir tr r tr' :
  legacy_tier entries opfXml opfDir tr = (r, tr') →
  ∃ names, tr' = tr ++ map EvGetData names ∧ (length names ≤ 1)%nat.
Proof.
  unfold legacy_tier. intros H.
  assert (Hnil : ∃ names, tr = tr ++ map EvGetData names ∧ (length names ≤ 1)%nat).
  { exists []. rewrite app_nil_r. split; [done|cbn; lia]. }
  match type of H with
  | (match ?x with _ => _ end) _ = _ => destruct x as [ncxMatch|]
  end; [|by injection H as _ <-].
  cbv zeta in H. unfold bind at 1 in H.
  match type of H with
  | (let (_, _) := ?c in _) = _ => destruct c as [o t1] eqn:Hor
  end.
  apply or_else_trace in Hor as ->; [|intros ? ?; apply match_dynamic_trace..].
  destruct o as [[hm|]|e]; [|by injection H as _ <-..].
  destruct (find_entry entries _) as [[name [d|]]|];
    [|by injection H as _ <-..].
  unfold bind in H.
  match type of H with
  | (let (_, _) := ?c in _) = _ => destruct c as [o t2] eqn:Hd
  end.
  apply getData_inv in Hd as [-> ->].
  exists [name]. split; [|cbn; lia]. by destruct o; injection H as _ <-.
Qed.

Lemma modern_tier_trace entries opfXml opfDir tr r tr' :
  modern_tier entries opfXml opfDir tr = (r, tr') →
  ∃ names, tr' = tr ++ map EvGetData names ∧ (length names ≤ 1)%nat.
Proof.
  unfold modern_tier. intros H.
  assert (Hnil : ∃ names, tr = tr ++ map EvGetData names ∧ (length names ≤ 1)%nat).
  { exists []. rewrite app_nil_r. split; [done|cbn; lia]. }
  match type of H with
  | (match ?x with _ => _ end) _ = _ => destruct x as [navMatch|]
  end; [|by injection H as _ <-].
  cbv zeta in H.
  destruct (find_entry entries _) as [[name [d|]]|];
    [|by injection H as _ <-..].
  unfold bind in H.
  match type of H with
  | (let (_, _) := ?c in _) = _ => destruct c as [o t2] eqn:Hd
  end.
  apply getData_inv in Hd as [-> ->].
  exists [name]. split; [|cbn; lia]. by destruct o; injection H as _ <-.
Qed.

Lemma getTOC_trace_any entries opfXml opfDir tr r tr' :
  getTOCFromEntries entries opfXml opfDir tr = (r, tr') →
  ∃ names, tr' = tr ++ map EvGetData names ∧ (length names ≤ 2)%nat.
Proof.
  unfold getTOCFromEntries, bind. intros H.
  destruct (legacy_tier entries opfXml opfDir tr) as [o t1] eqn:Hl.
  apply legacy_tier_trace in Hl as (n1 & -> & Hn1).
  destruct o as [toc|e].
  - destruct (length toc =? 0)%nat.
    + apply modern_tier_trace in H as (n2 & -> & Hn2).
      exists (n1 ++ n2). rewrite map_app, app_assoc, length_app.
      split; [done|lia].
    + injection H as _ <-. exists n1. split; [done|lia].
  - injection H as _ <-. exists n1. split; [done|lia].
Qed.

(** X4. Whatever its outcome, [getChapters] opens at most one handle,
    reads at most four entries through it (container pointer, package
    document, and one navigation document per tier), closes no other
    handle and closes its own at most once, as its last action; when it
    returns a chapter list the handle has been closed. *)
Theorem getChapters_handle_accounting :
  ∀ this libraryId bookId tr r tr',
    getChapters this libraryId bookId tr = (r, tr') →
    tr' = tr ∧ (∃ e, r = Throw e)
    ∨ ∃ names closed,
        tr' = tr ++ EvOpen (opens tr) :: EvGetEntries (opens tr)
                    :: map EvGetData names
                    ++ (if closed : bool then [EvClose (opens tr)] else []) ∧
        (length names ≤ 4)%nat ∧
        (∀ chapters, r = Return chapters → closed = true).
Proof.
  intros this libraryId bookId tr r tr'. unfold getChapters, getEpubBuffer.
  unfold bind at 1, lift. destruct (upstream this libraryId bookId) as [buffer|e].
  2: { intros [= <- <-]. left. eauto. }
  intros H. right. unfold bind at 1, ZipReader_new in H.
  unfold bind at 1, reader_getEntries, bind at 1, emit, lift in H.
  rewrite <- app_assoc in H. cbn [app] in H.
  destruct (zip_entries buffer) as [entries|e].
  2: { injection H as <- <-. exists [], false. cbn. split_and!; [done|lia|done]. }
  destruct (find_entry entries "META-INF/container.xml") as [[cname [cdata|]]|].
  2,3: unfold bind, reader_close, emit, throw in H; injection H as <- <-;
       exists [], true; rewrite <- app_assoc; cbn; split_and!; [done|lia|done].
  unfold bind at 1, getData, bind at 1, emit, lift in H.
  rewrite <- app_assoc in H. cbn [app] in H.
  destruct cdata as [containerXml|e].
  2: { injection H as <- <-. exists [cname], false. cbn.
       split_and!; [done|lia|done]. }
  destruct (RegExp.match_ Patterns.fullPath containerXml) as [fpm|].
  2: { unfold bind, reader_close, emit, throw in H. injection H as <- <-.
       exists [cname], true. rewrite <- app_assoc. cbn.
       split_and!; [done|lia|done]. }
  cbv zeta in H.
  destruct (find_entry entries _) as [[oname [odata|]]|].
  2,3: unfold bind, reader_close, emit, throw in H; injection H as <- <-;
       exists [cname], true; rewrite <- app_assoc; cbn; split_and!; [done|lia|done].
  unfold bind at 1, getData, bind at 1, emit, lift in H.
  rewrite <- app_assoc in H. cbn [app] in H.
  destruct odata as [opfXml|e].
  2: { injection H as <- <-. exists [cname; oname], false. cbn.
       split_and!; [done|lia|done]. }
  unfold bind at 1 in H.
  match type of H with
  | (let (_, _) := ?c in _) = _ => destruct c as [o t2] eqn:Ht
  end.
  apply getTOC_trace_any in Ht as (names & -> & Hn).
  destruct o as [toc|e].
  2: { injection H as <- <-. exists ([cname; oname] ++ names), false.
       rewrite <- !app_assoc, map_app, length_app. cbn.
       rewrite app_nil_r. split_and!; [done|lia|done]. }
  unfold bind at 1, lift in H.
  destruct (map_chapters toc _) as [chapters|e].
  - unfold bind, reader_close, emit, ret in H. injection H as <- <-.
    exists ([cname; oname] ++ names), true.
    rewrite <- !app_assoc, map_app, length_app. cbn.
    split_and!; [done|lia|done].
  - injection H as <- <-. exists ([cname; oname] ++ names), false.
    rewrite <- !app_assoc, map_app, length_app. cbn.
    rewrite app_nil_r. split_and!; [done|lia|done].
Qed.

(** The errors that [getChapters] throws itself. *)
Lemma getChapters_own_errors this libraryId bookId tr e tr' :
  getChapters this libraryId bookId tr = (Throw e, tr') →
  (∃ names,
     tr' = tr ++ EvOpen (opens tr) :: EvGetEntries (opens tr)
              :: map EvGetData names ++ [EvClose (opens tr)] ∧
     (length names ≤ 1)%nat ∧
     (e = Error "EPUB missing META-INF/container.xml or it is a directory"
      ∨ e = Error "Could not find root file in container.xml"
      ∨ ∃ opfPath,
          e = Error ("Could not find OPF file at " +:+ opfPath
                     +:+ " or it is a directory")))
  ∨ closes (opens tr) tr' = closes (opens tr) tr.
Proof.
  assert (Hopen : ∀ names,
    closes (opens tr)
      (tr ++ EvOpen (opens tr) :: EvGetEntries (opens tr) :: map EvGetData names)
    = closes (opens tr) tr).
  { intros names.
    change (EvOpen (opens tr) :: EvGetEntries (opens tr) :: map EvGetData names)
      with ([EvOpen (opens tr); EvGetEntries (opens tr)] ++ map EvGetData names).
    rewrite !closes_app, closes_getData. unfold closes at 2. cbn. lia. }
  unfold getChapters, getEpubBuffer.
  unfold bind at 1, lift. destruct (upstream this libraryId bookId) as [buffer|e0].
  2: { intros [= <- <-]. by right. }
  intros H. unfold bind at 1, ZipReader_new in H.
  unfold bind at 1, reader_getEntries, bind at 1, emit, lift in H.
  rewrite <- app_assoc in H. cbn [app] in H.
  destruct (zip_entries buffer) as [entries|e0].
  2: { injection H as <- <-. right. apply (Hopen []). }
  destruct (find_entry entries "META-INF/container.xml") as [[cname [cdata|]]|].
  2,3: unfold bind, reader_close, emit, throw in H; injection H as <- <-;
       left; exists []; rewrite <- app_assoc; cbn; split_and!; [done|lia|by left].
  unfold bind at 1, getData, bind at 1, emit, lift in H.
  rewrite <- app_assoc in H. cbn [app] in H.
  destruct cdata as [containerXml|e0].
  2: { injection H as <- <-. right. apply (Hopen [cname]). }
  destruct (RegExp.match_ Patterns.fullPath containerXml) as [fpm|].
  2: { unfold bind, reader_close, emit, throw in H. injection H as <- <-.
       left. exists [cname]. rewrite <- app_assoc. cbn.
       split_and!; [done|lia|right; by left]. }
  cbv zeta in H.
  destruct (find_entry entries _) as [[oname [odata|]]|].
  2,3: unfold bind, reader_close, emit, throw in H; injection H as <- <-;
       left; exists [cname]; rewrite <- app_assoc; cbn;
       split_and!; [done|lia|right; right; by eexists].
  unfold bind at 1, getData, bind at 1, emit, lift in H.
  rewrite <- app_assoc in H. cbn [app] in H.
  destruct odata as [opfXml|e0].
  2: { injection H as <- <-. right. apply (Hopen [cname; oname]). }
  unfold bind at 1 in H.
  match type of H with
  | (let (_, _) := ?c in _) = _ => destruct c as [o t2] eqn:Ht
  end.
  apply getTOC_trace_any in Ht as (names & -> & Hn).
  assert (Hall : closes (opens tr)
            ((tr ++ [EvOpen (opens tr); EvGetEntries (opens tr);
                     EvGetData cname; EvGetData oname]) ++ map EvGetData names)
          = closes (opens tr) tr).
  { rewrite <- (Hopen ([cname; oname] ++ names)).
    by rewrite map_app, <- !app_assoc. }
  destruct o as [toc|e0].
  2: { injection H as <- <-. by right. }
  unfold bind at 1, lift in H.
  destruct (map_chapters toc _) as [chapters|e0].
  - unfold bind, reader_close, emit, ret in H. done.
  - injection H as <- <-. by right.
Qed.

(** X5. Only the two required documents are fatal for [getChapters]
    when they are missing. Without an entry for the container pointer,
    without a root-file path in it, or without an entry for the package
    document at that path (in each case an entry object without the
    [getData] member counts as no entry), it throws the error of that
    case after closing its handle, having read no entry beyond the
    container pointer. These are the only failures after which the
    handle is closed: whenever [getChapters] throws and its handle has
    been closed, the error is one of the three. *)
Theorem getChapters_required_documents :
  (∀ this libraryId bookId tr buffer entries,
     upstream this libraryId bookId = Return buffer →
     zip_entries buffer = Return entries →
     (find_entry entries "META-INF/container.xml" = None
      ∨ ∃ name, find_entry entries "META-INF/container.xml" = Some (MkEntry name None)) →
     getChapters this libraryId bookId tr
     = (Throw (Error "EPUB missing META-INF/container.xml or it is a directory"),
        tr ++ [EvOpen (opens tr); EvGetEntries (opens tr); EvClose (opens tr)]))
  ∧ (∀ this libraryId bookId tr buffer entries name containerXml,
       upstream this libraryId bookId = Return buffer →
       zip_entries buffer = Return entries →
       find_entry entries "META-INF/container.xml"
         = Some (MkEntry name (Some (Return containerXml))) →
       RegExp.match_ Patterns.fullPath containerXml = None →
       getChapters this libraryId bookId tr
       = (Throw (Error "Could not find root file in container.xml"),
          tr ++ [EvOpen (opens tr); EvGetEntries (opens tr); EvGetData name;
                 EvClose (opens tr)]))
  ∧ (∀ this libraryId bookId tr buffer entries name containerXml fullPathMatch,
       upstream this libraryId bookId = Return buffer →
       zip_entries buffer = Return entries →
       find_entry entries "META-INF/container.xml"
         = Some (MkEntry name (Some (Return containerXml))) →
       RegExp.match_ Patterns.fullPath containerXml = Some fullPathMatch →
       let opfPath := to_string (RegExp.group 1 fullPathMatch) in
       (find_entry entries opfPath = None
        ∨ ∃ oname, find_entry entries opfPath = Some (MkEntry oname None)) →
       getChapters this libraryId bookId tr
       = (Throw (Error ("Could not find OPF file at " +:+ opfPath
                        +:+ " or it is a directory")),
          tr ++ [EvOpen (opens tr); EvGetEntries (opens tr); EvGetData name;
                 EvClose (opens tr)]))
  ∧ (∀ this libraryId bookId tr e tr',
       getChapters this libraryId bookId tr = (Throw e, tr') →
       closes (opens tr) tr' ≠ closes (opens tr) tr →
       e = Error "EPUB missing META-INF/container.xml or it is a directory"
       ∨ e = Error "Could not find root file in container.xml"
       ∨ ∃ opfPath,
           e = Error ("Could not find OPF file at " +:+ opfPath
                      +:+ " or it is a directory")).
Proof.
  split_and!.
  - intros this libraryId bookId tr buffer entries Hb Hz Hc.
    unfold getChapters, getEpubBuffer, ZipReader_new, reader_getEntries,
      reader_close, bind, lift, emit, throw.
    rewrite Hb, Hz. destruct Hc as [->|[name ->]]; by rewrite <- !app_assoc.
  - intros this libraryId bookId tr buffer entries name containerXml Hb Hz Hc Hm.
    unfold getChapters, getEpubBuffer, ZipReader_new, reader_getEntries,
      reader_close, getData, bind, lift, emit, throw.
    rewrite Hb, Hz, Hc. cbv beta iota. rewrite Hm.
    by rewrite <- !app_assoc.
  - intros this libraryId bookId tr buffer entries name containerXml fpm
      Hb Hz Hc Hm opfPath Ho.
    unfold getChapters, getEpubBuffer, ZipReader_new, reader_getEntries,
      reader_close, getData, bind, lift, emit, throw.
    rewrite Hb, Hz, Hc. cbv beta iota. rewrite Hm.
    cbv zeta. fold opfPath.
    destruct Ho as [->|[oname ->]]; by rewrite <- !app_assoc.
  - intros this libraryId bookId tr e tr' H Hcl.
    apply getChapters_own_errors in H as [(names & _ & _ & H)|H]; [done|].
    by destruct Hcl.
Qed.

End CatalogueHandles.

Lemma getChapters_handle_accounting_witness :
  let r : outcome (list Chapter) := Throw (Error "File format is not recognized") in
  let tr' := [EvOpen 0; EvGetEntries 0; EvGetData "META-INF/container.xml"] in
  tr' = [] ∧ (∃ e, r = Throw e)
  ∨ ∃ names closed,
      tr' = [] ++ EvOpen (opens []) :: EvGetEntries (opens [])
               :: map EvGetData names
               ++ (if closed : bool then [EvClose (opens [])] else []) ∧
      (length names ≤ 4)%nat ∧
      (∀ chapters, r = Return chapters → closed = true).
Proof.
  apply (@getChapters_handle_accounting BasicHost.basic
           (Samples.serving Samples.book_unreadable) "lib" 1 []).
  by vm_compute.
Defined.

Lemma getChapters_required_documents_witness :
  getChapters (host := BasicHost.basic) (Samples.serving Samples.book_no_container)
    "lib" 1 []
  = (Throw (Error "EPUB missing META-INF/container.xml or it is a directory"),
     [] ++ [EvOpen (opens []); EvGetEntries (opens []); EvClose (opens [])])
  ∧ getChapters (host := BasicHost.basic) (Samples.serving Samples.book_no_rootfile)
      "lib" 1 []
    = (Throw (Error "Could not find root file in container.xml"),
       [] ++ [EvOpen (opens []); EvGetEntries (opens []);
              EvGetData "META-INF/container.xml"; EvClose (opens [])])
  ∧ getChapters (host := BasicHost.basic) (Samples.serving Samples.book_no_package)
      "lib" 1 []
    = (Throw (Error ("Could not find OPF file at " +:+ "OEBPS/content.opf"
                     +:+ " or it is a directory")),
       [] ++ [EvOpen (opens []); EvGetEntries (opens []);
              EvGetData "META-INF/container.xml"; EvClose (opens [])]).
Proof.
  split_and!.
  - apply (proj1 (@getChapters_required_documents BasicHost.basic)
             (Samples.serving Samples.book_no_container) "lib" 1 []
             (MkBuffer (Return Samples.book_no_container))
             Samples.book_no_container eq_refl eq_refl).
    left. by vm_compute.
  - apply (proj1 (proj2 (@getChapters_required_documents BasicHost.basic))
             (Samples.serving Samples.book_no_rootfile) "lib" 1 []
             (MkBuffer (Return Samples.book_no_rootfile))
             Samples.book_no_rootfile "META-INF/container.xml"
             "<container><rootfiles/></container>" eq_refl eq_refl).
    + by vm_compute.
    + by vm_compute.
  - destruct (RegExp.match_ Patterns.fullPath Samples.container_xml)
      as [fullPathMatch|] eqn:E; [|by vm_compute in E].
    pose proof (proj1 (proj2 (proj2 (@getChapters_required_documents BasicHost.basic)))
                  (Samples.serving Samples.book_no_package) "lib" 1 []
                  (MkBuffer (Return Samples.book_no_package))
                  Samples.book_no_package "META-INF/container.xml"
                  Samples.container_xml fullPathMatch eq_refl eq_refl) as H.
    vm_compute in E. injection E as <-. apply H.
    + by vm_compute.
    + reflexivity.
    + left. by vm_compute.
Defined.

(** ** The package document *)

Section PackageFacts.

Context {host : Host}.

Lemma lastIndexOf_from_append (c : ascii) (a b : string) (pos found : Z) :
  JS.lastIndexOf_from c (a +:+ b) pos found
  = JS.lastIndexOf_from c b (pos + JS.len a) (JS.lastIndexOf_from c a pos found).
Proof.
  revert pos found. induction a as [|x a IH]; intros pos found.
  - rewrite append_nil_l. cbn. by rewrite Z.add_0_r.
  - rewrite append_cons. cbn [JS.lastIndexOf_from]. rewrite IH. f_equal.
    unfold JS.len. cbn [String.length]. lia.
Qed.

Lemma lastIndexOf_from_absent (c : ascii) (s : string) (pos found : Z) :
  JS.includes c s = false → JS.lastIndexOf_from c s pos found = found.
Proof.
  revert pos found. induction s as [|x s IH]; intros pos found H; [done|].
  cbn in H. apply orb_false_iff in H as [Hx Hs]. cbn. rewrite Hx. by apply IH.
Qed.

Lemma take_append (a b : string) : JS.take (String.length a) (a +:+ b) = a.
Proof.
  induction a as [|x a IH]; [by destruct b|]. rewrite append_cons. cbn.
  by rewrite IH.
Qed.

Lemma opfDir_of_file (dir name : string) :
  JS.includes "/" name = false →
  opfDir_of (dir +:+ "/" +:+ name) = dir +:+ "/".
Proof.
  intros Hn. unfold opfDir_of.
  rewrite includes_app. replace (JS.includes "/" ("/" +:+ name)) with true by done.
  rewrite orb_true_r. unfold JS.lastIndexOf.
  rewrite lastIndexOf_from_append, append_cons, append_nil_l.
  cbn [JS.lastIndexOf_from]. rewrite Ascii.eqb_refl.
  rewrite (lastIndexOf_from_absent _ _ _ _ Hn).
  change (String "/" name) with ("/" +:+ name). rewrite <- append_assoc.
  rewrite substring_in_range.
  - rewrite drop_zero.
    replace (Z.to_nat (0 + JS.len dir + 1 - 0)) with (String.length (dir +:+ "/")).
    + apply take_append.
    + rewrite length_append. unfold JS.len. cbn. lia.
  - lia.
  - unfold JS.len. lia.
  - unfold JS.len. rewrite !length_append. cbn. lia.
Qed.

(** X6. The package directory is the path of the package document up
    to and including its last slash, and empty when the path has no
    slash: a path [dir/name] whose [name] has no slash gives [dir/], and
    every path is its directory followed by its final segment. *)
Theorem package_directory_of_path :
  (∀ dir name, JS.includes "/" name = false →
     opfDir_of (dir +:+ "/" +:+ name) = dir +:+ "/")
  ∧ (∀ name, JS.includes "/" name = false → opfDir_of name = "")
  ∧ (∀ opfPath, opfDir_of opfPath +:+ last_segment opfPath = opfPath).
Proof.
  split_and!.
  - apply opfDir_of_file.
  - intros name Hn. unfold opfDir_of. by rewrite Hn.
  - intros p. destruct (last_segment_final p) as [Hseg [Hp|[pre Hp]]].
    + rewrite <- Hp in Hseg |- *. unfold opfDir_of. by rewrite Hseg.
    + rewrite Hp at 1. rewrite (opfDir_of_file _ _ Hseg).
      by rewrite append_assoc.
Qed.

Lemma manifest_fold_lookup (opfDir id : string) :
  ∀ (ms : list RegExp.rmatch) (m0 : gmap string string),
    fold_left (manifest_step opfDir) ms m0 !! id
    = match last (filter (fun it : string * string => it.1 = id)
                    (map (fun mt =>
                       (to_string (js_or (RegExp.group 2 mt) (RegExp.group 3 mt)),
                        to_string (js_or (RegExp.group 1 mt) (RegExp.group 4 mt))))
                       ms)) with
      | Some it => Some (item_path opfDir it.2)
      | None => m0 !! id
      end.
Proof.
  induction ms as [|mt ms IH]; intros m0; [done|].
  cbn [fold_left map]. rewrite IH. rewrite filter_cons.
  unfold manifest_step at 1, manifest_set.
  case_decide as Hid.
  - rewrite last_cons. destruct (last _) as [it|]; [done|].
    cbn [fst] in Hid. rewrite Hid, lookup_insert_eq. done.
  - destruct (last _) as [it|]; [done|].
    cbn [fst] in Hid. by rewrite lookup_insert_ne.
Qed.

Lemma build_manifest_declared (opfXml opfDir id : string) :
  build_manifest opfXml opfDir !! id = declared_path opfXml opfDir id.
Proof.
  unfold build_manifest, declared_path, manifest_items.
  rewrite manifest_fold_lookup. by destruct (last _).
Qed.

Lemma spine_of_strings (manifest : gmap string string) (target : string → option string) :
  (∀ id, target id = match manifest !! id with
                     | Some p => if JS.truthy p then Some p else None
                     | None => None
                     end) →
  ∀ (ids : list string) (chapters : list Chapter),
    map (fun c => VString (path c)) chapters = omap (resolved manifest) ids →
    map path chapters = omap target ids ∧
    Forall (fun id => manifest !! id = None → inherited id = false) ids.
Proof.
  intros Ht. induction ids as [|id ids IH]; intros chapters H.
  - destruct chapters; [|done]. by split.
  - cbn [omap list_omap] in H |- *. rewrite Ht.
    assert (resolved manifest id
            = match manifest !! id with
              | Some p => if JS.truthy p then Some (VString p) else None
              | None => if inherited id then Some (VInherited id) else None
              end) as Hr.
    { unfold resolved, manifest_get. destruct (manifest !! id) as [p|].
      - cbn [truthy_val]. by destruct (JS.truthy p).
      - by destruct (inherited id). }
    rewrite Hr in H. clear Hr.
    destruct (manifest !! id) as [p|] eqn:Em.
    + destruct (JS.truthy p).
      * destruct chapters as [|c chapters]; [done|]. cbn [map] in H.
        injection H as Hp H. destruct (IH _ H) as [IH1 IH2].
        split; [cbn [map]; by rewrite Hp, IH1|].
        constructor; [intros; congruence|done].
      * destruct (IH _ H) as [IH1 IH2]. split; [done|].
        constructor; [intros; congruence|done].
    + destruct (inherited id) eqn:Ei.
      * destruct chapters; done.
      * destruct (IH _ H) as [IH1 IH2]. split; [done|].
        constructor; [intros; congruence|done].
Qed.

(** X7. The chapter list follows the spine. When [getChapters]
    returns, its paths are, in document order and with repetitions, what
    the spine references stand for: the path that the last manifest item
    with the referenced identifier declares (its href percent-decoded
    where that is possible and normalized under the package directory).
    A reference to an identifier that no item declares, or whose path is
    empty, adds no chapter, and no such undeclared identifier is the name
    of a member of [Object.prototype]. *)
Theorem chapters_follow_spine :
  ∀ this libraryId bookId tr chapters tr',
    getChapters this libraryId bookId tr = (Return chapters, tr') →
    ∃ entries opfXml opfDir,
      package_of this libraryId bookId entries opfXml opfDir ∧
      map path chapters = omap (spine_target opfXml opfDir) (spine_idrefs opfXml) ∧
      (∀ id, build_manifest opfXml opfDir !! id = declared_path opfXml opfDir id) ∧
      Forall (fun id => declared_path opfXml opfDir id = None → inherited id = false)
        (spine_idrefs opfXml).
Proof.
  intros this libraryId bookId tr chapters tr' H.
  apply getChapters_Return in H
    as (buffer & entries & cname & ? & containerXml & fpm & oname & ? & opfXml
        & toc & tr1 & tr2 & H).
  destruct H as (Hb & Hz & Hc & -> & Hm & Ho & -> & _ & Ht & Hmap & _).
  exists entries, opfXml, (opfDir_of (to_string (RegExp.group 1 fpm))).
  apply map_chapters_Return in Hmap as [Hs _]. rewrite build_spine_order in Hs.
  symmetry in Hs.
  apply (spine_of_strings _
           (spine_target opfXml (opfDir_of (to_string (RegExp.group 1 fpm)))))
    in Hs as [Hp Hu].
  2: { intros id. unfold spine_target. by rewrite <- build_manifest_declared. }
  split_and!; [|done| |].
  - by exists buffer, cname, containerXml, fpm, oname.
  - intros id. apply build_manifest_declared.
  - eapply Forall_impl; [exact Hu|]. intros id Hid Hd. apply Hid.
    by rewrite build_manifest_declared.
Qed.

End PackageFacts.

Lemma package_directory_of_path_witness :
  opfDir_of ("OEBPS/pkg" +:+ "/" +:+ "content.opf") = "OEBPS/pkg" +:+ "/".
Proof. apply (proj1 package_directory_of_path). reflexivity. Defined.

Lemma chapters_follow_spine_witness :
  let this := Samples.serving Samples.book_two in
  let chapters := [ MkChapter "Chapter One" "OEBPS/text/ch01.html";
                    MkChapter "ch02.html" "OEBPS/text/ch02.html";
                    MkChapter "Chapter One" "OEBPS/text/ch01.html" ] in
  ∃ entries opfXml opfDir,
    package_of this "lib" 1 entries opfXml opfDir ∧
    map path chapters
    = omap (spine_target (host := BasicHost.basic) opfXml opfDir)
        (spine_idrefs opfXml) ∧
    (∀ id, build_manifest (host := BasicHost.basic) opfXml opfDir !! id
           = declared_path (host := BasicHost.basic) opfXml opfDir id) ∧
    Forall (fun id => declared_path (host := BasicHost.basic) opfXml opfDir id = None →
                      inherited id = false)
      (spine_idrefs opfXml).
Proof.
  apply (@chapters_follow_spine BasicHost.basic
           (Samples.serving Samples.book_two) "lib" 1 []
           _ [EvOpen 0; EvGetEntries 0; EvGetData "META-INF/container.xml";
              EvGetData "OEBPS/content.opf"; EvGetData "OEBPS/toc.ncx";
              EvClose 0]).
  by vm_compute.
Defined.


(** ** Windows of a text *)

Section Windows.

Lemma drop_drop (n k : nat) (s : string) :
  JS.drop k (JS.drop n s) = JS.drop (n + k) s.
Proof.
  revert s. induction n as [|n IH]; intros s; [done|].
  destruct s as [|c s]; cbn; [by destruct k|]. apply IH.
Qed.

Lemma take_take_drop (n k : nat) (s : string) :
  JS.take n s +:+ JS.take k (JS.drop n s) = JS.take (n + k) s.
Proof.
  revert s. induction n as [|n IH]; intros s; [done|].
  destruct s as [|c s]; cbn; [by destruct k|].
  by rewrite append_cons, IH.
Qed.

Lemma take_drop_id (n : nat) (s : string) : JS.take n s +:+ JS.drop n s = s.
Proof.
  revert s. induction n as [|n IH]; intros s; [done|].
  destruct s as [|c s]; cbn; [done|]. by rewrite append_cons, IH.
Qed.

Lemma substring_take_drop (text : string) (a b : Z) :
  a ≤ b →
  JS.substring text a b
  = JS.take (Z.to_nat (JS.clamp text b - JS.clamp text a))
      (JS.drop (Z.to_nat (JS.clamp text a)) text).
Proof.
  intros H. unfold JS.substring. cbv zeta.
  assert (JS.clamp text a ≤ JS.clamp text b) by (unfold JS.clamp; lia).
  by rewrite Z.min_l, Z.max_r by lia.
Qed.

(** Adjacent windows join into one. *)
Lemma substring_join (text : string) (a b c : Z) :
  a ≤ b → b ≤ c →
  JS.substring text a b +:+ JS.substring text b c = JS.substring text a c.
Proof.
  intros Hab Hbc. rewrite !substring_take_drop by lia.
  pose proof (clamp_range text a). pose proof (clamp_range text b).
  pose proof (clamp_range text c).
  assert (JS.clamp text a ≤ JS.clamp text b) by (unfold JS.clamp; lia).
  assert (JS.clamp text b ≤ JS.clamp text c) by (unfold JS.clamp; lia).
  replace (Z.to_nat (JS.clamp text b))
    with (Z.to_nat (JS.clamp text a) + Z.to_nat (JS.clamp text b - JS.clamp text a))%nat
    by lia.
  rewrite <- drop_drop, take_take_drop. f_equal. lia.
Qed.

Lemma substring_length_le (text : string) (a b : Z) :
  a ≤ b → (String.length (JS.substring text a b) ≤ Z.to_nat (b - a))%nat.
Proof.
  intros H. rewrite substring_take_drop by done. rewrite length_take.
  unfold JS.clamp. lia.
Qed.

Lemma substring_length_exact (text : string) (a b : Z) :
  0 ≤ a → a ≤ b → b ≤ JS.len text →
  String.length (JS.substring text a b) = Z.to_nat (b - a).
Proof.
  intros Ha Hab Hb. rewrite substring_in_range by done.
  rewrite length_take, length_drop. unfold JS.len in Hb. lia.
Qed.

Lemma substring_to_end (text : string) (a b : Z) :
  0 ≤ a → JS.len text ≤ b → a ≤ b →
  JS.substring text a b = JS.drop (Z.to_nat a) text.
Proof.
  intros Ha Hb Hab. rewrite substring_take_drop by done.
  pose proof (clamp_range text a) as Hr.
  replace (JS.clamp text b) with (JS.len text) by (unfold JS.clamp, JS.len in *; lia).
  destruct (Z.le_gt_cases a (JS.len text)) as [Hle|Hgt].
  - rewrite clamp_id by lia. apply take_all. rewrite length_drop.
    unfold JS.len. lia.
  - replace (JS.clamp text a) with (JS.len text) by (unfold JS.clamp; lia).
    rewrite Z.sub_diag. cbn.
    rewrite !drop_all by (unfold JS.len in *; lia). done.
Qed.

End Windows.

(** X8. The windows of the chunked reader compose: for an offset and
    two lengths that are not negative, reading [length + length'] code
    units at [offset] gives the content window of [length] code units at
    [offset] followed by what the reader returns at [offset + length], the
    offset a truncation marker states, for [length']. A window that ends
    before the end of the text has exactly [length] code units, and a
    read that reaches the end of the text returns the rest of the text
    from [offset] on, without a marker. So reading on from the stated
    offsets loses and repeats nothing. *)
Theorem read_chunk_windows_compose :
  ∀ text offset length length',
    0 ≤ offset → 0 ≤ length → 0 ≤ length' →
    read_chunk text offset (length + length')
    = JS.substring text offset (offset + length)
      +:+ read_chunk text (offset + length) length'
    ∧ (offset + length < JS.len text →
       String.length (JS.substring text offset (offset + length))
       = Z.to_nat length)
    ∧ (JS.len text ≤ offset + length →
       read_chunk text offset length = JS.drop (Z.to_nat offset) text).
Proof.
  intros text offset length length' Ho Hl Hl'. split_and!.
  - unfold read_chunk. cbv zeta.
    replace (offset + (length + length')) with (offset + length + length') by lia.
    rewrite <- (substring_join text offset (offset + length)) by lia.
    destruct (offset + length + length' <? JS.len text); [|done].
    by rewrite append_assoc.
  - intros H. rewrite substring_length_exact by lia. f_equal. lia.
  - intros H. unfold read_chunk. cbv zeta.
    replace (offset + length <? JS.len text) with false
      by (symmetry; apply Z.ltb_ge; lia).
    apply substring_to_end; lia.
Qed.

Lemma read_chunk_windows_compose_witness :
  read_chunk "hello world" 2 (3 + 4)
  = JS.substring "hello world" 2 (2 + 3) +:+ read_chunk "hello world" (2 + 3) 4
  ∧ (2 + 3 < JS.len "hello world" →
     String.length (JS.substring "hello world" 2 (2 + 3)) = Z.to_nat 3)
  ∧ (JS.len "hello world" ≤ 2 + 3 →
     read_chunk "hello world" 2 3 = JS.drop (Z.to_nat 2) "hello world").
Proof. apply (read_chunk_windows_compose "hello world" 2 3 4); lia. Defined.

(** ** The chunked reader as a tool *)

(** X9. The tool get_chapter_content_markdown returns a text exactly
    when the archive stores the chapter file, and the text is the window
    of the converted file at the given offset and length, which default
    to 0 and 30000. With both left out, a chapter whose converted text
    has at most 30000 code units is returned whole and without a marker;
    a longer one is cut to its first 30000 code units followed by the
    marker that names offset 30000. The call opens one handle, reads the
    chapter file and closes the handle. *)
Theorem chapter_markdown_tool :
  ∀ this libraryId bookId path offset length tr,
    let done_ := tr ++ [EvOpen (opens tr); EvGetEntries (opens tr);
                        EvGetData path; EvClose (opens tr)] in
    (∀ out tr',
       get_chapter_content_markdown this libraryId bookId path offset length tr
       = (Return out, tr') ↔
       (∃ html,
          stored_text this libraryId bookId path html ∧
          out = read_chunk (htmlToMarkdown html) (default 0 offset)
                  (default 30000 length)) ∧
       tr' = done_)
    ∧ (∀ html,
         stored_text this libraryId bookId path html →
         (JS.len (htmlToMarkdown html) ≤ 30000 →
          get_chapter_content_markdown this libraryId bookId path None None tr
          = (Return (htmlToMarkdown html), done_))
         ∧ (30000 < JS.len (htmlToMarkdown html) →
            get_chapter_content_markdown this libraryId bookId path None None tr
            = (Return (JS.take (Z.to_nat 30000) (htmlToMarkdown html)
                       +:+ truncation_marker 30000), done_))).
Proof.
  intros this libraryId bookId path offset length tr done_.
  assert (Hiff : ∀ o l out tr',
    get_chapter_content_markdown this libraryId bookId path o l tr
    = (Return out, tr') ↔
    (∃ html, stored_text this libraryId bookId path html ∧
             out = read_chunk (htmlToMarkdown html) (default 0 o) (default 30000 l)) ∧
    tr' = done_).
  { intros o l out tr'.
    unfold get_chapter_content_markdown, getChapterContentMarkdown,
      getChapterContent. cbv zeta. split.
    - intros H. apply bind_Return in H as (md & t1 & H1 & H).
      apply bind_Return in H1 as (html & t2 & Hf & H1).
      injection H1 as <- <-. injection H as <- <-.
      apply getEpubFile_Return in Hf as [Hst ->]. split; [by exists html|done].
    - intros [(html & Hst & ->) ->].
      assert (getEpubFile this libraryId bookId path tr = (Return html, done_)) as Hf.
      { by apply getEpubFile_Return. }
      rewrite (bind_eq _ _ tr (htmlToMarkdown html) done_); [done|].
      by rewrite (bind_eq _ _ _ _ _ Hf). }
  split; [apply Hiff|].
  intros html Hst. split.
  - intros Hlen. apply Hiff. split; [|done]. exists html. split; [done|].
    cbn [default]. by rewrite read_chunk_whole.
  - intros Hlen. apply Hiff. split; [|done]. exists html. split; [done|].
    cbn [default]. unfold read_chunk. cbv zeta.
    replace (0 + 30000 <? JS.len (htmlToMarkdown html)) with true
      by (symmetry; apply Z.ltb_lt; lia).
    rewrite substring_in_range by lia. by rewrite drop_zero.
Qed.

Lemma chapter_markdown_tool_witness :
  get_chapter_content_markdown (Samples.serving Samples.book_one) "lib" 1
    "OEBPS/text/ch01.html" None None []
  = (Return (htmlToMarkdown "<html><body><h1>One</h1><p>aaa</p></body></html>"),
     [] ++ [EvOpen (opens []); EvGetEntries (opens []);
            EvGetData "OEBPS/text/ch01.html"; EvClose (opens [])]).
Proof.
  refine (proj1 (proj2 (chapter_markdown_tool
                   (Samples.serving Samples.book_one) "lib" 1
                   "OEBPS/text/ch01.html" None None [])
                   "<html><body><h1>One</h1><p>aaa</p></body></html>" _) _).
  - exists (MkBuffer (Return Samples.book_one)), Samples.book_one,
      "OEBPS/text/ch01.html". by vm_compute.
  - by vm_compute.
Defined.

(** ** Searching a book *)

Ltac nat_cases :=
  repeat match goal with
         | |- context [(?a <=? ?b)%nat] => destruct (Nat.leb_spec a b)
         | |- context [(?a <? ?b)%nat] => destruct (Nat.ltb_spec a b)
         | |- context [(?a =? ?b)%nat] => destruct (Nat.eqb_spec a b)
         end;
  cbn [andb length]; try lia.

Section HitFacts.

Lemma indexOf_from_found (q s : string) (pos i : Z) :
  JS.indexOf_from q s pos = i → i ≠ -1 →
  ∃ k : nat, i = pos + Z.of_nat k ∧ (k ≤ String.length s)%nat ∧
             JS.startsWith q (JS.drop k s) = true.
Proof.
  revert pos. induction s as [|c s IH]; intros pos H Hi; cbn [JS.indexOf_from] in H.
  - destruct (JS.startsWith q "") eqn:E; [|congruence].
    exists 0%nat. split_and!; [lia|done|done].
  - destruct (JS.startsWith q (String c s)) eqn:E.
    + exists 0%nat. split_and!; [lia|cbn; lia|done].
    + destruct (IH _ H Hi) as (k & -> & Hk & Hs).
      exists (S k). split_and!; [lia|cbn; lia|done].
Qed.

Lemma indexOf_found (text q : string) (position i : Z) :
  JS.indexOf text q position = i → i ≠ -1 →
  0 ≤ i ∧ i ≤ JS.len text ∧ JS.clamp text position ≤ i ∧
  JS.startsWith q (JS.drop (Z.to_nat i) text) = true.
Proof.
  unfold JS.indexOf. cbv zeta. intros H Hi.
  pose proof (clamp_range text position) as Hr.
  apply indexOf_from_found in H as (k & -> & Hk & Hs); [|done].
  rewrite length_drop in Hk. rewrite drop_drop in Hs. unfold JS.len in *.
  split_and!; [lia..|].
  by replace (Z.to_nat (JS.clamp text position + Z.of_nat k))
    with (Z.to_nat (JS.clamp text position) + k)%nat by lia.
Qed.

Lemma startsWith_take (q s : string) :
  JS.startsWith q s = true → JS.take (String.length q) s = q.
Proof.
  revert s. induction q as [|a q IH]; intros [|b s] H; try done.
  cbn in H. apply andb_true_iff in H as [Ha Hq].
  apply Ascii.eqb_eq in Ha as ->. cbn. by rewrite IH.
Qed.

(** What the loop pushes for an index that [indexOf] found is a hit. *)
Lemma hit_at_in (chapter : Chapter) (content query : string) (position : Z) :
  let md := htmlToMarkdown content in
  let i := JS.indexOf (JS.toLowerCase md) (JS.toLowerCase query) position in
  i ≠ -1 → hit_in chapter content query (hit_at chapter md query i).
Proof.
  intros md i Hi.
  destruct (indexOf_found _ _ _ _ (eq_refl i) Hi) as (H0 & Hlen & _ & Hs).
  pose proof (startsWith_length _ _ Hs) as Hq. rewrite length_drop in Hq.
  fold md in Hlen, Hq, Hs |- *.
  assert (Hend : i + JS.len (JS.toLowerCase query) ≤ JS.len (JS.toLowerCase md))
    by (unfold JS.len in *; lia).
  unfold hit_in. cbn [chapterTitle chapterPath markdownOffset snippet hit_at].
  fold md.
  assert (Hsnip : JS.substring md (Z.max 0 (i - 200))
                    (Z.min (JS.len md) (i + JS.len query + 200))
                  = JS.substring md (i - 200) (i + JS.len query + 200)).
  { rewrite (substring_clamped md (Z.max 0 (i - 200))).
    rewrite (substring_clamped md (i - 200)).
    f_equal; unfold JS.clamp, JS.len; lia. }
  split_and!; [done..| | |].
  - rewrite substring_in_range by (unfold JS.len in *; lia).
    replace (Z.to_nat (i + JS.len (JS.toLowerCase query) - i))
      with (String.length (JS.toLowerCase query)) by (unfold JS.len; lia).
    by apply startsWith_take.
  - done.
  - rewrite Hsnip.
    etrans; [apply substring_length_le; unfold JS.len; lia|].
    unfold JS.len. lia.
Qed.

Lemma scan_hits fuel chapter content query :
  ∀ index results (P : SearchHit → Prop),
    (∀ h, hit_in chapter content query h → P h) →
    Forall P results →
    Forall P (scan fuel chapter (htmlToMarkdown content)
                (JS.toLowerCase (htmlToMarkdown content)) query
                (JS.toLowerCase query) index results).
Proof.
  induction fuel as [|fuel IH]; intros index results P HP H; [done|].
  cbn [scan].
  destruct (_ =? -1) eqn:E; [done|]. apply Z.eqb_neq in E.
  assert (Forall P (results
            ++ [hit_at chapter (htmlToMarkdown content) query
                  (JS.indexOf (JS.toLowerCase (htmlToMarkdown content))
                     (JS.toLowerCase query) (index + 1))])) as H'.
  { apply Forall_app. split; [done|]. constructor; [|done].
    apply HP. by apply hit_at_in. }
  destruct (50 <=? _)%nat; [done|]. by apply IH.
Qed.

Lemma search_chapters_hits this libraryId bookId query (P : SearchHit → Prop) :
  ∀ chapters results tr hits tr',
    (∀ chapter content h,
       chapter ∈ chapters →
       stored_text this libraryId bookId (path chapter) content →
       hit_in chapter content query h → P h) →
    Forall P results →
    search_chapters this libraryId bookId query chapters results tr
    = (Return hits, tr') →
    Forall P hits.
Proof.
  induction chapters as [|chapter more IH]; intros results tr hits tr' HP Hr H.
  - by injection H as <- <-.
  - cbn [search_chapters] in H.
    apply bind_Return in H as (content & tr1 & Hc & H). cbv zeta in H.
    apply getEpubFile_Return in Hc as [Hst _].
    assert (Forall P (scan_chapter chapter content query results)) as Hs.
    { apply scan_hits; [|done]. intros h. apply HP; [left|done]. }
    destruct (50 <=? _)%nat.
    + by injection H as <- <-.
    + eapply IH; [|done|done]. intros c t h Hin. apply HP. by right.
Qed.

Lemma opens_app (tr1 tr2 : list Event) :
  opens (tr1 ++ tr2) = (opens tr1 + opens tr2)%nat.
Proof. unfold opens. by rewrite List.filter_app, length_app. Qed.

Lemma opens_getData (names : list string) : opens (map EvGetData names) = 0%nat.
Proof. induction names as [|n names IH]; [done|]. apply IH. Qed.

Lemma opens_reads (h : nat) (paths : list string) :
  opens (reads h paths) = length paths.
Proof.
  revert h. induction paths as [|p paths IH]; intros h; [done|].
  cbn [reads]. rewrite opens_app, IH. done.
Qed.

Lemma closes_reads (h' h : nat) (paths : list string) :
  closes h' (reads h paths)
  = if (h <=? h')%nat && (h' <? h + length paths)%nat then 1%nat else 0%nat.
Proof.
  revert h. induction paths as [|p paths IH]; intros h.
  - change (closes h' (reads h [])) with 0%nat. cbn [length]. nat_cases.
  - cbn [reads]. rewrite closes_app, IH.
    unfold closes at 1. cbn [List.filter is_close_of length]. nat_cases.
Qed.

Lemma search_chapters_trace this libraryId bookId query :
  ∀ chapters results tr hits tr',
    search_chapters this libraryId bookId query chapters results tr
    = (Return hits, tr') →
    ∃ k : nat,
      (k ≤ length chapters)%nat ∧
      tr' = tr ++ reads (opens tr) (map path (take k chapters)) ∧
      ((k < length chapters)%nat → (50 ≤ length hits)%nat).
Proof.
  induction chapters as [|chapter more IH]; intros results tr hits tr' H.
  - injection H as <- <-. exists 0%nat. cbn. rewrite app_nil_r.
    split_and!; [lia|done|lia].
  - cbn [search_chapters] in H.
    apply bind_Return in H as (content & tr1 & Hc & H). cbv zeta in H.
    apply getEpubFile_Return in Hc as [_ ->].
    destruct (50 <=? _)%nat eqn:E.
    + injection H as <- <-. exists 1%nat. apply Nat.leb_le in E.
      cbn [take map reads length]. rewrite app_nil_r.
      split_and!; [lia|done|done].
    + apply IH in H as (k & Hk & -> & Hcap). exists (S k).
      rewrite opens_app. cbn [take map reads length].
      replace (opens tr + opens _)%nat with (S (opens tr)).
      2: { unfold opens at 3. cbn. lia. }
      rewrite <- !app_assoc. split_and!; [lia|done|]. intros ?. apply Hcap. lia.
Qed.

(** What a scan adds lies in the chapter scanned. *)
Lemma scan_found fuel chapter md lmd q lq :
  ∀ index results,
    ∃ found,
      scan fuel chapter md lmd q lq index results = results ++ found ∧
      Forall (fun h => chapterPath h = path chapter) found.
Proof.
  induction fuel as [|fuel IH]; intros index results; cbn [scan].
  - exists []. by rewrite app_nil_r.
  - destruct (_ =? -1); [exists []; by rewrite app_nil_r|].
    destruct (50 <=? _)%nat.
    + eexists [_]. split; [done|]. by repeat constructor.
    + destruct (IH (JS.indexOf lmd lq (index + 1))
                  (results ++ [hit_at chapter md q (JS.indexOf lmd lq (index + 1))]))
        as (found & -> & Hall).
      eexists (_ :: found). rewrite <- app_assoc. split; [done|].
      by constructor.
Qed.

(** The keys of the hits that the scan of a chapter adds for a query
    that is not empty: those of the occurrences, as many as there is
    room for under the cap. *)
Lemma scan_chapter_keys chapter content query results :
  query ≠ "" → (length results < 50)%nat →
  map hit_key (scan_chapter chapter content query results)
  = map hit_key results
    ++ take (50 - length results) (chapter_matches query chapter content).
Proof.
  intros Hq Hr.
  pose proof (scan_chapter_occurrences chapter content query results Hq Hr) as Ho.
  unfold scan_chapter in Ho |- *.
  destruct (scan_found 50 chapter (htmlToMarkdown content)
              (JS.toLowerCase (htmlToMarkdown content)) query
              (JS.toLowerCase query) (-1) results) as (found & E & Hall).
  rewrite E in Ho |- *. rewrite map_app in Ho |- *.
  apply app_inv_head in Ho. f_equal.
  unfold chapter_matches.
  change (map (pair (path chapter)) ?l) with (pair (path chapter) <$> l).
  rewrite <- fmap_take. change (pair (path chapter) <$> ?l)
    with (map (pair (path chapter)) l). rewrite <- Ho.
  clear E Ho. induction Hall as [|h found Hh _ IH]; [done|].
  cbn [map]. rewrite IH. unfold hit_key at 1. by rewrite Hh.
Qed.

Lemma search_chapters_keys this libraryId bookId query :
  query ≠ "" →
  ∀ chapters results tr hits tr',
    (length results < 50)%nat →
    search_chapters this libraryId bookId query chapters results tr
    = (Return hits, tr') →
    ∃ (k : nat) contents,
      (k ≤ length chapters)%nat ∧
      ((k < length chapters)%nat → (50 ≤ length hits)%nat) ∧
      Forall2 (fun c content => stored_text this libraryId bookId (path c) content)
        (take k chapters) contents ∧
      map hit_key hits
      = map hit_key results
        ++ take (50 - length results)
             (concat (zip_with (chapter_matches query) (take k chapters) contents)).
Proof.
  intros Hq.
  induction chapters as [|chapter more IH]; intros results tr hits tr' Hr H.
  - injection H as <- <-. exists 0%nat, []. cbn.
    rewrite take_nil, app_nil_r. split_and!; [lia|lia|constructor|done].
  - cbn [search_chapters] in H.
    apply bind_Return in H as (content & tr1 & Hc & H). cbv zeta in H.
    apply getEpubFile_Return in Hc as [Hst _].
    pose proof (scan_chapter_keys chapter content query results Hq Hr) as Hk.
    assert (Hlen : length (scan_chapter chapter content query results)
                   = (length results
                      + length (take (50 - length results)
                                  (chapter_matches query chapter content)))%nat).
    { rewrite <- (length_map hit_key), Hk, length_app, length_map. done. }
    destruct (50 <=? _)%nat eqn:E.
    + injection H as <- <-. apply Nat.leb_le in E. exists 1%nat, [content].
      cbn [take zip_with concat length]. rewrite take_0, app_nil_r.
      split_and!; [lia|done|by repeat constructor|done].
    + apply Nat.leb_gt in E.
      apply IH in H as (k & contents & Hle & Hcap & Hst' & Hkeys); [|done].
      exists (S k), (content :: contents).
      cbn [take zip_with concat length].
      split_and!; [lia|intros; apply Hcap; lia|by constructor|].
      rewrite Hkeys, Hk, <- app_assoc. f_equal.
      rewrite take_app. f_equal. f_equal.
      rewrite list.length_take in Hlen. lia.
Qed.

(** When every chapter has its file, the search returns. *)
Lemma search_chapters_total this libraryId bookId query :
  ∀ chapters results tr,
    (∀ c, c ∈ chapters →
       ∃ content, stored_text this libraryId bookId (path c) content) →
    ∃ hits tr',
      search_chapters this libraryId bookId query chapters results tr
      = (Return hits, tr').
Proof.
  induction chapters as [|chapter more IH]; intros results tr Hall.
  - by eexists _, _.
  - destruct (Hall chapter) as [content Hst]; [by left|].
    cbn [search_chapters]. unfold getChapterContent.
    rewrite (bind_eq _ _ tr content
               (tr ++ [EvOpen (opens tr); EvGetEntries (opens tr);
                       EvGetData (path chapter); EvClose (opens tr)])).
    2: { by apply getEpubFile_Return. }
    cbv zeta. destruct (50 <=? _)%nat; [by eexists _, _|].
    apply IH. intros c Hc. apply Hall. by right.
Qed.

(** The search of a list of chapters that stays under the cap goes on
    with the chapters after it. *)
Lemma search_chapters_app this libraryId bookId query (more : list Chapter) :
  ∀ before results tr hits tr',
    search_chapters this libraryId bookId query before results tr
    = (Return hits, tr') →
    (length hits < 50)%nat →
    search_chapters this libraryId bookId query (before ++ more) results tr
    = search_chapters this libraryId bookId query more hits tr'.
Proof.
  induction before as [|chapter before IH]; intros results tr hits tr' H Hlen.
  - by injection H as <- <-.
  - cbn [search_chapters app] in H |- *.
    apply bind_Return in H as (content & tr1 & Hc & H). cbv zeta in H.
    rewrite (bind_eq _ _ _ _ _ Hc). cbv zeta.
    destruct (50 <=? _)%nat eqn:E.
    + injection H as <- <-. apply Nat.leb_le in E. lia.
    + by apply IH.
Qed.

End HitFacts.

Section BookSearchFacts.

Context {host : Host}.

Lemma getChapters_Return_trace this libraryId bookId tr chapters tr' :
  getChapters this libraryId bookId tr = (Return chapters, tr') →
  (∃ names,
     tr' = tr ++ [EvOpen (opens tr); EvGetEntries (opens tr)]
              ++ map EvGetData names ++ [EvClose (opens tr)]) ∧
  opens tr' = S (opens tr) ∧
  ∀ h, closes h tr'
       = (closes h tr + if (opens tr =? h)%nat then 1 else 0)%nat.
Proof.
  intros H. apply getChapters_Return in H
    as (? & ? & cname & ? & ? & fpm & oname & ? & opfXml & toc & tr1 & tr2 & H).
  destruct H as (_ & _ & _ & _ & _ & _ & _ & -> & Ht & _ & ->).
  apply getTOC_trace in Ht as [names ->].
  assert (∃ names', (tr ++ [EvOpen (opens tr); EvGetEntries (opens tr);
                            EvGetData cname; EvGetData oname])
                    ++ map EvGetData names ++ [EvClose (opens tr)]
                    = tr ++ [EvOpen (opens tr); EvGetEntries (opens tr)]
                         ++ map EvGetData names' ++ [EvClose (opens tr)])
    as [names' E].
  { exists (cname :: oname :: names). by rewrite <- !app_assoc. }
  rewrite <- app_assoc, E. split_and!.
  - by exists names'.
  - rewrite !opens_app, opens_getData. unfold opens at 2 3. cbn. lia.
  - intros h. rewrite !closes_app, closes_getData.
    unfold closes at 2 3. cbn [List.filter is_close_of length]. nat_cases.
Qed.

(** X10. A search that returns has read the book one archive at a time:
    after the chapter list ([getChapters], one handle), the first [k]
    chapters are read in list order, each through a new handle that is
    closed before the next one is opened, and nothing else is done. The
    search reads all chapters unless it has reached the cap of 50 hits.
    So it opens [1 + k] handles and closes each of them exactly once,
    and no other handle. *)
Theorem searchInBook_reads_chapters_in_turn :
  ∀ this libraryId bookId query tr hits tr',
    searchInBook this libraryId bookId query tr = (Return hits, tr') →
    ∃ chapters tr1 (k : nat),
      getChapters this libraryId bookId tr = (Return chapters, tr1) ∧
      (k ≤ length chapters)%nat ∧
      ((k < length chapters)%nat → (50 ≤ length hits)%nat) ∧
      tr' = tr1 ++ reads (S (opens tr)) (map path (take k chapters)) ∧
      opens tr' = (opens tr + 1 + k)%nat ∧
      ∀ h, closes h tr'
           = (closes h tr
              + if (opens tr <=? h)%nat && (h <? opens tr')%nat then 1 else 0)%nat.
Proof.
  intros this libraryId bookId query tr hits tr' H. unfold searchInBook in H.
  apply bind_Return in H as (chapters & tr1 & Hc & H).
  exists chapters, tr1.
  apply search_chapters_trace in H as (k & Hk & -> & Hcap). exists k.
  destruct (getChapters_Return_trace _ _ _ _ _ _ Hc) as (_ & Ho & Hcl).
  assert (Hl : length (map path (take k chapters)) = k).
  { rewrite length_map, list.length_take. lia. }
  split_and!; [done..| | |].
  - by rewrite Ho.
  - rewrite opens_app, opens_reads, Hl, Ho. lia.
  - intros h. rewrite opens_app, opens_reads, Hl, Ho.
    rewrite closes_app, closes_reads, Hl, Hcl. nat_cases.
Qed.

(** X11. Every hit a search returns is real, and there are at most 50
    of them. A hit belongs to a chapter of the book's chapter list whose
    file the archive stores, and carries its title and path; its offset
    is an index of the folded converted text of that chapter at which
    the folded query occurs, wholly inside the folded text; and its
    snippet is the window of the converted text, not folded, from 200
    code units before the offset to 200 code units after the offset plus
    the length of the query, clipped at the ends of the text, so of at
    most the length of the query plus 400 code units. *)
Theorem search_hits_are_occurrences :
  ∀ this libraryId bookId query tr hits tr',
    searchInBook this libraryId bookId query tr = (Return hits, tr') →
    (length hits ≤ 50)%nat ∧
    ∃ chapters tr1,
      getChapters this libraryId bookId tr = (Return chapters, tr1) ∧
      Forall (fun h =>
                ∃ chapter content,
                  chapter ∈ chapters ∧
                  stored_text this libraryId bookId (path chapter) content ∧
                  hit_in chapter content query h) hits.
Proof.
  intros this libraryId bookId query tr hits tr' H. unfold searchInBook in H.
  apply bind_Return in H as (chapters & tr1 & Hc & H). split.
  - eapply search_chapters_length; [|exact H]. cbn. lia.
  - exists chapters, tr1. split; [done|].
    eapply search_chapters_hits; [|constructor|done].
    intros chapter content h Hin Hst Hh. by exists chapter, content.
Qed.

(** C7. For a query that is not empty, the hits of a search are, in
    order, the occurrences of the folded query in the folded converted
    text of each chapter read, chapter after chapter in list order and
    by ascending offset within a chapter, cut after the 50th: every
    index at which the folded query occurs is reported, also where two
    occurrences overlap, because each forward search starts one code
    unit after the start of the match before. The search reads the
    chapters in order up to the first that brings the hits to 50, and it
    returns whenever every chapter has its file. On the book whose one
    chapter has the text aaa, the query aa gives the offsets 0 and 1. *)
Theorem overlapping_matches_reported :
  (∀ this libraryId bookId query tr hits tr',
     searchInBook this libraryId bookId query tr = (Return hits, tr') →
     query ≠ "" →
     ∃ chapters tr1 (k : nat) contents,
       getChapters this libraryId bookId tr = (Return chapters, tr1) ∧
       (k ≤ length chapters)%nat ∧
       ((k < length chapters)%nat → (50 ≤ length hits)%nat) ∧
       Forall2 (fun c content => stored_text this libraryId bookId (path c) content)
         (take k chapters) contents ∧
       map hit_key hits
       = take 50 (concat (zip_with (chapter_matches query)
                            (take k chapters) contents)))
  ∧ (∀ this libraryId bookId query tr chapters tr1,
       getChapters this libraryId bookId tr = (Return chapters, tr1) →
       (∀ c, c ∈ chapters →
          ∃ content, stored_text this libraryId bookId (path c) content) →
       ∃ hits tr',
         searchInBook this libraryId bookId query tr = (Return hits, tr'))
  ∧ (∀ text q i, i ∈ occurrences text q ↔
       ∃ k : nat, i = Z.of_nat k ∧ (k ≤ String.length text)%nat ∧
                  JS.startsWith q (JS.drop k text) = true)
  ∧ (∀ chapter content query results,
       ∃ found,
         scan_chapter chapter content query results = results ++ found ∧
         chained (JS.toLowerCase (htmlToMarkdown content)) (JS.toLowerCase query)
           (-1) (map markdownOffset found))
  ∧ @searchInBook BasicHost.basic (Samples.serving Samples.book_aaa) "lib" 1 "aa" []
    = (Return [ MkHit "ch01.html" "OEBPS/text/ch01.html" 0 "aaa";
                MkHit "ch01.html" "OEBPS/text/ch01.html" 1 "aaa" ],
       [EvOpen 0; EvGetEntries 0; EvGetData "META-INF/container.xml";
        EvGetData "OEBPS/content.opf"; EvClose 0;
        EvOpen 1; EvGetEntries 1; EvGetData "OEBPS/text/ch01.html"; EvClose 1]).
Proof.
  split_and!; [| | | |by vm_compute].
  - intros this libraryId bookId query tr hits tr' H Hq. unfold searchInBook in H.
    apply bind_Return in H as (chapters & tr1 & Hc & H).
    apply search_chapters_keys in H as (k & contents & Hk & Hcap & Hst & Hkeys);
      [|done|cbn; lia].
    exists chapters, tr1, k, contents. split_and!; done.
  - intros this libraryId bookId query tr chapters tr1 Hc Hall.
    unfold searchInBook. rewrite (bind_eq _ _ _ _ _ Hc).
    by apply search_chapters_total.
  - intros text q i. unfold occurrences. rewrite elem_of_occurrences_from.
    by setoid_rewrite Z.add_0_l.
  - intros chapter content query results. apply scan_chained.
Qed.

(** X12. A search does not return part of its hits: when the chapters
    before some chapter of the list are read without reaching the cap,
    and the archive has no file at the path of that chapter, the search
    throws the client's error for that path, the hits found so far are
    lost, and the handle opened for the missing chapter is closed. *)
Theorem search_fails_on_missing_chapter :
  ∀ this libraryId bookId query tr before chapter more tr1 hits tr2 buffer entries,
    getChapters this libraryId bookId tr = (Return (before ++ chapter :: more), tr1) →
    search_chapters this libraryId bookId query before [] tr1 = (Return hits, tr2) →
    (length hits < 50)%nat →
    upstream this libraryId bookId = Return buffer →
    zip_entries buffer = Return entries →
    (find_entry entries (path chapter) = None
     ∨ ∃ name, find_entry entries (path chapter) = Some (MkEntry name None)) →
    searchInBook this libraryId bookId query tr
    = (Throw (Error ("File " +:+ path chapter
                     +:+ " not found or is a directory in EPUB")),
       tr2 ++ [EvOpen (opens tr2); EvGetEntries (opens tr2); EvClose (opens tr2)]).
Proof.
  intros this libraryId bookId query tr before chapter more tr1 hits tr2
    buffer entries Hg Hs Hlen Hb Hz Hf.
  unfold searchInBook. rewrite (bind_eq _ _ _ _ _ Hg).
  rewrite (search_chapters_app _ _ _ _ _ _ _ _ _ _ Hs Hlen).
  cbn [search_chapters]. unfold getChapterContent.
  apply bind_Throw. by apply (getEpubFile_refused _ _ _ _ _ buffer entries).
Qed.

End BookSearchFacts.

Lemma searchInBook_reads_chapters_in_turn_witness :
  let this := Samples.serving Samples.book_one in
  let hits := [ MkHit "ch01.html" "OEBPS/text/ch01.html" 8
                  ("## One" +:+ nl +:+ nl +:+ "aaa");
                MkHit "ch01.html" "OEBPS/text/ch01.html" 9
                  ("## One" +:+ nl +:+ nl +:+ "aaa") ] in
  let tr' := [EvOpen 0; EvGetEntries 0; EvGetData "META-INF/container.xml";
              EvGetData "OEBPS/content.opf"; EvClose 0;
              EvOpen 1; EvGetEntries 1; EvGetData "OEBPS/text/ch01.html";
              EvClose 1] in
  ∃ chapters tr1 (k : nat),
    getChapters (host := BasicHost.basic) this "lib" 1 [] = (Return chapters, tr1) ∧
    (k ≤ length chapters)%nat ∧
    ((k < length chapters)%nat → (50 ≤ length hits)%nat) ∧
    tr' = tr1 ++ reads (S (opens [])) (map path (take k chapters)) ∧
    opens tr' = (opens [] + 1 + k)%nat ∧
    ∀ h, closes h tr'
         = (closes h []
            + if (opens [] <=? h)%nat && (h <? opens tr')%nat then 1 else 0)%nat.
Proof.
  apply (@searchInBook_reads_chapters_in_turn BasicHost.basic
           (Samples.serving Samples.book_one) "lib" 1 "aa" []).
  by vm_compute.
Defined.

Lemma search_hits_are_occurrences_witness :
  let this := Samples.serving Samples.book_one in
  let hits := [ MkHit "ch01.html" "OEBPS/text/ch01.html" 8
                  ("## One" +:+ nl +:+ nl +:+ "aaa");
                MkHit "ch01.html" "OEBPS/text/ch01.html" 9
                  ("## One" +:+ nl +:+ nl +:+ "aaa") ] in
  (length hits ≤ 50)%nat ∧
  ∃ chapters tr1,
    getChapters (host := BasicHost.basic) this "lib" 1 [] = (Return chapters, tr1) ∧
    Forall (fun h =>
              ∃ chapter content,
                chapter ∈ chapters ∧
                stored_text this "lib" 1 (path chapter) content ∧
                hit_in chapter content "aa" h) hits.
Proof.
  apply (@search_hits_are_occurrences BasicHost.basic
           (Samples.serving Samples.book_one) "lib" 1 "aa" []
           _ [EvOpen 0; EvGetEntries 0; EvGetData "META-INF/container.xml";
              EvGetData "OEBPS/content.opf"; EvClose 0;
              EvOpen 1; EvGetEntries 1; EvGetData "OEBPS/text/ch01.html";
              EvClose 1]).
  by vm_compute.
Defined.

Lemma overlapping_matches_reported_witness :
  let this := Samples.serving Samples.book_aaa in
  let hits := [ MkHit "ch01.html" "OEBPS/text/ch01.html" 0 "aaa";
                MkHit "ch01.html" "OEBPS/text/ch01.html" 1 "aaa" ] in
  ∃ chapters tr1 (k : nat) contents,
    getChapters (host := BasicHost.basic) this "lib" 1 [] = (Return chapters, tr1) ∧
    (k ≤ length chapters)%nat ∧
    ((k < length chapters)%nat → (50 ≤ length hits)%nat) ∧
    Forall2 (fun c content => stored_text this "lib" 1 (path c) content)
      (take k chapters) contents ∧
    map hit_key hits
    = take 50 (concat (zip_with (chapter_matches "aa") (take k chapters) contents)).
Proof.
  apply (proj1 (@overlapping_matches_reported BasicHost.basic)
           (Samples.serving Samples.book_aaa) "lib" 1 "aa" []
           _ [EvOpen 0; EvGetEntries 0; EvGetData "META-INF/container.xml";
              EvGetData "OEBPS/content.opf"; EvClose 0;
              EvOpen 1; EvGetEntries 1; EvGetData "OEBPS/text/ch01.html";
              EvClose 1]).
  - by vm_compute.
  - discriminate.
Defined.

Lemma search_fails_on_missing_chapter_witness :
  let this := Samples.serving Samples.book_ghost_later in
  let before := [MkChapter "ch01.html" "OEBPS/text/ch01.html"] in
  let hits := [ MkHit "ch01.html" "OEBPS/text/ch01.html" 8
                  ("## One" +:+ nl +:+ nl +:+ "aaa");
                MkHit "ch01.html" "OEBPS/text/ch01.html" 9
                  ("## One" +:+ nl +:+ nl +:+ "aaa") ] in
  let tr1 := [EvOpen 0; EvGetEntries 0; EvGetData "META-INF/container.xml";
              EvGetData "OEBPS/content.opf"; EvClose 0] in
  let tr2 := tr1 ++ [EvOpen 1; EvGetEntries 1; EvGetData "OEBPS/text/ch01.html";
                     EvClose 1] in
  search_chapters this "lib" 1 "aa" before [] tr1 = (Return hits, tr2)
  ∧ searchInBook (host := BasicHost.basic) this "lib" 1 "aa" []
    = (Throw (Error ("File " +:+ "OEBPS/text/ghost.html"
                     +:+ " not found or is a directory in EPUB")),
       tr2 ++ [EvOpen (opens tr2); EvGetEntries (opens tr2); EvClose (opens tr2)]).
Proof.
  split; [by vm_compute|].
  apply (@search_fails_on_missing_chapter BasicHost.basic
           (Samples.serving Samples.book_ghost_later) "lib" 1 "aa" []
           [MkChapter "ch01.html" "OEBPS/text/ch01.html"]
           (MkChapter "ghost.html" "OEBPS/text/ghost.html") []
           [EvOpen 0; EvGetEntries 0; EvGetData "META-INF/container.xml";
            EvGetData "OEBPS/content.opf"; EvClose 0]
           [ MkHit "ch01.html" "OEBPS/text/ch01.html" 8
               ("## One" +:+ nl +:+ nl +:+ "aaa");
             MkHit "ch01.html" "OEBPS/text/ch01.html" 9
               ("## One" +:+ nl +:+ nl +:+ "aaa") ]
           ([EvOpen 0; EvGetEntries 0; EvGetData "META-INF/container.xml";
             EvGetData "OEBPS/content.opf"; EvClose 0]
            ++ [EvOpen 1; EvGetEntries 1; EvGetData "OEBPS/text/ch01.html";
                EvClose 1])
           (MkBuffer (Return Samples.book_ghost_later)) Samples.book_ghost_later).
  - by vm_compute.
  - by vm_compute.
  - cbn. lia.
  - reflexivity.
  - reflexivity.
  - left. by vm_compute.
Defined.

(** ** Conversion to Markdown *)

Section MarkupFacts.

Import RegExp.

(** A pattern that must start with a code unit of a set does not match
    where the next code unit is outside the set, or at the end. *)
Lemma m_head_fails (r : regex) (p : ascii → bool) :
  head_set r = Some p →
  ∀ s k, (∀ c t, rest s = String c t → p c = false) → m r s k = None.
Proof.
  induction r as [|q|r1 IH1 r2 _|r1 _ r2 _|g r1 _|n r1 IH1|r1 _|];
    intros Hh s k Hs; try discriminate.
  - injection Hh as ->. cbn [m]. destruct (rest s) as [|c t] eqn:E; [done|].
    by rewrite (Hs c t eq_refl).
  - cbn [m]. by apply IH1.
  - cbn [m]. by apply IH1.
Qed.

Lemma search_from_avoids (r : regex) (p : ascii → bool) :
  head_set r = Some p →
  ∀ text i pv, avoids p text = true → search_from r i pv text = None.
Proof.
  intros Hh. induction text as [|c t IH]; intros i pv Ha; cbn [search_from].
  - by rewrite (m_head_fails r p Hh).
  - cbn [avoids] in Ha. apply andb_true_iff in Ha as [Hc Ht].
    rewrite (m_head_fails r p Hh).
    + by apply IH.
    + cbn. intros c' t' [= <- <-]. by apply negb_true_iff.
Qed.

Lemma replaceAll_avoids (r : regex) (p : ascii → bool) (f : rmatch → string)
  (text : string) :
  head_set r = Some p → avoids p text = true → replaceAll r f text = text.
Proof.
  intros Hh Ha. unfold replaceAll. cbn [replace_loop].
  by rewrite (search_from_avoids r p Hh).
Qed.

Lemma match_avoids (r : regex) (p : ascii → bool) (text : string) :
  head_set r = Some p → avoids p text = true → match_ r text = None.
Proof. intros Hh Ha. by apply (search_from_avoids r p Hh). Qed.

(** A property of code units that holds for all 256 of them. *)
Lemma all_ascii (p : ascii → bool) :
  forallb p (map ascii_of_nat (seq 0 256)) = true → ∀ c, p c = true.
Proof.
  intros H c. rewrite forallb_forall in H. apply H.
  apply in_map_iff. exists (nat_of_ascii c). split; [apply ascii_nat_embedding|].
  apply in_seq. pose proof (nat_ascii_bounded c). lia.
Qed.

Lemma avoids_weaken (p q : ascii → bool) (s : string) :
  (∀ c, implb (p c) (q c) = true) → avoids q s = true → avoids p s = true.
Proof.
  intros Hpq. induction s as [|c s IH]; [done|]. cbn [avoids].
  intros [Hc Hs]%andb_true_iff. apply andb_true_iff. split; [|by apply IH].
  specialize (Hpq c). destruct (p c), (q c); done.
Qed.

(** A text without [<] and [&] avoids every set of code units that lies
    within these two. *)
Lemma markup_heads (p : ascii → bool) (s : string) :
  forallb (fun c => implb (p c) (Ascii.eqb c "<" || Ascii.eqb c "&"))
    (map ascii_of_nat (seq 0 256)) = true →
  avoids (fun c => Ascii.eqb c "<" || Ascii.eqb c "&") s = true →
  avoids p s = true.
Proof. intros Hall. apply avoids_weaken. by apply (all_ascii _ Hall). Qed.

Lemma trimStart_suffix (s : string) : ∃ w, s = w +:+ JS.trimStart s.
Proof.
  induction s as [|c s [w IH]]; [by exists ""|]. cbn [JS.trimStart].
  destruct (JS.is_space c).
  - exists (String c w). by rewrite append_cons, <- IH.
  - by exists "".
Qed.

Lemma trimStart_head (s : string) (c : ascii) (t : string) :
  JS.trimStart s = String c t → JS.is_space c = false.
Proof.
  induction s as [|d s IH]; [done|]. cbn [JS.trimStart].
  destruct (JS.is_space d) eqn:E; [done|]. by intros [= <- <-].
Qed.

Lemma trimStart_fixed (s : string) :
  (∀ c t, s = String c t → JS.is_space c = false) → JS.trimStart s = s.
Proof.
  destruct s as [|c s]; [done|]. intros H. cbn [JS.trimStart].
  by rewrite (H c s eq_refl).
Qed.

Lemma trimStart_idempotent (s : string) :
  JS.trimStart (JS.trimStart s) = JS.trimStart s.
Proof. apply trimStart_fixed. intros c t. apply trimStart_head. Qed.

Lemma rev_app_spec (s acc : string) :
  String.rev_app s acc = String.rev s +:+ acc.
Proof.
  unfold String.rev. revert acc. induction s as [|c s IH]; intros acc; [done|].
  cbn [String.rev_app]. rewrite (IH (String c acc)), (IH (String c "")).
  by rewrite append_assoc.
Qed.

Lemma rev_cons (c : ascii) (s : string) :
  String.rev (String c s) = String.rev s +:+ String c "".
Proof. unfold String.rev at 1. cbn [String.rev_app]. apply rev_app_spec. Qed.

Lemma rev_append (a b : string) :
  String.rev (a +:+ b) = String.rev b +:+ String.rev a.
Proof.
  induction a as [|c a IH].
  - by rewrite append_nil_l, append_nil_r.
  - by rewrite append_cons, !rev_cons, IH, append_assoc.
Qed.

Lemma rev_involutive (s : string) : String.rev (String.rev s) = s.
Proof.
  induction s as [|c s IH]; [done|].
  by rewrite rev_cons, rev_append, IH.
Qed.

Lemma trim_first (s : string) (c : ascii) (t : string) :
  JS.trim s = String c t → JS.is_space c = false.
Proof.
  unfold JS.trim. intros Hc.
  destruct (trimStart_suffix (String.rev (JS.trimStart s))) as [w Hw].
  apply (f_equal String.rev) in Hw.
  rewrite rev_involutive, rev_append, Hc, append_cons in Hw.
  by apply (trimStart_head s c (t +:+ String.rev w)).
Qed.

Lemma trim_last (s : string) (t : string) (c : ascii) :
  JS.trim s = t +:+ String c "" → JS.is_space c = false.
Proof.
  unfold JS.trim. intros Hc. apply (f_equal String.rev) in Hc.
  rewrite rev_involutive, rev_append in Hc.
  by apply (trimStart_head _ _ _ Hc).
Qed.

Lemma trim_idempotent (s : string) : JS.trim (JS.trim s) = JS.trim s.
Proof.
  assert (JS.trimStart (JS.trim s) = JS.trim s) as H.
  { apply trimStart_fixed. intros c t. apply trim_first. }
  unfold JS.trim at 1. rewrite H. unfold JS.trim.
  by rewrite rev_involutive, trimStart_idempotent.
Qed.

End MarkupFacts.

(** X13. Text without markup passes through the conversion: for a
    chapter text that holds neither [<] nor [&], [htmlToMarkdown] returns
    the text with the white space at its two ends removed and nothing
    else changed. No pattern of the conversion can match such a text,
    as each of them starts with one of these two code units. *)
Theorem plain_text_passes_through :
  ∀ html,
    avoids (fun c => Ascii.eqb c "<" || Ascii.eqb c "&") html = true →
    htmlToMarkdown html = JS.trim html.
Proof.
  intros html H. unfold htmlToMarkdown.
  destruct (negb (JS.truthy html)) eqn:E.
  { unfold JS.truthy in E. apply negb_true_iff, negb_false_iff in E.
    by apply String.eqb_eq in E as ->. }
  assert (Hr : ∀ r p f, head_set r = Some p →
                forallb (fun c => implb (p c) (Ascii.eqb c "<" || Ascii.eqb c "&"))
                  (map ascii_of_nat (seq 0 256)) = true →
                RegExp.replaceAll r f html = html).
  { intros r p f Hh Hall. apply (replaceAll_avoids r p f html Hh).
    by apply (markup_heads p html Hall). }
  rewrite (match_avoids Markup.body _ html eq_refl)
    by (apply markup_heads; [by vm_compute|done]).
  cbv zeta. unfold strip_tags.
  repeat (erewrite Hr; [|reflexivity|by vm_compute]). done.
Qed.

Lemma plain_text_passes_through_witness :
  htmlToMarkdown "  Call me Ishmael.  " = JS.trim "  Call me Ishmael.  ".
Proof. apply plain_text_passes_through. reflexivity. Defined.

(** X14. The converted text never starts or ends with white space:
    neither its first nor its last code unit is a white-space code unit,
    and trimming it again changes nothing. So a hit offset or a chunk
    offset counts from the first visible code unit of the chapter. *)
Theorem converted_text_is_trimmed :
  ∀ html,
    JS.trim (htmlToMarkdown html) = htmlToMarkdown html
    ∧ (∀ c t, htmlToMarkdown html = String c t → JS.is_space c = false)
    ∧ (∀ t c, htmlToMarkdown html = t +:+ String c "" → JS.is_space c = false).
Proof.
  intros html. unfold htmlToMarkdown.
  destruct (negb (JS.truthy html)).
  - split_and!; [done|done|]. intros [|x t] c H; done.
  - cbv zeta. split_and!.
    + apply trim_idempotent.
    + intros c t. apply trim_first.
    + intros t c. apply trim_last.
Qed.

Lemma converted_text_is_trimmed_witness :
  JS.is_space "#" = false.
Proof.
  apply (proj1 (proj2 (converted_text_is_trimmed " <h1>Dawn</h1> "))
           "#"%char ("# Dawn")).
  by vm_compute.
Defined.

(** ** The tool handler *)

Section ImageFiles.

Import RegExp.

(** Upper-case and lower-case folding identify the same code units. *)
Lemma fold_same (x c : ascii) :
  Ascii.eqb (JS.upper_ascii x) (JS.upper_ascii c)
  = Ascii.eqb (JS.lower_ascii x) (JS.lower_ascii c).
Proof.
  apply eqb_prop. revert c. apply all_ascii.
  revert x. apply all_ascii. by vm_compute.
Qed.

Lemma lower_dot (c : ascii) : Ascii.eqb (JS.lower_ascii c) "." = Ascii.eqb c ".".
Proof. apply eqb_prop. revert c. apply all_ascii. by vm_compute. Qed.

Lemma includes_toLowerCase_dot (s : string) :
  JS.includes "." (JS.toLowerCase s) = JS.includes "." s.
Proof.
  induction s as [|c s IH]; [done|]. cbn. by rewrite IH, lower_dot.
Qed.

Lemma toLowerCase_append (a b : string) :
  JS.toLowerCase (a +:+ b) = JS.toLowerCase a +:+ JS.toLowerCase b.
Proof.
  induction a as [|c a IH]; [done|]. rewrite append_cons. cbn.
  by rewrite IH, append_cons.
Qed.

(** A literal under the [i] flag matches the texts that fold to it. *)
Lemma lit_i_inv (w : string) :
  ∀ s k e,
    m (lit_i w) s k = Some e →
    ∃ t u pv,
      rest s = t +:+ u ∧ JS.toLowerCase t = JS.toLowerCase w ∧
      k (MState (pos s + String.length t) pv u (caps s)) = Some e.
Proof.
  induction w as [|c w IH]; intros s k e H.
  - cbn in H. exists "", (rest s), (prev s). rewrite Nat.add_0_r.
    by destruct s.
  - cbn [lit_i m ch_i] in H. destruct (rest s) as [|x r] eqn:E; [done|].
    rewrite fold_same in H.
    destruct (Ascii.eqb (JS.lower_ascii x) (JS.lower_ascii c)) eqn:Ex; [|done].
    apply Ascii.eqb_eq in Ex.
    apply IH in H as (t & u & pv & Hr & Ht & Hk). cbn in Hr, Hk.
    exists (String x t), u, pv. rewrite append_cons, Hr. cbn [JS.toLowerCase].
    rewrite Ex, Ht. split_and!; [done..|].
    by replace (pos s + String.length (String x t))%nat
      with (S (pos s) + String.length t)%nat by (cbn; lia).
Qed.

Lemma lit_i_intro (w : string) :
  ∀ t u i pv cs,
    JS.toLowerCase t = JS.toLowerCase w →
    ∃ pv', ∀ k,
      m (lit_i w) (MState i pv (t +:+ u) cs) k
      = k (MState (i + String.length t) pv' u cs).
Proof.
  induction w as [|c w IH]; intros t u i pv cs H.
  - destruct t; [|done]. exists pv. intros k. cbn. by rewrite Nat.add_0_r.
  - destruct t as [|x t]; [done|]. cbn in H. injection H as Hx Ht.
    destruct (IH t u (S i) (Some x) cs Ht) as [pv' Hm]. exists pv'. intros k.
    rewrite append_cons. cbn [lit_i m ch_i rest pos caps].
    rewrite fold_same, Hx, Ascii.eqb_refl, Hm.
    by replace (i + String.length (String x t))%nat
      with (S i + String.length t)%nat by (cbn; lia).
Qed.

Lemma search_from_inv (r : regex) :
  ∀ text i pv mt,
    search_from r i pv text = Some mt →
    ∃ a b i' pv' e, text = a +:+ b ∧ m r (MState i' pv' b []) Some = Some e.
Proof.
  induction text as [|c t IH]; intros i pv mt H; cbn [search_from] in H.
  - destruct (m r (MState i pv "" []) Some) as [e|] eqn:E; [|done].
    by exists "", "", i, pv, e.
  - destruct (m r (MState i pv (String c t) []) Some) as [e|] eqn:E.
    + by exists "", (String c t), i, pv, e.
    + apply IH in H as (a & b & i' & pv' & e & -> & H).
      by exists (String c a), b, i', pv', e.
Qed.

Lemma search_from_intro (r : regex) (b : string) :
  (∀ i pv, ∃ e, m r (MState i pv b []) Some = Some e) →
  ∀ a i pv, ∃ mt, search_from r i pv (a +:+ b) = Some mt.
Proof.
  intros Hb. induction a as [|c a IH]; intros i pv.
  - rewrite append_nil_l. destruct (Hb i pv) as [e He].
    destruct b; cbn [search_from]; rewrite He; eauto.
  - rewrite append_cons. cbn [search_from].
    destruct (m r _ Some); [eauto|]. apply IH.
Qed.

#[local] Abbreviation extensions := ["jpg"; "jpeg"; "png"; "gif"; "webp"] (only parsing).
#[local] Abbreviation alternatives :=
  (Alt (lit_i "jpg") (Alt (lit_i "jpeg") (Alt (lit_i "png")
     (Alt (lit_i "gif") (lit_i "webp"))))) (only parsing).

Lemma alternatives_inv (s : mstate) (k : mstate → option mstate) (e : mstate) :
  m alternatives s k = Some e →
  ∃ t u pv,
    rest s = t +:+ u ∧ JS.toLowerCase t ∈ (extensions : list string) ∧
    k (MState (pos s + String.length t) pv u (caps s)) = Some e.
Proof.
  assert (∀ w, m (lit_i w) s k = Some e → JS.toLowerCase w = w →
               w ∈ (extensions : list string) →
               ∃ t u pv,
                 rest s = t +:+ u ∧ JS.toLowerCase t ∈ (extensions : list string) ∧
                 k (MState (pos s + String.length t) pv u (caps s)) = Some e)
    as Hone.
  { intros w Hw Hlow Hin. apply lit_i_inv in Hw as (t & u & pv & Hr & Ht & Hk).
    exists t, u, pv. by rewrite Ht, Hlow. }
  cbn [m]. intros H.
  destruct (m (lit_i "jpg") s k) eqn:E1.
  { injection H as ->. apply (Hone _ E1); [done|repeat constructor]. }
  destruct (m (lit_i "jpeg") s k) eqn:E2.
  { injection H as ->. apply (Hone _ E2); [done|repeat constructor]. }
  destruct (m (lit_i "png") s k) eqn:E3.
  { injection H as ->. apply (Hone _ E3); [done|repeat constructor]. }
  destruct (m (lit_i "gif") s k) eqn:E4.
  { injection H as ->. apply (Hone _ E4); [done|repeat constructor]. }
  apply (Hone _ H); [done|repeat constructor].
Qed.

Lemma alternatives_intro (t u : string) i pv cs (k : mstate → option mstate) :
  JS.toLowerCase t ∈ (extensions : list string) →
  (∀ pv', ∃ e, k (MState (i + String.length t) pv' u cs) = Some e) →
  ∃ e, m alternatives (MState i pv (t +:+ u) cs) k = Some e.
Proof.
  intros Hin Hk.
  assert (∀ w, JS.toLowerCase t = w → JS.toLowerCase w = w →
               ∃ e, m (lit_i w) (MState i pv (t +:+ u) cs) k = Some e) as Hone.
  { intros w Hw Hlow. rewrite <- Hlow in Hw.
    destruct (lit_i_intro w t u i pv cs Hw) as [pv' Hm]. rewrite Hm. apply Hk. }
  cbn [m].
  destruct (m (lit_i "jpg") _ k) eqn:E1; [eauto|].
  destruct (m (lit_i "jpeg") _ k) eqn:E2; [eauto|].
  destruct (m (lit_i "png") _ k) eqn:E3; [eauto|].
  destruct (m (lit_i "gif") _ k) eqn:E4; [eauto|].
  repeat match goal with
         | H : _ ∈ _ :: _ |- _ => apply elem_of_cons in H as [H|H]
         | H : _ ∈ [] |- _ => by apply elem_of_nil in H
         end.
  - destruct (Hone _ Hin eq_refl) as [e He]. congruence.
  - destruct (Hone _ Hin eq_refl) as [e He]. congruence.
  - destruct (Hone _ Hin eq_refl) as [e He]. congruence.
  - destruct (Hone _ Hin eq_refl) as [e He]. congruence.
  - by apply Hone.
Qed.

Lemma image_extension_inv (b : string) i pv e :
  m Tool.imageExtension (MState i pv b []) Some = Some e →
  ∃ ext, b = "." +:+ ext ∧ JS.toLowerCase ext ∈ (extensions : list string).
Proof.
  unfold Tool.imageExtension. cbn [seqs fold_right]. cbn [m ch rest].
  destruct b as [|c ext]; [done|].
  destruct (Ascii.eqb "." c) eqn:Ec; [|done]. apply Ascii.eqb_eq in Ec as <-.
  intros H. exists ext. split; [done|].
  apply alternatives_inv in H as (t & u & pv' & Hr & Hin & Hk).
  cbn [rest] in Hr. cbn [any set_cap rest] in Hk.
  destruct u as [|x u]; [|done]. rewrite append_nil_r in Hr. by subst t.
Qed.

Lemma image_extension_intro (ext : string) i pv :
  JS.toLowerCase ext ∈ (extensions : list string) →
  ∃ e, m Tool.imageExtension (MState i pv ("." +:+ ext) []) Some = Some e.
Proof.
  intros Hin. unfold Tool.imageExtension.
  pose proof (fun k => alternatives_intro ext "" (S i) (Some "."%char) [] k Hin)
    as Hintro.
  rewrite append_nil_r in Hintro.
  remember (Alt _ _) as alts eqn:Ealts. cbn [seqs fold_right].
  rewrite append_cons, append_nil_l. cbn [m ch rest pos caps prev].
  rewrite Ascii.eqb_refl. subst alts. apply Hintro. intros pv'. cbn. eauto.
Qed.

Lemma extension_of (stem ext : string) :
  JS.includes "." ext = false →
  Tool.extension (stem +:+ "." +:+ ext) = JS.toLowerCase ext.
Proof.
  intros Hext. unfold Tool.extension, JS.pop_value.
  destruct (split_snoc "." stem) as (front & lst & Hs).
  rewrite (split_app "." stem ("." +:+ ext) front lst "" [ext] Hs).
  - change (front ++ [lst +:+ ""; ext]) with (front ++ [lst +:+ ""] ++ [ext]).
    by rewrite app_assoc, last_snoc.
  - rewrite append_cons, append_nil_l. cbn [JS.split]. rewrite Ascii.eqb_refl.
    by rewrite split_single.
Qed.

Lemma isImage_iff (path : string) :
  Tool.isImage path = true ↔
  ∃ stem ext, path = stem +:+ "." +:+ ext ∧
              JS.toLowerCase ext ∈ (extensions : list string).
Proof.
  unfold Tool.isImage, match_. split.
  - destruct (search_from _ _ _ _) as [mt|] eqn:E; [|done]. intros _.
    apply search_from_inv in E as (a & b & i' & pv' & e & -> & H).
    apply image_extension_inv in H as (ext & -> & Hin). by exists a, ext.
  - intros (stem & ext & -> & Hin).
    destruct (search_from_intro Tool.imageExtension ("." +:+ ext)
                (fun i pv => image_extension_intro ext i pv Hin) stem 0%nat None)
      as [mt ->]. done.
Qed.

Lemma image_types (path : string) :
  Tool.isImage path = true →
  Tool.extension path ∈ (extensions : list string) ∧
  Tool.mimeType_of path
  ∈ (["image/jpeg"; "image/png"; "image/gif"; "image/webp"] : list string).
Proof.
  intros (stem & ext & -> & Hin)%isImage_iff.
  assert (JS.includes "." ext = false) as Hdot.
  { rewrite <- includes_toLowerCase_dot.
    repeat match goal with
           | H : _ ∈ _ :: _ |- _ => apply elem_of_cons in H as [->|H]
           | H : _ ∈ [] |- _ => by apply elem_of_nil in H
           end; done. }
  unfold Tool.mimeType_of. rewrite (extension_of stem ext Hdot).
  split; [done|].
  repeat match goal with
         | H : _ ∈ _ :: _ |- _ => apply elem_of_cons in H as [->|H]
         | H : _ ∈ [] |- _ => by apply elem_of_nil in H
         end; cbn; set_solver.
Qed.

End ImageFiles.

Section ToolResults.

Context {host : Host} {adapter : Adapter}.

(** X15. The tool get_epub_file answers with the stored file. A path
    is treated as an image exactly when it ends in a dot followed by
    jpg, jpeg, png, gif or webp in any letter case; the answer is then
    the encoded file with the media type image/jpeg, image/png,
    image/gif or image/webp that the extension gives, and otherwise it is
    the text of the file as it is stored. *)
Theorem epub_file_tool_result :
  ∀ this args tr r tr',
    let path := Tool.arg_path args in
    tool_get_epub_file this args tr = (Return r, tr') →
    ∃ text,
      stored_text this (Tool.arg_libraryId args) (Tool.arg_bookId args) path text ∧
      ((∃ stem ext mimeType,
          path = stem +:+ "." +:+ ext ∧
          JS.toLowerCase ext ∈ (["jpg"; "jpeg"; "png"; "gif"; "webp"] : list string) ∧
          mimeType = (if String.eqb (JS.toLowerCase ext) "jpg" then "image/jpeg"
                      else "image/" +:+ JS.toLowerCase ext) ∧
          mimeType ∈ (["image/jpeg"; "image/png"; "image/gif"; "image/webp"]
                      : list string) ∧
          r = Tool.MkResult [Tool.ImageContent (toBase64 text) mimeType] false)
       ∨ ((∀ stem ext,
             path = stem +:+ "." +:+ ext →
             JS.toLowerCase ext ∉ (["jpg"; "jpeg"; "png"; "gif"; "webp"] : list string)) ∧
          r = Tool.text_result text)).
Proof.
  intros this args tr r tr' path H. unfold tool_get_epub_file in H. fold path in H.
  destruct (Tool.isImage path) eqn:E.
  - apply bind_Return in H as (text & tr1 & Hf & H). injection H as <- <-.
    apply getEpubFile_Return in Hf as [Hst _]. exists text. split; [done|]. left.
    pose proof (image_types path E) as [_ Hmime].
    apply isImage_iff in E as (stem & ext & Hp & Hin).
    assert (JS.includes "." ext = false) as Hdot.
    { rewrite <- includes_toLowerCase_dot.
      repeat match goal with
             | H : _ ∈ _ :: _ |- _ => apply elem_of_cons in H as [->|H]
             | H : _ ∈ [] |- _ => by apply elem_of_nil in H
             end; done. }
    exists stem, ext, (Tool.mimeType_of path).
    split_and!; [done|done| |done|done].
    unfold Tool.mimeType_of. by rewrite Hp, (extension_of stem ext Hdot).
  - apply bind_Return in H as (text & tr1 & Hf & H). injection H as <- <-.
    apply getEpubFile_Return in Hf as [Hst _]. exists text. split; [done|]. right.
    split; [|done]. intros stem ext Hp Hin.
    assert (Tool.isImage path = true) as E'; [|congruence].
    apply isImage_iff. by exists stem, ext.
Qed.


End ToolResults.

Lemma epub_file_tool_result_witness :
  let this := Samples.serving [Samples.file "images/cover.JPG" "abc"] in
  let path := "images/cover.JPG" in
  let r := Tool.MkResult [Tool.ImageContent "YWJj" "image/jpeg"] false in
  ∃ text,
    stored_text this "lib" 1 path text ∧
    ((∃ stem ext mimeType,
        path = stem +:+ "." +:+ ext ∧
        JS.toLowerCase ext ∈ (["jpg"; "jpeg"; "png"; "gif"; "webp"] : list string) ∧
        mimeType = (if String.eqb (JS.toLowerCase ext) "jpg" then "image/jpeg"
                    else "image/" +:+ JS.toLowerCase ext) ∧
        mimeType ∈ (["image/jpeg"; "image/png"; "image/gif"; "image/webp"]
                    : list string) ∧
        r = Tool.MkResult [Tool.ImageContent (toBase64 text) mimeType] false)
     ∨ ((∀ stem ext,
           path = stem +:+ "." +:+ ext →
           JS.toLowerCase ext ∉ (["jpg"; "jpeg"; "png"; "gif"; "webp"] : list string)) ∧
        r = Tool.text_result text)).
Proof.
  apply (epub_file_tool_result
           (Samples.serving [Samples.file "images/cover.JPG" "abc"])
           (Tool.MkArgs "lib" 1 "images/cover.JPG" "" None None) []
           _ [EvOpen 0; EvGetEntries 0; EvGetData "images/cover.JPG"; EvClose 0]).
  by vm_compute.
Defined.


(** ** The transport *)

Section TransportFacts.

Context {Id Result : Type}.
Implicit Types (server : Mcp.McpServer Id Result) (message : Mcp.Message Id).

(** The line a handler outcome is answered with. *)
Lemma handle_registered server message method id handler :
  Mcp.msg_method message = Some method → Mcp.msg_id message = Some id →
  method ≠ "initialize" →
  Mcp.handlers server !! method = Some handler →
  Mcp.handle_message server message
  = [match handler message with
     | Mcp.Resolved result => Mcp.Response id (Mcp.HandlerResult result)
     | Mcp.ThrownMcp code msg => Mcp.ErrorResponse id code msg
     | Mcp.Thrown msg => Mcp.ErrorResponse id Mcp.InternalError msg
     end].
Proof.
  intros Hm Hi Hinit Hh. unfold Mcp.handle_message. rewrite Hm, Hi.
  destruct (String.eqb_spec method "initialize") as [|_]; [done|].
  rewrite Hh. by destruct (handler message).
Qed.

(** X17. Registration and dispatch agree. After [setRequestHandler]
    for a method other than initialize, a request for that method is
    answered from what the registered handler gives: its result, the
    code and message of the [McpError] it throws, or -32603 with the
    message of any other error. A registration replaces an earlier one
    for the same method and leaves the answers to all other methods as
    they were. *)
Theorem registered_handler_answers :
  ∀ server method handler message id,
    Mcp.msg_method message = Some method → Mcp.msg_id message = Some id →
    method ≠ "initialize" →
    Mcp.handle_message (Mcp.setRequestHandler server method handler) message
    = [match handler message with
       | Mcp.Resolved result => Mcp.Response id (Mcp.HandlerResult result)
       | Mcp.ThrownMcp code msg => Mcp.ErrorResponse id code msg
       | Mcp.Thrown msg => Mcp.ErrorResponse id (-32603) msg
       end]
    ∧ (∀ earlier,
         Mcp.setRequestHandler (Mcp.setRequestHandler server method earlier)
           method handler
         = Mcp.setRequestHandler server method handler)
    ∧ (∀ method' handler',
         method' ≠ method →
         Mcp.handle_message (Mcp.setRequestHandler server method' handler') message
         = Mcp.handle_message server message).
Proof.
  intros server method handler message id Hm Hi Hinit. split_and!.
  - apply (handle_registered _ _ method); [done..|]. cbn. by rewrite lookup_insert_eq.
  - intros earlier. unfold Mcp.setRequestHandler. cbn. by rewrite insert_insert_eq.
  - intros method' handler' Hne. unfold Mcp.handle_message. rewrite Hm, Hi.
    cbn. by rewrite lookup_insert_ne.
Qed.

(** X18. One line in, at most one line out. A blank line, a line that
    does not parse, and a message without a method or without an id (a
    notification or a response) are answered with nothing. A request is
    answered with exactly one line, carrying the id of the request:
    initialize by the server itself, whatever is registered; a method
    without a handler by the error -32601 naming the method. *)
Theorem one_answer_per_request :
  ∀ (parse : string → option (Mcp.Message Id)) server line,
    (JS.trim line = "" → Mcp.handle_line parse server line = []) ∧
    (parse line = None → Mcp.handle_line parse server line = []) ∧
    (∀ message,
       parse line = Some message →
       Mcp.msg_method message = None ∨ Mcp.msg_id message = None →
       Mcp.handle_line parse server line = []) ∧
    (∀ message method id,
       JS.trim line ≠ "" → parse line = Some message →
       Mcp.msg_method message = Some method → Mcp.msg_id message = Some id →
       (∃ sent, Mcp.handle_line parse server line = [sent] ∧ Mcp.sent_id sent = id) ∧
       (method = "initialize" →
        Mcp.handle_line parse server line
        = [Mcp.Response id
             (Mcp.InitializeResult "2024-11-05" (Mcp.server_name server)
                (Mcp.server_version server))]) ∧
       (method ≠ "initialize" → Mcp.handlers server !! method = None →
        Mcp.handle_line parse server line
        = [Mcp.ErrorResponse id (-32601) ("Method not found: " +:+ method)])).
Proof.
  intros parse server line. unfold Mcp.handle_line. split_and!.
  - by intros ->.
  - intros ->. by destruct (negb _).
  - intros message -> H. destruct (negb _); [done|]. unfold Mcp.handle_message.
    destruct H as [-> | ->]; [done|]. by destruct (Mcp.msg_method message).
  - intros message method id Hline -> Hm Hi.
    assert (negb (JS.truthy (JS.trim line)) = false) as ->.
    { unfold JS.truthy. rewrite negb_involutive.
      by apply String.eqb_neq. }
    unfold Mcp.handle_message. rewrite Hm, Hi. split_and!.
    + destruct (String.eqb method "initialize"); [by eexists|].
      destruct (Mcp.handlers server !! method) as [handler|]; [|by eexists].
      destruct (handler message); by eexists.
    + intros ->. done.
    + intros Hne ->. by destruct (String.eqb_spec method "initialize").
Qed.

End TransportFacts.

Lemma registered_handler_answers_witness :
  let server : Mcp.McpServer Z string := Mcp.MkServer "calibre-reader-deno" "1.0.0" ∅ in
  let handler : Mcp.Message Z → Mcp.HandlerOutcome string :=
    fun _ => Mcp.Resolved "tools" in
  let message := Mcp.MkMessage (Some "tools/list") (Some 7) in
  Mcp.handle_message (Mcp.setRequestHandler server "tools/list" handler) message
  = [match handler message with
     | Mcp.Resolved result => Mcp.Response 7 (Mcp.HandlerResult result)
     | Mcp.ThrownMcp code msg => Mcp.ErrorResponse 7 code msg
     | Mcp.Thrown msg => Mcp.ErrorResponse 7 (-32603) msg
     end].
Proof.
  apply (proj1 (registered_handler_answers
                  (Mcp.MkServer "calibre-reader-deno" "1.0.0" ∅) "tools/list"
                  (fun _ => Mcp.Resolved "tools")
                  (Mcp.MkMessage (Some "tools/list") (Some 7)) 7
                  eq_refl eq_refl ltac:(discriminate))).
Defined.

Lemma one_answer_per_request_witness :
  let server : Mcp.McpServer Z string := Mcp.MkServer "calibre-reader-deno" "1.0.0" ∅ in
  let parse : string → option (Mcp.Message Z) :=
    fun _ => Some (Mcp.MkMessage (Some "resources/list") (Some 3)) in
  Mcp.handle_line parse server "{}"
  = [Mcp.ErrorResponse 3 (-32601) ("Method not found: " +:+ "resources/list")].
Proof.
  refine (proj2 (proj2 (proj2 (proj2 (proj2
            (one_answer_per_request
               (fun _ => Some (Mcp.MkMessage (Some "resources/list") (Some 3)))
               (Mcp.MkServer "calibre-reader-deno" "1.0.0" ∅) "{}")))
            _ "resources/list" 3 _ eq_refl eq_refl eq_refl)) _ _).
  - discriminate.
  - discriminate.
  - reflexivity.
Defined.

(** ** The base URL *)

Section BaseUrl.

Lemma endsWith_snoc (c : ascii) (s : string) :
  JS.endsWith c (s +:+ String c "") = true.
Proof.
  induction s as [|x s IH]; [cbn; apply Ascii.eqb_refl|].
  rewrite append_cons. cbn [JS.endsWith]. rewrite IH.
  destruct (s +:+ String c "") eqn:E; [by destruct s|done].
Qed.

Lemma slice_init_snoc (c : ascii) (s : string) :
  slice_init (s +:+ String c "") = s.
Proof.
  induction s as [|x s IH]; [done|]. rewrite append_cons. cbn [slice_init].
  rewrite IH. destruct (s +:+ String c "") eqn:E; [by destruct s|done].
Qed.

(** X19. One trailing slash of the configured base URL is dropped
    before request paths are appended: a base written with a trailing
    slash gives the same request URLs as the base without it. Only one
    slash is dropped, and a base without a trailing slash is kept as
    it is. *)
Theorem base_url_trailing_slash :
  ∀ base url,
    fullUrl (base +:+ "/") url = base +:+ url
    ∧ (JS.endsWith "/" base = false →
       fullUrl base url = base +:+ url
       ∧ fullUrl (base +:+ "/") url = fullUrl base url).
Proof.
  intros base url.
  assert (fullUrl (base +:+ "/") url = base +:+ url) as H1.
  { unfold fullUrl, constructor_baseUrl.
    by rewrite endsWith_snoc, slice_init_snoc. }
  split; [done|]. intros H.
  assert (fullUrl base url = base +:+ url) as H2.
  { unfold fullUrl, constructor_baseUrl. by rewrite H. }
  split; [done|]. by rewrite H1, H2.
Qed.

End BaseUrl.

Lemma base_url_trailing_slash_witness :
  fullUrl "http://localhost:8080" "/interface-data/init"
  = "http://localhost:8080" +:+ "/interface-data/init"
  ∧ fullUrl ("http://localhost:8080" +:+ "/") "/interface-data/init"
    = fullUrl "http://localhost:8080" "/interface-data/init".
Proof.
  apply (proj2 (base_url_trailing_slash "http://localhost:8080"
                  "/interface-data/init")).
  reflexivity.
Defined.
